(** * WebRTC: encoded images, media constraints and the task queue

A shallow embedding of
  - [api/video/encoded_image.cc] ([EncodedImage]),
  - [api/media_constraints_interface.cc] ([FindConstraint], [FindFirst]
    and the conversions of constraints into options),
  - the task-queue execution model exercised by
    [rtc_base/task_queue_unittest.cc],
  - [test/scenario/video_stream.cc] (the encoder configuration and the
    statistics printer). *)

From stdpp Require Import gmap strings list fin_maps.
From Stdlib Require Import ZArith Lia.
From Stdlib Require QArith.

Local Open Scope Z_scope.

(* ===================================================================== *)
(** ** api/video/encoded_image.cc *)
(* ===================================================================== *)

Module EncodedImage.

Section Image.

(** [VideoCodecType] is declared in a header that is not part of the
    sources at hand; the switch in [GetBufferPaddingBytes] only compares
    its argument with the enumerator [kVideoCodecH264], so the enumeration
    is taken as a parameter with decidable equality. *)
Context {VideoCodecType : Type} `{EqDecision VideoCodecType}.
Variable kVideoCodecH264 : VideoCodecType.

(** The members of [EncodedImage] that [encoded_image.cc] does not name
    (width, height, timestamps, frame type, ...) are kept abstractly. *)
Variable OtherMembers : Type.

(** [const size_t EncodedImage::kBufferPaddingBytesH264 = 8;] *)
Definition kBufferPaddingBytesH264 : Z := 8.

(** [size_t EncodedImage::GetBufferPaddingBytes(VideoCodecType)] *)
Definition GetBufferPaddingBytes (codec_type : VideoCodecType) : Z :=
  if decide (codec_type = kVideoCodecH264)
  then kBufferPaddingBytesH264
  else 0.

(** [timing_], the only structured member the file writes. *)
Record Timing := mkTiming {
  encode_start_ms : Z;
  encode_finish_ms : Z
}.

(** [buffer_] is a raw [uint8_t*]: either null or the address of caller
    owned storage.  The storage is represented by the bytes readable from
    that address on. *)
Record t := mk {
  size_ : nat;
  buffer_ : option (list Byte.byte);
  capacity_ : nat;
  encoded_data_ : list Byte.byte;
  timing_ : Timing;
  other_ : OtherMembers
}.

(** [memcpy(dst, src, n)] over a destination of exactly [n] bytes: defined
    only when [n] bytes are readable at [src]. *)
Definition memcpy (dst src : list Byte.byte) (n : nat)
  : option (list Byte.byte) :=
  if decide (n ≤ length src)%nat
  then Some (take n src ++ drop n dst)
  else None.

(** [void EncodedImage::Retain()].  [None] stands for the undefined
    behaviour of reading past the end of the storage behind [buffer_]. *)
Definition Retain (img : t) : option t :=
  match buffer_ img with
  | Some buffer =>
      let fresh := replicate (size_ img) Byte.x00 in
      data ← memcpy fresh buffer (size_ img);
      Some {| size_ := size_ img;
              buffer_ := None;
              capacity_ := capacity_ img;
              encoded_data_ := data;
              timing_ := timing_ img;
              other_ := other_ img |}
  | None => Some img
  end.

(** [void EncodedImage::SetEncodeTime(int64_t, int64_t)] *)
Definition SetEncodeTime (encode_start encode_finish : Z) (img : t) : t :=
  {| size_ := size_ img;
     buffer_ := buffer_ img;
     capacity_ := capacity_ img;
     encoded_data_ := encoded_data_ img;
     timing_ := {| encode_start_ms := encode_start;
                   encode_finish_ms := encode_finish |};
     other_ := other_ img |}.

Lemma memcpy_whole (dst src : list Byte.byte) (n : nat) :
  length dst = n → (n ≤ length src)%nat →
  memcpy dst src n = Some (take n src).
Proof.
  intros Hd Hs. unfold memcpy. rewrite decide_True by done.
  rewrite drop_ge by lia. by rewrite app_nil_r.
Qed.

Lemma Retain_null (img : t) :
  buffer_ img = None → Retain img = Some img.
Proof. intros H. unfold Retain. by rewrite H. Qed.

Lemma Retain_defined (img : t) (buffer : list Byte.byte) :
  buffer_ img = Some buffer → (size_ img ≤ length buffer)%nat →
  Retain img = Some {| size_ := size_ img;
                       buffer_ := None;
                       capacity_ := capacity_ img;
                       encoded_data_ := take (size_ img) buffer;
                       timing_ := timing_ img;
                       other_ := other_ img |}.
Proof.
  intros Hb Hs. unfold Retain. rewrite Hb.
  rewrite memcpy_whole; [done | by rewrite length_replicate | done].
Qed.

Lemma Retain_short (img : t) (buffer : list Byte.byte) :
  buffer_ img = Some buffer → (length buffer < size_ img)%nat →
  Retain img = None.
Proof.
  intros Hb Hs. unfold Retain, memcpy. rewrite Hb.
  rewrite decide_False by lia. done.
Qed.

Lemma GetBufferPaddingBytes_H264 :
  GetBufferPaddingBytes kVideoCodecH264 = kBufferPaddingBytesH264.
Proof. unfold GetBufferPaddingBytes. by rewrite decide_True. Qed.

Lemma GetBufferPaddingBytes_other (c : VideoCodecType) :
  c ≠ kVideoCodecH264 → GetBufferPaddingBytes c = 0.
Proof. intros Hne. unfold GetBufferPaddingBytes. by rewrite decide_False. Qed.

(** C8.  For every codec type [c], [GetBufferPaddingBytes c] is
    [kBufferPaddingBytesH264], that is 8, when [c] is [kVideoCodecH264],
    and 0 for every other codec type. *)
Theorem GetBufferPaddingBytes_spec (c : VideoCodecType) :
  GetBufferPaddingBytes c =
    (if decide (c = kVideoCodecH264) then 8 else 0).
Proof.
  destruct (decide (c = kVideoCodecH264)) as [->|Hne].
  - by rewrite GetBufferPaddingBytes_H264.
  - by rewrite GetBufferPaddingBytes_other.
Qed.

(** C9.  [Retain] is idempotent.  With a null [buffer_] it changes nothing;
    with a non-null [buffer_] it stores exactly the first [size_] bytes of
    the buffer in [encoded_data_], nulls [buffer_] and leaves every other
    member as it was (reading [size_] bytes must be possible, otherwise
    the call has no defined result); running it a second time changes
    nothing more. *)
Theorem Retain_idempotent (img : t) :
  Retain img ≫= Retain = Retain img ∧
  match buffer_ img with
  | None => Retain img = Some img
  | Some buffer =>
      if decide (size_ img ≤ length buffer)%nat
      then Retain img = Some {| size_ := size_ img;
                                buffer_ := None;
                                capacity_ := capacity_ img;
                                encoded_data_ := take (size_ img) buffer;
                                timing_ := timing_ img;
                                other_ := other_ img |}
      else Retain img = None
  end.
Proof.
  destruct (buffer_ img) as [buffer|] eqn:Hb.
  - destruct (decide (size_ img ≤ length buffer)%nat) as [Hs|Hs].
    + rewrite (Retain_defined img buffer Hb Hs). split; [|done].
      simpl. by rewrite Retain_null.
    + rewrite (Retain_short img buffer Hb) by lia. done.
  - rewrite (Retain_null img Hb). split; [|done].
    simpl. by rewrite Retain_null.
Qed.

End Image.

(** The enumerators of [VideoCodecType] that the sources name. *)
Inductive KnownCodec :=
  | kVideoCodecGeneric
  | kVideoCodecVP8
  | kVideoCodecVP9
  | kVideoCodecH264.

#[global] Instance KnownCodec_eq_dec : EqDecision KnownCodec.
Proof. solve_decision. Defined.

Example padding_per_codec :
  map (GetBufferPaddingBytes kVideoCodecH264)
      [kVideoCodecGeneric; kVideoCodecVP8; kVideoCodecVP9; kVideoCodecH264]
  = [0; 0; 0; 8].
Proof. reflexivity. Qed.

Definition sample_image : t unit :=
  {| size_ := 2;
     buffer_ := Some [Byte.x0a; Byte.x0b; Byte.x0c];
     capacity_ := 3;
     encoded_data_ := [];
     timing_ := {| encode_start_ms := 0; encode_finish_ms := 0 |};
     other_ := () |}.

Example Retain_sample :
  encoded_data_ unit <$> Retain unit sample_image = Some [Byte.x0a; Byte.x0b] ∧
  (Retain unit sample_image ≫= Retain unit) = Retain unit sample_image.
Proof. split; reflexivity. Qed.

End EncodedImage.

(* ===================================================================== *)
(** ** api/media_constraints_interface.cc *)
(* ===================================================================== *)

Module MediaConstraints.

(** [MediaConstraintsInterface::Constraint]: a key and a value. *)
Record Constraint := mkConstraint {
  key : string;
  value : string
}.

(** [MediaConstraintsInterface::Constraints] is a vector of constraints. *)
Abbreviation Constraints := (list Constraint).

(** The two lists an implementation of the interface hands out. *)
Record MediaConstraintsInterface := mkInterface {
  GetMandatory : Constraints;
  GetOptional : Constraints
}.

(** [bool Constraints::FindFirst(key, value)].
    The out-parameter is passed in and handed back: it is overwritten only
    when the key is found. *)
Fixpoint FindFirst (cs : Constraints) (k : string) (out : string)
  : bool * string :=
  match cs with
  | [] => (false, out)
  | c :: rest =>
      if decide (key c = k) then (true, value c) else FindFirst rest k out
  end.

Section FindConstraint.

(** Width of [size_t] on the target. *)
Variable size_t_bits : Z.

(** [++*p] on a [size_t]. *)
Definition size_t_incr (n : Z) : Z := (n + 1) `mod` 2 ^ size_t_bits.

(** [template <> bool FindConstraint(constraints, key, value,
    mandatory_constraints)], the specialisation for strings.  A null [constraints] or [mandatory_constraints] pointer is
    [None]; the result carries the return value, the string behind
    [value] and the counter behind [mandatory_constraints]. *)
Definition FindConstraint (constraints : option MediaConstraintsInterface)
    (k : string) (out : string) (mandatory_constraints : option Z)
  : bool * string * option Z :=
  match constraints with
  | None => (false, out, mandatory_constraints)
  | Some c =>
      let '(found, out1) := FindFirst (GetMandatory c) k out in
      if found
      then (true, out1, size_t_incr <$> mandatory_constraints)
      else
        let '(found2, out2) := FindFirst (GetOptional c) k out1 in
        if found2
        then (true, out2, mandatory_constraints)
        else (false, out2, mandatory_constraints)
  end.

Lemma FindFirst_list_find (cs : Constraints) (k out : string) :
  FindFirst cs k out =
    match list_find (λ c, key c = k) cs with
    | Some (_, c) => (true, value c)
    | None => (false, out)
    end.
Proof.
  induction cs as [|c rest IH]; [done|].
  simpl. destruct (decide (key c = k)); [done|].
  rewrite IH. by destruct (list_find _ rest) as [[? ?]|].
Qed.

(** C10.  [FindConstraint] answers false for a null constraints pointer;
    a key present among the mandatory constraints yields the value of its
    first mandatory entry and, when the counter pointer is not null, one
    more in the counter; only a key absent from the mandatory list is
    looked up among the optional constraints, whose first matching value
    is returned with the counter untouched; a key in neither list gives
    false. *)
Theorem FindConstraint_spec (constraints : option MediaConstraintsInterface)
    (k out : string) (mandatory_constraints : option Z) :
  FindConstraint constraints k out mandatory_constraints =
    match constraints with
    | None => (false, out, mandatory_constraints)
    | Some c =>
        match list_find (λ x, key x = k) (GetMandatory c) with
        | Some (_, m) =>
            (true, value m, size_t_incr <$> mandatory_constraints)
        | None =>
            match list_find (λ x, key x = k) (GetOptional c) with
            | Some (_, o) => (true, value o, mandatory_constraints)
            | None => (false, out, mandatory_constraints)
            end
        end
    end.
Proof.
  destruct constraints as [c|]; [|done].
  unfold FindConstraint. rewrite !FindFirst_list_find.
  destruct (list_find _ (GetMandatory c)) as [[? m]|]; [done|].
  rewrite FindFirst_list_find.
  by destruct (list_find _ (GetOptional c)) as [[? o]|].
Qed.

End FindConstraint.

Definition sample_constraints : MediaConstraintsInterface :=
  {| GetMandatory := [mkConstraint "IceRestart" "true";
                      mkConstraint "googDscp" "false";
                      mkConstraint "IceRestart" "false"];
     GetOptional := [mkConstraint "googDscp" "true";
                     mkConstraint "googIPv6" "true"] |}.

Example FindConstraint_samples :
  FindConstraint 64 (Some sample_constraints) "IceRestart" "" (Some 0)
    = (true, "true", Some 1) ∧
  FindConstraint 64 (Some sample_constraints) "googDscp" "" None
    = (true, "false", None) ∧
  FindConstraint 64 (Some sample_constraints) "googIPv6" "" (Some 5)
    = (true, "true", Some 5) ∧
  FindConstraint 64 (Some sample_constraints) "RtpDataChannels" "x" (Some 5)
    = (false, "x", Some 5) ∧
  FindConstraint 64 None "IceRestart" "x" (Some 5) = (false, "x", Some 5).
Proof. repeat split; vm_compute; reflexivity. Qed.

End MediaConstraints.

(* ===================================================================== *)
(** ** The task queue exercised by rtc_base/task_queue_unittest.cc *)
(* ===================================================================== *)

Module TaskQueue.

Local Open Scope nat_scope.

#[local] Set Warnings "-clear-no-such-hyp".

(** A queue is identified by its name, a task object by its address. *)
Abbreviation QueueId := string.
Abbreviation TaskPtr := nat.

(** Which of the two callables of a closure task is invoked. *)
Inductive Role := RunCallable | CleanupCallable.

(** How a task reached the worker: through the pending-task channel or
    through the delay scheduler. *)
Inductive Via := Immediate | Delayed.

(** Who destroys a task object: the queue that owns it, the transport that
    could not accept it, or the delay mechanism. *)
Inductive Owner := ByQueue (q : QueueId) | ByTransport | ByDelay.

#[global] Instance Role_eq_dec : EqDecision Role.
Proof. solve_decision. Defined.
#[global] Instance Via_eq_dec : EqDecision Via.
Proof. solve_decision. Defined.
#[global] Instance Owner_eq_dec : EqDecision Owner.
Proof. solve_decision. Defined.

(** The first element of a list with a property, and the list without
    it. *)
Fixpoint take_first {A : Type} (P : A → Prop) `{!∀ x, Decision (P x)}
    (l : list A) : option (A * list A) :=
  match l with
  | [] => None
  | x :: rest =>
      if decide (P x) then Some (x, rest)
      else match take_first P rest with
           | Some (y, rest') => Some (y, x :: rest')
           | None => None
           end
  end.

Lemma take_first_Some {A : Type} (P : A → Prop) `{!∀ x, Decision (P x)}
    (l : list A) (e : A) (rest : list A) :
  take_first P l = Some (e, rest) →
  P e ∧ l ≡ₚ e :: rest ∧ filter P l = e :: filter P rest.
Proof.
  revert e rest. induction l as [|x l IH]; intros e rest; [done|].
  simpl. destruct (decide (P x)) as [Hx|Hx].
  - intros [= <- <-]. by rewrite filter_cons_True.
  - destruct (take_first P l) as [[y rest']|]; [|done].
    intros [= <- <-]. destruct (IH y rest' eq_refl) as (Hy & Hperm & Hf).
    split; [done|]. split.
    + rewrite Hperm. apply perm_swap.
    + by rewrite !filter_cons_False, Hf.
Qed.

Lemma take_first_None {A : Type} (P : A → Prop) `{!∀ x, Decision (P x)}
    (l : list A) :
  take_first P l = None → filter P l = [].
Proof.
  induction l as [|x l IH]; [done|].
  simpl. destruct (decide (P x)) as [Hx|Hx]; [done|].
  destruct (take_first P l) as [[y rest']|]; [done|].
  intros _. rewrite filter_cons_False by done. by apply IH.
Qed.

Lemma take_first_elem {A : Type} (P : A → Prop) `{!∀ x, Decision (P x)}
    (l : list A) (e : A) (rest : list A) :
  take_first P l = Some (e, rest) →
  e ∈ l ∧ ∀ x, x ∈ l ↔ x = e ∨ x ∈ rest.
Proof.
  intros (_ & Hperm & _)%take_first_Some. split.
  - rewrite Hperm. by left.
  - intros x. rewrite Hperm. apply elem_of_cons.
Qed.

Section Model.

(** The state shared by the callables of a program: the variables its
    lambdas capture by reference. *)
Variable Env : Type.

(** Modelled from the spec: the capacity of the pending-task transport of
    a queue (rtc_base/task_queue.h and its platform implementations are
    not among the sources).  The bound is environment specific, so it is
    a parameter. *)
Variable capacity : nat.

(** Modelled from the spec: by how many milliseconds the timer of the
    platform may fire before the target time.  The specification asks
    implementations to fire within a small bounded jitter of the target;
    TaskQueueTest.PostDelayed reports callbacks after 94 to 99 ms for a
    delay of 100 ms and accepts 90 ms.  The amount is environment
    specific, so it is a parameter; a platform with an exact timer has
    none. *)
Variable leeway : nat.

(** Modelled from the spec: whether the destruction of a paired closure
    that has run invokes its cleanup callable.  The closure adapter is not
    among the sources.  The specification says that the cleanup callable
    is discarded once the task has run; TaskQueueTest.PostALot expects one
    cleanup per posted task whether the task ran or not.  Both readings
    are kept, and the theorems say which one they are about. *)
Variable cleanup_after_run : bool.

(** Modelled from the spec: [QueuedTask] and the closure adapter of
    rtc_base/task_queue.h, which is not among the sources.

A task is run through [Run], whose result tells the queue whether to
destroy the task ([true]) or to let go of it ([false]).  The closure
adapter wraps one callable ([ClosureTask]) or a callable and a cleanup
callable ([ClosureTaskWithCleanup]); tests derive their own tasks from
[QueuedTask] ([CustomTask]).  What a callable does is a sequence of
statements: it updates the captured state, where it may look at
[TaskQueue::Current()], or posts a task, new or itself, to a queue. *)
Inductive Stmt :=
| Effect (f : option QueueId → Env → Env)
| PostTask (q : QueueId) (t : TaskRef)
| PostDelayedTask (q : QueueId) (t : TaskRef) (delay_ms : nat)
with TaskRef :=
| New (task : QueuedTask)
| This
with QueuedTask :=
| ClosureTask (closure : list Stmt)
| ClosureTaskWithCleanup (closure : list Stmt) (cleanup : Env → Env)
| CustomTask (run : Env → list Stmt * bool).

(** A task object together with its address: what a
    [std::unique_ptr<QueuedTask>] owns. *)
Local Abbreviation Item := (TaskPtr * QueuedTask)%type.

(** What an observer of the system can see happen, in order. *)
Inductive Event :=
| Posted (q : QueueId) (it : Item)
| Dropped (q : QueueId) (it : Item)
| Scheduled (q : QueueId) (it : Item) (fire_time : nat)
| Started (q : QueueId) (via : Via) (it : Item)
| Invoked (it : Item) (role : Role)
| Executed (q : QueueId) (it : Item)
| Returned (q : QueueId) (it : Item) (result : bool)
| Stopping (q : QueueId)
| Discarded (q : QueueId) (it : Item)
| Deleted (by_ : Owner) (it : Item).

(** Modelled from the spec: a Delayed Entry, a task bound to a fire time
    and a sequence number, on behalf of a queue. *)
Record DelayedEntry := mkEntry {
  fire_time : nat;
  sequence : nat;
  target : QueueId;
  entry_task : Item
}.

(** Modelled from the spec: what the worker of a queue is doing while it
    runs a task: the task, the statements of its [Run] that are still to
    be executed, the result [Run] is going to return, and whether the
    destructor of the queue is waiting for the task to finish. *)
Record Frame := mkFrame {
  frame_task : Item;
  frame_todo : list Stmt;
  frame_result : bool;
  frame_last : bool
}.

(** Modelled from the spec: the state of the task-queue system, which
    rtc_base/task_queue.h and its implementations keep and which is not
    among the sources: the queues that are alive with their pending-task
    channels, what the worker of each queue is running, the entries of the
    delay scheduler, the monotonic clock and the allocator of task
    objects.  The Current-Queue Registry is the domain of [running]. *)
Record World := mkWorld {
  env : Env;
  next_ptr : TaskPtr;
  queues : gmap QueueId (list Item);
  running : gmap QueueId Frame;
  timers : list DelayedEntry;
  next_seq : nat;
  now : nat
}.

Definition set_env (e : Env) (w : World) : World :=
  mkWorld e (next_ptr w) (queues w) (running w) (timers w) (next_seq w)
          (now w).
Definition set_next_ptr (n : TaskPtr) (w : World) : World :=
  mkWorld (env w) n (queues w) (running w) (timers w) (next_seq w) (now w).
Definition set_queues (qs : gmap QueueId (list Item)) (w : World) : World :=
  mkWorld (env w) (next_ptr w) qs (running w) (timers w) (next_seq w)
          (now w).
Definition set_running (fs : gmap QueueId Frame) (w : World) : World :=
  mkWorld (env w) (next_ptr w) (queues w) fs (timers w) (next_seq w) (now w).
Definition set_timers (ts : list DelayedEntry) (w : World) : World :=
  mkWorld (env w) (next_ptr w) (queues w) (running w) ts (next_seq w)
          (now w).
Definition set_next_seq (n : nat) (w : World) : World :=
  mkWorld (env w) (next_ptr w) (queues w) (running w) (timers w) n (now w).
Definition set_now (n : nat) (w : World) : World :=
  mkWorld (env w) (next_ptr w) (queues w) (running w) (timers w)
          (next_seq w) n.

(** The pending tasks of a queue; a queue that is not alive has none. *)
Definition pending (q : QueueId) (w : World) : list Item :=
  default [] (queues w !! q).

(** A world in which the given queues have just been constructed. *)
Definition new_world (e : Env) (qs : list QueueId) : World :=
  mkWorld e 0 (list_to_map ((λ q, (q, [])) <$> qs)) ∅ [] 0 0.

(** *** Steps: state transformers that report what happened *)

Definition Step : Type := World → World * list Event.

Definition skip : Step := λ w, (w, []).

Definition emit (e : Event) : Step := λ w, (w, [e]).

Definition chain (a b : Step) : Step := λ w,
  let '(w1, e1) := a w in
  let '(w2, e2) := b w1 in
  (w2, e1 ++ e2).

Infix ";;;" := chain (at level 62, right associativity).

(** Modelled from the spec: the cleanup callable of a paired closure, as
    invoked on the destruction path of the task. *)
Definition destructor (it : Item) (e : Env) : Env :=
  match it.2 with
  | ClosureTaskWithCleanup _ cleanup => cleanup e
  | _ => e
  end.

Definition deletion (by_ : Owner) (it : Item) : list Event :=
  match it.2 with
  | ClosureTaskWithCleanup _ _ =>
      [Invoked it CleanupCallable; Deleted by_ it]
  | _ => [Deleted by_ it]
  end.

(** Modelled from the spec: destruction of a task object that has not
    run: the cleanup callable of a paired closure is invoked. *)
Definition delete_task (by_ : Owner) (it : Item) : Step := λ w,
  (set_env (destructor it (env w)) w, deletion by_ it).

(** Modelled from the spec: destruction, by its queue, of a task object
    that has run. *)
Definition delete_ran (q : QueueId) (it : Item) : Step :=
  if cleanup_after_run then delete_task (ByQueue q) it
  else emit (Deleted (ByQueue q) it).

(** The thread that executes a statement: the worker of a queue, running a
    task, or a thread that is no worker. *)
Definition Caller : Type := option (QueueId * Item).

(** The object a task reference stands for: a newly allocated task, or
    the task that is running. *)
Definition resolve (ctx : Caller) (t : TaskRef) (w : World)
  : option (Item * World) :=
  match t with
  | New task => Some ((next_ptr w, task), set_next_ptr (S (next_ptr w)) w)
  | This =>
      match ctx with
      | Some (_, it) => Some (it, w)
      | None => None
      end
  end.

(** Modelled from the spec: [TaskQueue::PostTask].  The task is appended
    to the pending-task channel; when the transport is exhausted (or the
    queue is gone) the task is dropped and destroyed. *)
Definition deliver (q : QueueId) (it : Item) : Step := λ w,
  match queues w !! q with
  | Some pend =>
      if decide (length pend < capacity)
      then (set_queues (<[q := pend ++ [it]]> (queues w)) w, [Posted q it])
      else (emit (Dropped q it) ;;; delete_task ByTransport it) w
  | None => (emit (Dropped q it) ;;; delete_task ByTransport it) w
  end.

Definition post_task (ctx : Caller) (q : QueueId) (t : TaskRef)
  : Step := λ w,
  match resolve ctx t w with
  | Some (it, w1) => deliver q it w1
  | None => (w, [])
  end.

(** Modelled from the spec: the Delay Scheduler keeps its entries ordered
    by (fire time, sequence number). *)
Definition entry_before (a b : DelayedEntry) : bool :=
  bool_decide (fire_time a < fire_time b) ||
  (bool_decide (fire_time a = fire_time b) &&
   bool_decide (sequence a < sequence b)).

Fixpoint insert_entry (e : DelayedEntry) (l : list DelayedEntry)
  : list DelayedEntry :=
  match l with
  | [] => [e]
  | x :: rest =>
      if entry_before e x then e :: x :: rest
      else x :: insert_entry e rest
  end.

(** Modelled from the spec: [TaskQueue::PostDelayedTask], that is
    [Schedule(task, delay_ms)] with fire time [now + delay_ms] and the
    next sequence number. *)
Definition schedule (q : QueueId) (it : Item) (delay_ms : nat)
  : Step := λ w,
  let e := mkEntry (now w + delay_ms) (next_seq w) q it in
  (set_next_seq (S (next_seq w)) (set_timers (insert_entry e (timers w)) w),
   [Scheduled q it (fire_time e)]).

Definition post_delayed_task (ctx : Caller) (q : QueueId) (t : TaskRef)
    (delay_ms : nat) : Step := λ w,
  match resolve ctx t w with
  | Some (it, w1) => schedule q it delay_ms w1
  | None => (w, [])
  end.

(** A statement that updates the captured state sees
    [TaskQueue::Current()]. *)
Definition effect (ctx : Caller) (f : option QueueId → Env → Env)
  : Step := λ w, (set_env (f (fst <$> ctx) (env w)) w, []).

Definition exec_stmt (ctx : Caller) (s : Stmt) : Step :=
  match s with
  | Effect f => effect ctx f
  | PostTask q t => post_task ctx q t
  | PostDelayedTask q t d => post_delayed_task ctx q t d
  end.

(** Modelled from the spec: [QueuedTask::Run], the statements it executes
    and its result.  The [Run] of the closure adapter (not among the
    sources) invokes the wrapped callable and returns true; a task of a
    test brings its own [Run]. *)
Definition Run (task : QueuedTask) (e : Env) : list Stmt * bool :=
  match task with
  | ClosureTask closure => (closure, true)
  | ClosureTaskWithCleanup closure _ => (closure, true)
  | CustomTask run => run e
  end.

Definition invocation (it : Item) : list Event :=
  match it.2 with
  | ClosureTask _ | ClosureTaskWithCleanup _ _ => [Invoked it RunCallable]
  | CustomTask _ => []
  end.

(** Modelled from the spec: the worker of a queue starts to run a task:
    it records itself in the Current-Queue Registry and enters [Run].
    What [Run] is going to do is settled by the captured state it finds
    when it is entered. *)
Definition new_frame (it : Item) (e : Env) : Frame :=
  mkFrame it (Run it.2 e).1 (Run it.2 e).2 false.

Definition start_task (q : QueueId) (via : Via) (it : Item) : Step := λ w,
  (set_running (<[q := new_frame it (env w)]> (running w)) w,
   Started q via it :: invocation it).

(** Modelled from the spec: the worker takes the oldest pending task. *)
Definition begin (q : QueueId) : Step := λ w,
  match queues w !! q with
  | Some (it :: rest) =>
      start_task q Immediate it (set_queues (<[q := rest]> (queues w)) w)
  | _ => (w, [])
  end.

(** The worker executes the next statement of the task it runs. *)
Definition advance_frame (fr : Frame) : Frame :=
  mkFrame (frame_task fr) (tail (frame_todo fr)) (frame_result fr)
          (frame_last fr).

Definition proceed (q : QueueId) (fr : Frame) (s : Stmt) : Step := λ w,
  (emit (Executed q (frame_task fr)) ;;;
   exec_stmt (Some (q, frame_task fr)) s)
    (set_running (<[q := advance_frame fr]> (running w)) w).

(** Modelled from the spec: the destructor of a queue.  Pending tasks
    that have not started are discarded, destroyed without running. *)
Fixpoint discard_all (q : QueueId) (its : list Item) : Step :=
  match its with
  | [] => skip
  | it :: rest =>
      emit (Discarded q it) ;;; delete_task (ByQueue q) it ;;;
      discard_all q rest
  end.

Definition teardown (q : QueueId) : Step := λ w,
  match queues w !! q with
  | Some pend => discard_all q pend (set_queues (delete q (queues w)) w)
  | None => (w, [])
  end.

(** Modelled from the spec: [Run] returns.  The worker clears the
    registry and destroys the task or lets go of it according to the
    result; when the destructor of the queue is waiting, the queue is
    torn down. *)
Definition finish (q : QueueId) (fr : Frame) : Step := λ w,
  (emit (Returned q (frame_task fr) (frame_result fr)) ;;;
   (if frame_result fr then delete_ran q (frame_task fr) else skip) ;;;
   (if frame_last fr then teardown q else skip))
    (set_running (delete q (running w)) w).

(** Modelled from the spec: one step of the worker of a queue.  A worker
    that runs a task executes its next statement, or returns from [Run]
    when none is left; an idle worker takes the oldest pending task.
    Between two steps of a worker any other thread may act. *)
Definition worker_step (q : QueueId) : Step := λ w,
  match running w !! q with
  | Some fr =>
      match frame_todo fr with
      | s :: _ => proceed q fr s w
      | [] => finish q fr w
      end
  | None => begin q w
  end.

(** Modelled from the spec: a delayed entry is due when its fire time is
    reached, up to the leeway of the timer. *)
Definition due (w : World) (e : DelayedEntry) : Prop :=
  fire_time e ≤ now w + leeway.

#[export] Instance due_dec w e : Decision (due w e).
Proof. unfold due. apply _. Defined.

(** Modelled from the spec: the first due entry of a queue.  An idle
    worker runs its task; when the queue has been destroyed the delay
    mechanism destroys the task without running it. *)
Definition fire (q : QueueId) : Step := λ w,
  match take_first (λ e, target e = q ∧ due w e) (timers w) with
  | Some (e, rest) =>
      match queues w !! q with
      | Some _ =>
          match running w !! q with
          | None => start_task q Delayed (entry_task e) (set_timers rest w)
          | Some _ => (w, [])
          end
      | None => delete_task ByDelay (entry_task e) (set_timers rest w)
      end
  | None => (w, [])
  end.

(** Modelled from the spec: a delayed task whose queue is destroyed is
    discarded at its fire time or at destruction time, whichever the
    implementation chooses; so the delay mechanism may also dispose of an
    entry of a destroyed queue before it is due. *)
Definition reap (q : QueueId) : Step := λ w,
  match queues w !! q with
  | Some _ => (w, [])
  | None =>
      match take_first (λ e, target e = q) (timers w) with
      | Some (e, rest) =>
          delete_task ByDelay (entry_task e) (set_timers rest w)
      | None => (w, [])
      end
  end.

(** Modelled from the spec: the destructor of a queue is called.  A task
    that is running is allowed to finish: the queue is torn down when it
    returns. *)
Definition mark_last (fr : Frame) : Frame :=
  mkFrame (frame_task fr) (frame_todo fr) (frame_result fr) true.

Definition destroy (q : QueueId) : Step := λ w,
  match running w !! q with
  | Some _ =>
      (set_running (alter mark_last q (running w)) w, [Stopping q])
  | None => teardown q w
  end.

Definition advance (dt : nat) : Step := λ w, (set_now (now w + dt) w, []).

(** Modelled from the spec: what can happen next.  Threads that are not
    workers post tasks and destroy queues, the worker of a queue takes a
    step or turns to a delayed task that is due, the delay mechanism
    disposes of an entry of a destroyed queue, time passes. *)
Inductive Op :=
| OpPostTask (q : QueueId) (task : QueuedTask)
| OpPostDelayedTask (q : QueueId) (task : QueuedTask) (delay_ms : nat)
| OpWorker (q : QueueId)
| OpFire (q : QueueId)
| OpReap (q : QueueId)
| OpDestroy (q : QueueId)
| OpAdvance (dt : nat).

Definition step (o : Op) : Step :=
  match o with
  | OpPostTask q task => post_task None q (New task)
  | OpPostDelayedTask q task d => post_delayed_task None q (New task) d
  | OpWorker q => worker_step q
  | OpFire q => fire q
  | OpReap q => reap q
  | OpDestroy q => destroy q
  | OpAdvance dt => advance dt
  end.

Fixpoint run (ops : list Op) : Step :=
  match ops with
  | [] => skip
  | o :: rest => step o ;;; run rest
  end.

Lemma run_app (ops1 ops2 : list Op) (w : World) :
  run (ops1 ++ ops2) w
  = ((run ops2 (run ops1 w).1).1,
     (run ops1 w).2 ++ (run ops2 (run ops1 w).1).2).
Proof.
  revert w. induction ops1 as [|o rest IH]; intros w.
  - simpl. by destruct (run ops2 w).
  - simpl. unfold chain. destruct (step o w) as [w1 e1].
    rewrite IH. destruct (run rest w1) as [w2 e2]. simpl.
    by rewrite app_assoc.
Qed.

Lemma run_cons (o : Op) (ops : list Op) (w : World) :
  run (o :: ops) w
  = ((run ops (step o w).1).1, (step o w).2 ++ (run ops (step o w).1).2).
Proof.
  cbn [run]. unfold chain. destruct (step o w) as [w1 e1].
  cbn [fst snd]. by destruct (run ops w1).
Qed.

Lemma run_snoc (ops : list Op) (o : Op) (w : World) :
  run (ops ++ [o]) w
  = ((step o (run ops w).1).1, (run ops w).2 ++ (step o (run ops w).1).2).
Proof.
  rewrite run_app. cbn [run]. unfold chain, skip.
  destruct (step o (run ops w).1). cbn [fst snd]. by rewrite app_nil_r.
Qed.

Lemma chain_unfold (a b : Step) (w : World) :
  (a ;;; b) w = ((b (a w).1).1, (a w).2 ++ (b (a w).1).2).
Proof.
  unfold chain. destruct (a w) as [w1 e1]. cbn [fst snd].
  by destruct (b w1).
Qed.

(** The caller of a statement is a thread that is no worker, or the
    worker of a queue with the task it runs. *)
Definition caller_in (ctx : Caller) (w : World) : Prop :=
  match ctx with
  | Some (q, it) => ∃ fr, running w !! q = Some fr ∧ frame_task fr = it
  | None => True
  end.

(** *** Properties of all executions

A relation between the world before, the events and the world after
that every step establishes, and that is closed under sequencing, holds
of every execution. *)
Section Lifting.

Variable R : World → list Event → World → Prop.

Definition respects (s : Step) : Prop := ∀ w, R w (s w).2 (s w).1.

Hypothesis R_skip : ∀ w, R w [] w.
Hypothesis R_seq : ∀ w e1 w1 e2 w2,
  R w e1 w1 → R w1 e2 w2 → R w (e1 ++ e2) w2.

Lemma respects_skip : respects skip.
Proof. intros w. apply R_skip. Qed.

Lemma respects_seq (a b : Step) :
  respects a → respects b → respects (a ;;; b).
Proof.
  intros Ha Hb w. rewrite chain_unfold. simpl.
  eapply R_seq; [apply Ha | apply Hb].
Qed.

Lemma respects_if (b : bool) (s : Step) :
  respects s → respects (if b then s else skip).
Proof. intros Hs. destruct b; [done | apply respects_skip]. Qed.

Section Steps.

Hypothesis R_step : ∀ o, respects (step o).

Theorem respects_run (ops : list Op) : respects (run ops).
Proof.
  induction ops as [|o rest IH]; simpl.
  - apply respects_skip.
  - apply respects_seq; [apply R_step | done].
Qed.

End Steps.

(** A relation that every part of a step establishes is established by
    every step. *)
Section Parts.

Hypothesis R_exec : ∀ ctx s w,
  caller_in ctx w → R w (exec_stmt ctx s w).2 (exec_stmt ctx s w).1.
Hypothesis R_begin : ∀ q w,
  running w !! q = None → R w (begin q w).2 (begin q w).1.
Hypothesis R_executed : ∀ q fr s rest w,
  running w !! q = Some fr → frame_todo fr = s :: rest →
  R w [Executed q (frame_task fr)]
    (set_running (<[q := advance_frame fr]> (running w)) w).
Hypothesis R_finish : ∀ q fr w,
  running w !! q = Some fr → frame_todo fr = [] →
  R w (finish q fr w).2 (finish q fr w).1.
Hypothesis R_fire : ∀ q, respects (fire q).
Hypothesis R_reap : ∀ q, respects (reap q).
Hypothesis R_destroy : ∀ q, respects (destroy q).
Hypothesis R_advance : ∀ dt, respects (advance dt).

Lemma respects_worker_step (q : QueueId) : respects (worker_step q).
Proof.
  intros w. unfold worker_step.
  destruct (running w !! q) as [fr|] eqn:Hfr; [|by apply R_begin].
  destruct (frame_todo fr) as [|s rest] eqn:Htodo; [by apply R_finish|].
  unfold proceed. rewrite chain_unfold. cbn [emit fst snd].
  eapply R_seq; [by eapply R_executed|].
  apply R_exec. simpl. exists (advance_frame fr).
  by rewrite lookup_insert_eq.
Qed.

Lemma respects_step (o : Op) : respects (step o).
Proof.
  destruct o; simpl; auto using respects_worker_step.
  - intros w. by apply (R_exec None (PostTask q (New task))).
  - intros w. by apply (R_exec None (PostDelayedTask q (New task) delay_ms)).
Qed.

Theorem respects_all (ops : list Op) : respects (run ops).
Proof. apply respects_run, respects_step. Qed.

End Parts.

End Lifting.

(** *** What the events say happened

The events of an execution, together with the tasks they name, tell how
the captured state evolved and what every worker was running: a worker
starts a task only when it is idle, it then executes the statements of
the [Run] of that very task, one after the other, and [Run] returns only
when none is left. *)

Definition stmt_effect (q : QueueId) (s : Stmt) (e : Env) : Env :=
  match s with
  | Effect f => f (Some q) e
  | _ => e
  end.

Definition replay_event (ev : Event) (o : Env * gmap QueueId Frame)
  : option (Env * gmap QueueId Frame) :=
  match ev with
  | Started q _ it =>
      match o.2 !! q with
      | None => Some (o.1, <[q := new_frame it o.1]> o.2)
      | Some _ => None
      end
  | Executed q it =>
      match o.2 !! q with
      | Some fr =>
          match frame_todo fr with
          | s :: _ =>
              if decide ((frame_task fr).1 = it.1)
              then Some (stmt_effect q s o.1, <[q := advance_frame fr]> o.2)
              else None
          | [] => None
          end
      | None => None
      end
  | Returned q it r =>
      match o.2 !! q with
      | Some fr =>
          match frame_todo fr with
          | [] =>
              if decide ((frame_task fr).1 = it.1 ∧ frame_result fr = r)
              then Some (o.1, delete q o.2)
              else None
          | _ :: _ => None
          end
      | None => None
      end
  | Invoked it CleanupCallable => Some (destructor it o.1, o.2)
  | Stopping q => Some (o.1, alter mark_last q o.2)
  | _ => Some o
  end.

Fixpoint replay (evs : list Event) (o : Env * gmap QueueId Frame)
  : option (Env * gmap QueueId Frame) :=
  match evs with
  | [] => Some o
  | ev :: rest =>
      match replay_event ev o with
      | Some o' => replay rest o'
      | None => None
      end
  end.

Definition observe (w : World) : Env * gmap QueueId Frame :=
  (env w, running w).

Definition faithful (w : World) (evs : list Event) (w' : World) : Prop :=
  replay evs (observe w) = Some (observe w').

Lemma replay_app (e1 e2 : list Event) (o : Env * gmap QueueId Frame) :
  replay (e1 ++ e2) o
  = match replay e1 o with Some o' => replay e2 o' | None => None end.
Proof.
  revert o. induction e1 as [|ev rest IH]; intros o; [done|].
  simpl. destruct (replay_event ev o); [apply IH | done].
Qed.

Lemma faithful_seq w e1 w1 e2 w2 :
  faithful w e1 w1 → faithful w1 e2 w2 → faithful w (e1 ++ e2) w2.
Proof.
  unfold faithful. intros H1 H2. by rewrite replay_app, H1.
Qed.

Lemma faithful_delete_task by_ it w :
  faithful w (delete_task by_ it w).2 (delete_task by_ it w).1.
Proof.
  unfold faithful, delete_task, deletion, observe.
  by destruct it as [p []].
Qed.

Lemma faithful_deliver q it w :
  faithful w (deliver q it w).2 (deliver q it w).1.
Proof.
  unfold deliver.
  destruct (queues w !! q) as [pend|].
  - destruct (decide (length pend < capacity)); [done|].
    rewrite chain_unfold.
    apply (faithful_seq w [Dropped q it] w); [done|].
    apply faithful_delete_task.
  - rewrite chain_unfold.
    apply (faithful_seq w [Dropped q it] w); [done|].
    apply faithful_delete_task.
Qed.

Lemma faithful_post_task ctx q t w :
  faithful w (post_task ctx q t w).2 (post_task ctx q t w).1.
Proof.
  unfold post_task.
  destruct t as [task|]; simpl.
  - apply (faithful_deliver q (next_ptr w, task)
             (set_next_ptr (S (next_ptr w)) w)).
  - destruct ctx as [[? it]|]; [apply faithful_deliver | done].
Qed.

Lemma faithful_post_delayed_task ctx q t d w :
  faithful w (post_delayed_task ctx q t d w).2
    (post_delayed_task ctx q t d w).1.
Proof.
  unfold post_delayed_task.
  destruct t as [task|]; simpl; [done|].
  by destruct ctx as [[? it]|].
Qed.

Lemma replay_invocation it o : replay (invocation it) o = Some o.
Proof. unfold invocation. by destruct it.2. Qed.

Lemma faithful_start_task q via it w :
  running w !! q = None →
  faithful w (start_task q via it w).2 (start_task q via it w).1.
Proof.
  intros Hidle. unfold faithful, start_task, observe. simpl.
  rewrite Hidle. apply replay_invocation.
Qed.

Lemma faithful_discard_all q its w :
  faithful w (discard_all q its w).2 (discard_all q its w).1.
Proof.
  revert w. induction its as [|it rest IH]; intros w; [done|].
  simpl. rewrite !chain_unfold. cbn [emit fst snd].
  apply (faithful_seq w [Discarded q it] w); [done|].
  eapply faithful_seq; [apply faithful_delete_task | apply IH].
Qed.

Lemma faithful_teardown q w :
  faithful w (teardown q w).2 (teardown q w).1.
Proof.
  unfold teardown. destruct (queues w !! q) as [pend|]; [|done].
  apply (faithful_discard_all q pend (set_queues _ w)).
Qed.

Lemma faithful_delete_ran q it w :
  faithful w (delete_ran q it w).2 (delete_ran q it w).1.
Proof.
  unfold delete_ran. destruct cleanup_after_run; [|done].
  apply faithful_delete_task.
Qed.

Lemma faithful_step (o : Op) : respects faithful (step o).
Proof.
  intros w. destruct o as [q task|q task d|q|q|q|q|dt]; cbn [step].
  - apply faithful_post_task.
  - apply faithful_post_delayed_task.
  - unfold worker_step.
    destruct (running w !! q) as [fr|] eqn:Hfr.
    + destruct (frame_todo fr) as [|s rest] eqn:Htodo.
      * unfold finish. rewrite chain_unfold. cbn [emit fst snd].
        set (w1 := set_running _ w).
        apply (faithful_seq w [Returned q (frame_task fr) (frame_result fr)]
                 w1).
        { unfold faithful, observe. simpl. rewrite Hfr, Htodo.
          by rewrite decide_True. }
        apply (respects_seq faithful faithful_seq _ _) with (w := w1).
        -- apply respects_if; [done|]. intros w'. apply faithful_delete_ran.
        -- apply respects_if; [done|]. intros w'. apply faithful_teardown.
      * unfold proceed. rewrite chain_unfold. cbn [emit fst snd].
        set (w1 := set_running _ w).
        destruct s as [f|q0 t|q0 t d]; simpl.
        -- unfold faithful, observe. simpl. rewrite Hfr, Htodo.
           by rewrite decide_True.
        -- apply (faithful_seq w [Executed q (frame_task fr)] w1).
           { unfold faithful, observe. simpl. rewrite Hfr, Htodo.
             by rewrite decide_True. }
           apply faithful_post_task.
        -- apply (faithful_seq w [Executed q (frame_task fr)] w1).
           { unfold faithful, observe. simpl. rewrite Hfr, Htodo.
             by rewrite decide_True. }
           apply faithful_post_delayed_task.
    + unfold begin. destruct (queues w !! q) as [[|it rest]|]; try done.
      exact (faithful_start_task q Immediate it (set_queues _ w) Hfr).
  - unfold fire.
    destruct (take_first _ (timers w)) as [[e rest]|]; [|done].
    destruct (queues w !! q).
    + destruct (running w !! q) eqn:Hfr; [done|].
      exact (faithful_start_task q Delayed _ (set_timers rest w) Hfr).
    + exact (faithful_delete_task ByDelay _ (set_timers rest w)).
  - unfold reap. destruct (queues w !! q); [done|].
    destruct (take_first _ (timers w)) as [[e rest]|]; [|done].
    exact (faithful_delete_task ByDelay _ (set_timers rest w)).
  - unfold destroy. destruct (running w !! q) eqn:Hfr; [done|].
    apply faithful_teardown.
  - done.
Qed.

(** In every execution the events tell how the captured state evolved
    and what the workers run. *)
Lemma log_faithful (ops : list Op) (w : World) :
  replay (run ops w).2 (observe w) = Some (observe (run ops w).1).
Proof.
  apply (respects_run faithful); [done | apply faithful_seq |].
  apply faithful_step.
Qed.

(** *** The pending-task channel is first in, first out *)

(** The tasks a queue accepted, and the tasks that left its channel
    (started by the worker or discarded by the destructor), in order. *)
Definition accepted (q : QueueId) (evs : list Event) : list Item :=
  omap (λ e, match e with
             | Posted q' it => if decide (q' = q) then Some it else None
             | _ => None
             end) evs.

Definition consumed (q : QueueId) (evs : list Event) : list Item :=
  omap (λ e, match e with
             | Started q' Immediate it | Discarded q' it =>
                 if decide (q' = q) then Some it else None
             | _ => None
             end) evs.

Definition fifo (w : World) (evs : list Event) (w' : World) : Prop :=
  ∀ q, pending q w ++ accepted q evs = consumed q evs ++ pending q w'.

Lemma accepted_app q e1 e2 :
  accepted q (e1 ++ e2) = accepted q e1 ++ accepted q e2.
Proof. apply omap_app. Qed.

Lemma consumed_app q e1 e2 :
  consumed q (e1 ++ e2) = consumed q e1 ++ consumed q e2.
Proof. apply omap_app. Qed.

Lemma accepted_deletion q by_ it : accepted q (deletion by_ it) = [].
Proof. unfold deletion. by destruct it.2. Qed.

Lemma consumed_deletion q by_ it : consumed q (deletion by_ it) = [].
Proof. unfold deletion. by destruct it.2. Qed.

Lemma accepted_invocation q it : accepted q (invocation it) = [].
Proof. unfold invocation. by destruct it.2. Qed.

Lemma consumed_invocation q it : consumed q (invocation it) = [].
Proof. unfold invocation. by destruct it.2. Qed.

Lemma pending_insert q q' its w :
  pending q (set_queues (<[q' := its]> (queues w)) w)
  = if decide (q' = q) then its else pending q w.
Proof.
  unfold pending. simpl. rewrite lookup_insert.
  by destruct (decide (q' = q)).
Qed.

Lemma fifo_same w evs w' :
  queues w' = queues w →
  (∀ q, accepted q evs = []) → (∀ q, consumed q evs = []) →
  fifo w evs w'.
Proof.
  intros Hq Ha Hc q. unfold pending. rewrite Hq, Ha, Hc.
  by rewrite app_nil_r.
Qed.

Lemma fifo_skip w : fifo w [] w.
Proof. by apply fifo_same. Qed.

Lemma fifo_seq w e1 w1 e2 w2 :
  fifo w e1 w1 → fifo w1 e2 w2 → fifo w (e1 ++ e2) w2.
Proof.
  intros H1 H2 q. rewrite accepted_app, consumed_app.
  rewrite app_assoc, H1, <- app_assoc, H2. by rewrite app_assoc.
Qed.

Lemma fifo_delete_task by_ it : respects fifo (delete_task by_ it).
Proof.
  intros w. apply fifo_same; [done|..]; intros q.
  - apply accepted_deletion.
  - apply consumed_deletion.
Qed.

Lemma fifo_deliver q it : respects fifo (deliver q it).
Proof.
  intros w. unfold deliver.
  destruct (queues w !! q) as [pend|] eqn:Hq.
  - destruct (decide (length pend < capacity)); simpl.
    + intros q0. rewrite pending_insert.
      destruct (decide (q = q0)) as [->|Hne]; simpl.
      * rewrite decide_True by done. unfold pending. by rewrite Hq.
      * rewrite decide_False by done. by rewrite app_nil_r.
    + apply fifo_same; [done|..]; intros q0; simpl.
      * apply accepted_deletion.
      * apply consumed_deletion.
  - apply fifo_same; [done|..]; intros q0; simpl.
    + apply accepted_deletion.
    + apply consumed_deletion.
Qed.

Lemma fifo_exec ctx s : respects fifo (exec_stmt ctx s).
Proof.
  intros w. destruct s as [f|q t|q t d]; cbn [exec_stmt].
  - by apply fifo_same.
  - unfold post_task. destruct t as [task|]; simpl.
    + exact (fifo_deliver q (next_ptr w, task) (set_next_ptr _ w)).
    + destruct ctx as [[? it]|]; [apply fifo_deliver | apply fifo_skip].
  - unfold post_delayed_task. destruct t as [task|]; simpl.
    + by apply fifo_same.
    + destruct ctx as [[? it]|]; simpl; by apply fifo_same.
Qed.

Lemma fifo_begin q : respects fifo (begin q).
Proof.
  intros w. unfold begin.
  destruct (queues w !! q) as [[|it rest]|] eqn:Hq; simpl;
    try apply fifo_skip.
  intros q0. unfold pending at 2. simpl. rewrite lookup_insert.
  destruct (decide (q = q0)) as [->|Hne]; simpl;
    rewrite ?decide_True, ?decide_False by done;
    rewrite accepted_invocation, consumed_invocation.
  - unfold pending. rewrite Hq. simpl. by rewrite app_nil_r.
  - by rewrite app_nil_r.
Qed.

Lemma discard_all_queues q its w :
  queues (discard_all q its w).1 = queues w.
Proof.
  revert w. induction its as [|it rest IH]; intros w; [done|].
  simpl. rewrite !chain_unfold. simpl. by rewrite IH.
Qed.

Lemma discard_all_events q its w :
  (discard_all q its w).2
  = its ≫= (λ it, Discarded q it :: deletion (ByQueue q) it).
Proof.
  revert w. induction its as [|it rest IH]; intros w; [done|].
  simpl. rewrite !chain_unfold. simpl. by rewrite IH.
Qed.

Lemma accepted_discards q q0 (its : list Item) :
  accepted q0 (its ≫= (λ it, Discarded q it :: deletion (ByQueue q) it))
  = [].
Proof.
  induction its as [|it rest IH]; [done|].
  rewrite bind_cons. simpl. by rewrite accepted_app, accepted_deletion.
Qed.

Lemma consumed_discards q q0 (its : list Item) :
  consumed q0 (its ≫= (λ it, Discarded q it :: deletion (ByQueue q) it))
  = if decide (q = q0) then its else [].
Proof.
  induction its as [|it rest IH]; [by destruct (decide _)|].
  rewrite bind_cons. simpl.
  rewrite consumed_app, consumed_deletion, IH. simpl.
  by destruct (decide (q = q0)).
Qed.

Lemma fifo_teardown q : respects fifo (teardown q).
Proof.
  intros w. unfold teardown.
  destruct (queues w !! q) as [pend|] eqn:Hq; [|apply fifo_skip].
  intros q0. rewrite discard_all_events.
  unfold pending at 2. rewrite discard_all_queues. simpl.
  rewrite lookup_delete, accepted_discards, consumed_discards, app_nil_r.
  destruct (decide (q = q0)) as [->|Hne]; simpl.
  - rewrite app_nil_r. unfold pending. by rewrite Hq.
  - done.
Qed.

Lemma fifo_delete_ran q it : respects fifo (delete_ran q it).
Proof.
  unfold delete_ran. destruct cleanup_after_run.
  - apply fifo_delete_task.
  - intros w. by apply fifo_same.
Qed.

Lemma fifo_finish q fr : respects fifo (finish q fr).
Proof.
  intros w. unfold finish. rewrite chain_unfold. cbn [emit fst snd].
  set (w1 := set_running _ w).
  apply (fifo_seq w _ w1); [by apply fifo_same|].
  apply (respects_seq fifo fifo_seq).
  - apply respects_if; [apply fifo_skip | apply fifo_delete_ran].
  - apply respects_if; [apply fifo_skip | apply fifo_teardown].
Qed.

Lemma fifo_start_task q via it w w0 :
  queues w0 = queues w → via = Delayed →
  fifo w (start_task q via it w0).2 (start_task q via it w0).1.
Proof.
  intros Hq ->. apply fifo_same; [done|..]; intros q0; simpl.
  - apply accepted_invocation.
  - apply consumed_invocation.
Qed.

Lemma fifo_fire q : respects fifo (fire q).
Proof.
  intros w. unfold fire.
  destruct (take_first _ (timers w)) as [[e rest]|]; [|apply fifo_skip].
  destruct (queues w !! q).
  - destruct (running w !! q); [apply fifo_skip|].
    by apply fifo_start_task.
  - exact (fifo_delete_task ByDelay _ (set_timers rest w)).
Qed.

Lemma fifo_reap q : respects fifo (reap q).
Proof.
  intros w. unfold reap.
  destruct (queues w !! q); [apply fifo_skip|].
  destruct (take_first _ (timers w)) as [[e rest]|]; [|apply fifo_skip].
  exact (fifo_delete_task ByDelay _ (set_timers rest w)).
Qed.

Lemma fifo_destroy q : respects fifo (destroy q).
Proof.
  intros w. unfold destroy.
  destruct (running w !! q); [by apply fifo_same | apply fifo_teardown].
Qed.

(** Every execution keeps the channel of every queue first in, first
    out: the tasks pending before, followed by the tasks accepted on the
    way, are the tasks that left the channel followed by the tasks still
    pending. *)
Lemma fifo_run (ops : list Op) : respects fifo (run ops).
Proof.
  apply respects_all.
  - apply fifo_skip.
  - apply fifo_seq.
  - intros ctx s w _. apply fifo_exec.
  - intros q w _. apply fifo_begin.
  - intros q fr s rest w _ _. by apply fifo_same.
  - intros q fr w _ _. apply fifo_finish.
  - apply fifo_fire.
  - apply fifo_reap.
  - apply fifo_destroy.
  - intros dt w. by apply fifo_same.
Qed.

(** *** One task at a time

What the worker of a queue does, as the events tell it: a task starts
only when the worker is idle, statements are executed and [Run] returns
only for the task that was started. *)
Fixpoint serial (q : QueueId) (busy : option Item) (evs : list Event)
  : Prop :=
  match evs with
  | [] => True
  | Started q' _ it :: rest =>
      if decide (q' = q) then busy = None ∧ serial q (Some it) rest
      else serial q busy rest
  | Executed q' it :: rest =>
      if decide (q' = q) then busy = Some it ∧ serial q busy rest
      else serial q busy rest
  | Returned q' it _ :: rest =>
      if decide (q' = q) then busy = Some it ∧ serial q None rest
      else serial q busy rest
  | _ :: rest => serial q busy rest
  end.

(** The task the worker is left with. *)
Fixpoint busy_after (q : QueueId) (busy : option Item) (evs : list Event)
  : option Item :=
  match evs with
  | [] => busy
  | Started q' _ it :: rest =>
      busy_after q (if decide (q' = q) then Some it else busy) rest
  | Returned q' _ _ :: rest =>
      busy_after q (if decide (q' = q) then None else busy) rest
  | _ :: rest => busy_after q busy rest
  end.

Lemma serial_app q busy e1 e2 :
  serial q busy (e1 ++ e2)
  ↔ serial q busy e1 ∧ serial q (busy_after q busy e1) e2.
Proof.
  revert busy. induction e1 as [|ev rest IH]; intros busy; simpl.
  - tauto.
  - destruct ev; simpl; try apply IH;
      destruct (decide (q0 = q)); rewrite ?IH; tauto.
Qed.

Lemma busy_after_app q busy e1 e2 :
  busy_after q busy (e1 ++ e2) = busy_after q (busy_after q busy e1) e2.
Proof.
  revert busy. induction e1 as [|ev rest IH]; intros busy; [done|].
  destruct ev; simpl; apply IH.
Qed.

Definition busy_with (q : QueueId) (w : World) : option Item :=
  frame_task <$> running w !! q.

Definition one_at_a_time (w : World) (evs : list Event) (w' : World)
  : Prop :=
  ∀ q, serial q (busy_with q w) evs ∧
       busy_after q (busy_with q w) evs = busy_with q w'.

Lemma one_at_a_time_seq w e1 w1 e2 w2 :
  one_at_a_time w e1 w1 → one_at_a_time w1 e2 w2 →
  one_at_a_time w (e1 ++ e2) w2.
Proof.
  intros H1 H2 q. destruct (H1 q) as [Hs1 Hb1], (H2 q) as [Hs2 Hb2].
  rewrite serial_app, busy_after_app, Hb1. done.
Qed.

(** Events that tell nothing about what a worker runs. *)
Definition quiet (e : Event) : Prop :=
  match e with
  | Started _ _ _ | Executed _ _ | Returned _ _ _ => False
  | _ => True
  end.

Lemma serial_quiet q busy evs :
  Forall quiet evs → serial q busy evs ∧ busy_after q busy evs = busy.
Proof.
  induction 1 as [|e evs He _ IH]; [done|].
  destruct e; simpl in *; try done.
Qed.

Lemma one_at_a_time_quiet w evs w' :
  running w' = running w → Forall quiet evs → one_at_a_time w evs w'.
Proof.
  intros Hr Hq q. unfold busy_with. rewrite Hr. by apply serial_quiet.
Qed.

Lemma one_at_a_time_skip w : one_at_a_time w [] w.
Proof. by apply one_at_a_time_quiet. Qed.

Lemma quiet_deletion by_ it : Forall quiet (deletion by_ it).
Proof. unfold deletion. destruct it.2; by repeat constructor. Qed.

Lemma quiet_invocation it : Forall quiet (invocation it).
Proof. unfold invocation. destruct it.2; by repeat constructor. Qed.

Lemma quiet_deliver q it w : Forall quiet (deliver q it w).2.
Proof.
  unfold deliver. destruct (queues w !! q) as [pend|].
  - destruct (decide (length pend < capacity)); simpl.
    + by repeat constructor.
    + constructor; [done | apply quiet_deletion].
  - simpl. constructor; [done | apply quiet_deletion].
Qed.

Lemma deliver_running q it w : running (deliver q it w).1 = running w.
Proof.
  unfold deliver. destruct (queues w !! q) as [pend|]; [|done].
  by destruct (decide (length pend < capacity)).
Qed.

Lemma exec_stmt_quiet ctx s w : Forall quiet (exec_stmt ctx s w).2.
Proof.
  destruct s as [f|q t|q t d]; simpl.
  - constructor.
  - unfold post_task. destruct (resolve ctx t w) as [[it w1]|];
      [apply quiet_deliver | constructor].
  - unfold post_delayed_task. destruct (resolve ctx t w) as [[it w1]|];
      simpl; by repeat constructor.
Qed.

Lemma exec_stmt_running ctx s w :
  running (exec_stmt ctx s w).1 = running w.
Proof.
  destruct s as [f|q t|q t d]; simpl; [done|..].
  - unfold post_task. destruct t as [task|]; simpl.
    + by rewrite deliver_running.
    + destruct ctx as [[? it]|]; [by rewrite deliver_running | done].
  - unfold post_delayed_task. destruct t as [task|]; simpl; [done|].
    by destruct ctx as [[? it]|].
Qed.

Lemma discard_all_quiet q its w : Forall quiet (discard_all q its w).2.
Proof.
  rewrite discard_all_events. induction its as [|it rest IH]; [done|].
  rewrite bind_cons. simpl. constructor; [done|].
  apply Forall_app. split; [apply quiet_deletion | done].
Qed.

Lemma discard_all_running q its w :
  running (discard_all q its w).1 = running w.
Proof.
  revert w. induction its as [|it rest IH]; intros w; [done|].
  simpl. rewrite !chain_unfold. simpl. by rewrite IH.
Qed.

Lemma one_at_a_time_teardown q : respects one_at_a_time (teardown q).
Proof.
  intros w. unfold teardown. destruct (queues w !! q) as [pend|].
  - apply one_at_a_time_quiet.
    + by rewrite discard_all_running.
    + apply discard_all_quiet.
  - by apply one_at_a_time_quiet.
Qed.

Lemma one_at_a_time_start_task q via it w :
  running w !! q = None →
  one_at_a_time w (start_task q via it w).2 (start_task q via it w).1.
Proof.
  intros Hidle q0. unfold start_task, busy_with. simpl.
  rewrite lookup_insert.
  destruct (decide (q = q0)) as [->|Hne]; simpl.
  - rewrite Hidle. simpl.
    destruct (serial_quiet q0 (Some it) _ (quiet_invocation it)) as [Hs Hb].
    rewrite Hb. done.
  - destruct (serial_quiet q0 (frame_task <$> running w !! q0) _
                (quiet_invocation it)) as [Hs Hb].
    rewrite Hb. done.
Qed.

Lemma one_at_a_time_step (o : Op) : respects one_at_a_time (step o).
Proof.
  intros w. destruct o as [q task|q task d|q|q|q|q|dt]; cbn [step].
  - apply one_at_a_time_quiet;
      [exact (exec_stmt_running None (PostTask q (New task)) w)
      |exact (exec_stmt_quiet None (PostTask q (New task)) w)].
  - apply one_at_a_time_quiet;
      [exact (exec_stmt_running None (PostDelayedTask q (New task) d) w)
      |exact (exec_stmt_quiet None (PostDelayedTask q (New task) d) w)].
  - unfold worker_step.
    destruct (running w !! q) as [fr|] eqn:Hfr.
    + destruct (frame_todo fr) as [|s rest] eqn:Htodo.
      * unfold finish. rewrite chain_unfold. cbn [emit fst snd].
        set (w1 := set_running _ w).
        apply (one_at_a_time_seq w _ w1).
        { intros q0. unfold busy_with, w1. simpl. rewrite lookup_delete.
          destruct (decide (q = q0)) as [->|Hne]; simpl.
          - by rewrite Hfr.
          - done. }
        apply (respects_seq one_at_a_time one_at_a_time_seq).
        -- apply respects_if; [apply one_at_a_time_skip|].
           intros w'. unfold delete_ran. destruct cleanup_after_run.
           ++ apply one_at_a_time_quiet; [done | apply quiet_deletion].
           ++ apply one_at_a_time_quiet; [done | by repeat constructor].
        -- apply respects_if; [apply one_at_a_time_skip|].
           apply one_at_a_time_teardown.
      * unfold proceed. rewrite chain_unfold. cbn [emit fst snd].
        set (w1 := set_running _ w).
        apply (one_at_a_time_seq w _ w1).
        { intros q0. unfold busy_with, w1. simpl. rewrite lookup_insert.
          destruct (decide (q = q0)) as [->|Hne]; simpl.
          - by rewrite Hfr.
          - done. }
        apply one_at_a_time_quiet;
          [apply exec_stmt_running | apply exec_stmt_quiet].
    + unfold begin. destruct (queues w !! q) as [[|it rest]|];
        try by apply one_at_a_time_quiet.
      exact (one_at_a_time_start_task q Immediate it (set_queues _ w) Hfr).
  - unfold fire.
    destruct (take_first _ (timers w)) as [[e rest]|];
      [|by apply one_at_a_time_quiet].
    destruct (queues w !! q).
    + destruct (running w !! q) eqn:Hfr; [by apply one_at_a_time_quiet|].
      exact (one_at_a_time_start_task q Delayed _ (set_timers rest w) Hfr).
    + apply one_at_a_time_quiet; [done | apply quiet_deletion].
  - unfold reap. destruct (queues w !! q); [by apply one_at_a_time_quiet|].
    destruct (take_first _ (timers w)) as [[e rest]|];
      [|by apply one_at_a_time_quiet].
    apply one_at_a_time_quiet; [done | apply quiet_deletion].
  - unfold destroy. destruct (running w !! q) eqn:Hfr.
    + intros q0. unfold busy_with. simpl. rewrite lookup_alter.
      destruct (decide (q = q0)) as [->|Hne]; simpl.
      * rewrite Hfr. done.
      * done.
    + apply one_at_a_time_teardown.
  - by apply one_at_a_time_quiet.
Qed.

(** In every execution the worker of a queue runs one task at a time. *)
Lemma one_at_a_time_run (ops : list Op) : respects one_at_a_time (run ops).
Proof.
  apply (respects_run one_at_a_time).
  - apply one_at_a_time_skip.
  - apply one_at_a_time_seq.
  - apply one_at_a_time_step.
Qed.

(** *** A task from start to end

What a worker does with a task when it is looked at as a whole: the
statements of the body, one after the other, then the return. *)
Fixpoint exec (q : QueueId) (it : Item) (body : list Stmt) : Step :=
  match body with
  | [] => skip
  | s :: rest =>
      emit (Executed q it) ;;; exec_stmt (Some (q, it)) s ;;; exec q it rest
  end.

Definition complete (q : QueueId) (fr : Frame) : Step :=
  exec q (frame_task fr) (frame_todo fr) ;;; finish q fr.

(** What a step does is the same whatever the workers are running. *)
Definition blind (s : Step) : Prop :=
  ∀ fs w, s (set_running fs w) = (set_running fs (s w).1, (s w).2).

Lemma blind_skip : blind skip.
Proof. done. Qed.

Lemma blind_emit e : blind (emit e).
Proof. done. Qed.

Lemma blind_chain a b : blind a → blind b → blind (a ;;; b).
Proof.
  intros Ha Hb fs w. rewrite !chain_unfold, Ha. cbn [fst snd].
  by rewrite Hb.
Qed.

Lemma blind_if (c : bool) a b : blind a → blind b → blind (if c then a else b).
Proof. by destruct c. Qed.

Lemma blind_delete_task by_ it : blind (delete_task by_ it).
Proof. done. Qed.

Lemma blind_deliver q it : blind (deliver q it).
Proof.
  intros fs w. unfold deliver. simpl.
  destruct (queues w !! q) as [pend|]; [|done].
  by destruct (decide (length pend < capacity)).
Qed.

Lemma blind_exec_stmt ctx s : blind (exec_stmt ctx s).
Proof.
  intros fs w. destruct s as [f|q t|q t d]; simpl; [done|..].
  - unfold post_task. destruct t as [task|]; simpl.
    + apply (blind_deliver q (next_ptr w, task) fs
               (set_next_ptr (S (next_ptr w)) w)).
    + destruct ctx as [[? it]|]; [apply blind_deliver | done].
  - unfold post_delayed_task. destruct t as [task|]; simpl; [done|].
    by destruct ctx as [[? it]|].
Qed.

Lemma blind_exec q it body : blind (exec q it body).
Proof.
  induction body as [|s rest IH]; [done|].
  simpl. apply blind_chain; [apply blind_emit|].
  apply blind_chain; [apply blind_exec_stmt | done].
Qed.

Lemma blind_discard_all q its : blind (discard_all q its).
Proof.
  induction its as [|it rest IH]; [done|].
  simpl. apply blind_chain; [apply blind_emit|].
  apply blind_chain; [apply blind_delete_task | done].
Qed.

Lemma blind_teardown q : blind (teardown q).
Proof.
  intros fs w. unfold teardown. simpl.
  destruct (queues w !! q) as [pend|]; [|done].
  apply (blind_discard_all q pend fs (set_queues _ w)).
Qed.

Lemma blind_delete_ran q it : blind (delete_ran q it).
Proof.
  unfold delete_ran. destruct cleanup_after_run;
    [apply blind_delete_task | apply blind_emit].
Qed.

Lemma exec_running q it body w :
  running (exec q it body w).1 = running w.
Proof.
  revert w. induction body as [|s rest IH]; intros w; [done|].
  simpl. rewrite !chain_unfold. cbn [emit fst snd].
  by rewrite IH, exec_stmt_running.
Qed.

(** The part of [finish] that does not concern the registry. *)
Definition leave (q : QueueId) (fr : Frame) : Step :=
  emit (Returned q (frame_task fr) (frame_result fr)) ;;;
  (if frame_result fr then delete_ran q (frame_task fr) else skip) ;;;
  (if frame_last fr then teardown q else skip).

Lemma blind_leave q fr : blind (leave q fr).
Proof.
  apply blind_chain; [apply blind_emit|].
  apply blind_chain; apply blind_if;
    auto using blind_skip, blind_delete_ran, blind_teardown.
Qed.

Lemma finish_leave q fr w :
  finish q fr w = leave q fr (set_running (delete q (running w)) w).
Proof. done. Qed.

Lemma leave_running q fr w : running (leave q fr w).1 = running w.
Proof.
  pose proof (blind_leave q fr (running w) w) as H.
  replace (set_running (running w) w) with w in H by (by destruct w).
  rewrite H at 1. done.
Qed.

(** A worker that is left alone takes as many steps as the task has
    statements left, and one more, to get through the task it runs. *)
Lemma worker_completes (q : QueueId) (w : World) (fr : Frame) :
  running w !! q = Some fr →
  run (replicate (S (length (frame_todo fr))) (OpWorker q)) w
  = complete q fr w.
Proof.
  remember (frame_todo fr) as todo eqn:Htodo.
  revert w fr Htodo. induction todo as [|s rest IH]; intros w fr Htodo Hfr.
  - cbn [length replicate]. rewrite run_cons. cbn [run step skip fst snd].
    unfold worker_step, complete. rewrite Hfr, <- Htodo.
    cbn [exec]. rewrite chain_unfold. cbn [skip fst snd].
    by rewrite app_nil_r.
  - change (replicate (S (length (s :: rest))) (OpWorker q))
      with (OpWorker q :: replicate (S (length rest)) (OpWorker q)).
    set (w0 := set_running (<[q := advance_frame fr]> (running w)) w).
    set (w1 := (exec_stmt (Some (q, frame_task fr)) s w0).1).
    assert (Hstep : step (OpWorker q) w
              = (w1, Executed q (frame_task fr)
                       :: (exec_stmt (Some (q, frame_task fr)) s w0).2)).
    { cbn [step]. unfold worker_step. rewrite Hfr, <- Htodo.
      unfold proceed. by rewrite chain_unfold. }
    rewrite run_cons, Hstep. cbn [fst snd].
    assert (Hrest : rest = frame_todo (advance_frame fr))
      by (simpl; by rewrite <- Htodo).
    assert (Hfr1 : running w1 !! q = Some (advance_frame fr)).
    { unfold w1. rewrite exec_stmt_running. simpl. apply lookup_insert_eq. }
    rewrite (IH w1 (advance_frame fr) Hrest Hfr1).
    unfold complete. rewrite <- Htodo. cbn [frame_todo advance_frame].
    rewrite <- Htodo. cbn [tail exec frame_task].
    rewrite !chain_unfold. cbn [emit fst snd].
    unfold w1, w0.
    rewrite !(blind_exec_stmt _ s _ w). cbn [fst snd].
    set (w2 := (exec_stmt (Some (q, frame_task fr)) s w).1).
    rewrite !(blind_exec q _ rest _ w2). cbn [fst snd].
    rewrite !finish_leave. cbn [running set_running].
    rewrite exec_running, delete_insert_eq.
    assert (Hw2 : running w2 = running w) by apply exec_stmt_running.
    rewrite Hw2, <- !app_assoc. cbn [app]. reflexivity.
Qed.

Lemma worker_begins (q : QueueId) (w : World) (it : Item)
    (rest : list Item) :
  running w !! q = None → queues w !! q = Some (it :: rest) →
  step (OpWorker q) w
  = (set_running (<[q := new_frame it (env w)]> (running w))
       (set_queues (<[q := rest]> (queues w)) w),
     Started q Immediate it :: invocation it).
Proof.
  intros Hidle Hq. cbn [step]. unfold worker_step, begin.
  by rewrite Hidle, Hq.
Qed.

(** An idle worker that is left alone takes the oldest pending task and
    gets through it. *)
Lemma worker_runs_task (q : QueueId) (w : World) (it : Item)
    (rest : list Item) :
  running w !! q = None → queues w !! q = Some (it :: rest) →
  run (replicate (S (S (length (Run it.2 (env w)).1))) (OpWorker q)) w
  = (begin q ;;; complete q (new_frame it (env w))) w.
Proof.
  intros Hidle Hq.
  change (replicate (S (S (length (Run it.2 (env w)).1))) (OpWorker q))
    with (OpWorker q
            :: replicate (S (length (frame_todo (new_frame it (env w)))))
                 (OpWorker q)).
  rewrite run_cons, (worker_begins q w it rest Hidle Hq). cbn [fst snd].
  set (w1 := set_running _ _).
  rewrite (worker_completes q w1 (new_frame it (env w)))
    by (simpl; apply lookup_insert_eq).
  rewrite chain_unfold. unfold begin. rewrite Hq. done.
Qed.

(** *** A queue that let go of a task keeps its hands off it *)

Lemma elem_of_insert_entry (x e : DelayedEntry) (l : list DelayedEntry) :
  x ∈ insert_entry e l ↔ x = e ∨ x ∈ l.
Proof.
  induction l as [|y rest IH]; simpl.
  - rewrite list_elem_of_singleton. set_solver.
  - destruct (entry_before e y).
    + by rewrite elem_of_cons.
    + rewrite !elem_of_cons, IH. naive_solver.
Qed.

Ltac each_event :=
  repeat first
    [ apply Forall_nil_2
    | apply Forall_cons_2; [simpl; try tauto; naive_solver|] ].

Section HandsOff.

Variable q : QueueId.
Variable p : TaskPtr.

(** The queue refers to the task: in its channel, in a delayed entry on
    its behalf, or as the task its worker is running. *)
Definition in_channel (w : World) : Prop := p ∈ (pending q w).*1.

Definition in_timers (w : World) : Prop :=
  ∃ e, e ∈ timers w ∧ target e = q ∧ (entry_task e).1 = p.

Definition in_frame (w : World) : Prop :=
  ∃ fr, running w !! q = Some fr ∧ (frame_task fr).1 = p.

Definition owns (w : World) : Prop :=
  in_channel w ∨ in_timers w ∨ in_frame w.

(** The queue holds the task at most as the task its worker is running,
    and then [Run] is going to return false. *)
Definition loose (w : World) : Prop :=
  ¬ in_channel w ∧ ¬ in_timers w ∧
  ∀ fr, running w !! q = Some fr → (frame_task fr).1 = p →
        frame_result fr = false.

(** The task is handed to the queue. *)
Definition hands_over (e : Event) : Prop :=
  match e with
  | Posted q' it | Scheduled q' it _ => q' = q ∧ it.1 = p
  | _ => False
  end.

(** The queue takes the task up, or destroys it. *)
Definition grabs (e : Event) : Prop :=
  match e with
  | Started q' _ it | Discarded q' it => q' = q ∧ it.1 = p
  | Returned q' it r => q' = q ∧ it.1 = p ∧ r = true
  | Deleted by_ it => by_ = ByQueue q ∧ it.1 = p
  | _ => False
  end.

(** The queue does anything at all with the task. *)
Definition touches (e : Event) : Prop :=
  match e with
  | Started q' _ it | Executed q' it | Returned q' it _
  | Discarded q' it => q' = q ∧ it.1 = p
  | Deleted by_ it => by_ = ByQueue q ∧ it.1 = p
  | _ => False
  end.

Definition let_go (w : World) (evs : list Event) (w' : World) : Prop :=
  loose w → Forall (λ e, ¬ hands_over e) evs →
  loose w' ∧ Forall (λ e, ¬ grabs e) evs ∧
  (¬ in_frame w → ¬ in_frame w' ∧ Forall (λ e, ¬ touches e) evs).

Lemma grabs_touches e : grabs e → touches e.
Proof. destruct e; simpl; tauto. Qed.

Lemma let_go_quietly w evs w' :
  queues w' = queues w → timers w' = timers w → running w' = running w →
  Forall (λ e, ¬ touches e) evs → let_go w evs w'.
Proof.
  intros Hq Ht Hr Hev Hloose _.
  unfold loose, in_channel, in_timers, in_frame, pending in *.
  rewrite Hq, Ht, Hr. split; [done|]. split; [|done].
  eapply Forall_impl; [done|]. intros e He Hg. by apply He, grabs_touches.
Qed.

Lemma let_go_skip w : let_go w [] w.
Proof. by apply let_go_quietly. Qed.

Lemma let_go_seq w e1 w1 e2 w2 :
  let_go w e1 w1 → let_go w1 e2 w2 → let_go w (e1 ++ e2) w2.
Proof.
  intros H1 H2 Hloose Hre. apply Forall_app in Hre as [Hr1 Hr2].
  destruct (H1 Hloose Hr1) as (Hl1 & Hg1 & Hf1).
  destruct (H2 Hl1 Hr2) as (Hl2 & Hg2 & Hf2).
  split; [done|]. split; [by apply Forall_app|].
  intros Hno. destruct (Hf1 Hno) as [Hno1 Ht1].
  destruct (Hf2 Hno1) as [Hno2 Ht2].
  split; [done | by apply Forall_app].
Qed.

Lemma untouched_deletion by_ it :
  by_ ≠ ByQueue q ∨ it.1 ≠ p →
  Forall (λ e, ¬ touches e) (deletion by_ it).
Proof.
  intros H. unfold deletion.
  destruct it.2; repeat constructor; simpl; tauto.
Qed.

Lemma untouched_invocation it :
  Forall (λ e, ¬ touches e) (invocation it).
Proof.
  unfold invocation. destruct it.2; repeat constructor; simpl; tauto.
Qed.

Lemma deletion_no_handover by_ it :
  Forall (λ e, ¬ hands_over e) (deletion by_ it).
Proof. unfold deletion. destruct it.2; each_event. Qed.

Lemma let_go_delete_task by_ it :
  by_ ≠ ByQueue q ∨ it.1 ≠ p → respects let_go (delete_task by_ it).
Proof.
  intros H w. apply let_go_quietly; try done. by apply untouched_deletion.
Qed.

Lemma let_go_deliver q0 it : respects let_go (deliver q0 it).
Proof.
  intros w. unfold deliver.
  destruct (queues w !! q0) as [pend|] eqn:Hq0.
  - destruct (decide (length pend < capacity)).
    + cbn [fst snd]. intros (Hc & Ht & Hf) Hre.
      rewrite Forall_singleton in Hre. simpl in Hre.
      split; [|split].
      * split; [|done]. unfold in_channel. rewrite pending_insert.
        destruct (decide (q0 = q)) as [->|Hne]; [|done].
        rewrite fmap_app, elem_of_app. simpl.
        rewrite list_elem_of_singleton.
        unfold in_channel, pending in Hc. rewrite Hq0 in Hc. simpl in Hc.
        naive_solver.
      * each_event.
      * intros Hno. split; [done|]. each_event.
    + rewrite chain_unfold. cbn [emit fst snd].
      apply (let_go_seq w [Dropped q0 it] w).
      * apply let_go_quietly; try done. each_event.
      * apply let_go_delete_task. by left.
  - rewrite chain_unfold. cbn [emit fst snd].
    apply (let_go_seq w [Dropped q0 it] w).
    + apply let_go_quietly; try done. each_event.
    + apply let_go_delete_task. by left.
Qed.

Lemma let_go_schedule q0 it d : respects let_go (schedule q0 it d).
Proof.
  intros w (Hc & Ht & Hf) Hre. simpl in *.
  rewrite Forall_singleton in Hre. simpl in Hre.
  split; [|split].
  - split; [done|]. split; [|done].
    intros (e & He & Htg & Hp). simpl in He.
    apply elem_of_insert_entry in He as [->|He]; [simpl in *; tauto|].
    apply Ht. by exists e.
  - each_event.
  - intros Hno. split; [done|]. each_event.
Qed.

Lemma let_go_alloc w evs w' :
  let_go (set_next_ptr (S (next_ptr w)) w) evs w' → let_go w evs w'.
Proof. done. Qed.

Lemma let_go_exec ctx s : respects let_go (exec_stmt ctx s).
Proof.
  intros w. destruct s as [f|q0 t|q0 t d]; cbn [exec_stmt].
  - by apply let_go_quietly.
  - unfold post_task. destruct t as [task|]; simpl.
    + apply let_go_alloc. apply let_go_deliver.
    + destruct ctx as [[? it]|]; [apply let_go_deliver | apply let_go_skip].
  - unfold post_delayed_task. destruct t as [task|]; cbn [resolve].
    + apply let_go_alloc. apply let_go_schedule.
    + destruct ctx as [[? it]|]; [apply let_go_schedule | apply let_go_skip].
Qed.

Lemma let_go_start_task q0 via it w w0 :
  running w0 = running w →
  (loose w → q0 = q → it.1 ≠ p) →
  (loose w → loose w0) →
  let_go w (start_task q0 via it w0).2 (start_task q0 via it w0).1.
Proof.
  intros Hr Hp' Hl Hloose _. destruct (Hl Hloose) as (Hc & Ht & Hf).
  specialize (Hp' Hloose). rename Hp' into Hp.
  simpl. split; [|split].
  - split; [done|]. split; [done|].
    intros fr. simpl. rewrite lookup_insert.
    destruct (decide (q0 = q)) as [Heq|Hne]; [|apply Hf].
    intros [= <-]. simpl. intros ?. by destruct (Hp Heq).
  - constructor; [simpl; naive_solver|].
    eapply Forall_impl; [apply untouched_invocation|].
    intros e He Hg. by apply He, grabs_touches.
  - intros Hno. split.
    + intros (fr & Hfr & Hpp). simpl in Hfr. rewrite lookup_insert in Hfr.
      destruct (decide (q0 = q)) as [Heq|Hne].
      * injection Hfr as <-. simpl in Hpp. by destruct (Hp Heq).
      * apply Hno. exists fr. by rewrite <- Hr.
    + constructor; [simpl; naive_solver | apply untouched_invocation].
Qed.

Lemma let_go_begin q0 : respects let_go (begin q0).
Proof.
  intros w. unfold begin.
  destruct (queues w !! q0) as [[|it rest]|] eqn:Hq0;
    try apply let_go_skip.
  assert (Hp : loose w → q0 = q → it.1 ≠ p ∧ p ∉ rest.*1).
  { intros Hloose ->. destruct Hloose as (Hc & _).
    unfold in_channel, pending in Hc. rewrite Hq0 in Hc. simpl in Hc.
    rewrite elem_of_cons in Hc. naive_solver. }
  apply let_go_start_task; [done | naive_solver|].
  intros Hloose. specialize (Hp Hloose). destruct Hloose as (Hc & Ht & Hf).
  split; [|done].
  unfold in_channel. rewrite pending_insert.
  destruct (decide (q0 = q)); naive_solver.
Qed.

Lemma discard_all_timers q0 its w :
  timers (discard_all q0 its w).1 = timers w.
Proof.
  revert w. induction its as [|it rest IH]; intros w; [done|].
  simpl. rewrite !chain_unfold. simpl. by rewrite IH.
Qed.

Lemma let_go_teardown q0 : respects let_go (teardown q0).
Proof.
  intros w. unfold teardown.
  destruct (queues w !! q0) as [pend|] eqn:Hq0; [|apply let_go_skip].
  intros (Hc & Ht & Hf) _.
  assert (Hp : q0 = q → p ∉ pend.*1).
  { intros ->. unfold in_channel, pending in Hc. by rewrite Hq0 in Hc. }
  assert (Hev : Forall (λ e, ¬ touches e)
            (discard_all q0 pend
               (set_queues (delete q0 (queues w)) w)).2).
  { rewrite discard_all_events. clear -Hp.
    induction pend as [|it rest IH]; [done|].
    rewrite bind_cons. simpl.
    assert (q0 = q → it.1 ≠ p ∧ p ∉ rest.*1).
    { intros Hq. specialize (Hp Hq). simpl in Hp.
      rewrite elem_of_cons in Hp. naive_solver. }
    constructor; [simpl; naive_solver|].
    apply Forall_app. split; [|apply IH; naive_solver].
    apply untouched_deletion.
    destruct (decide (q0 = q)) as [Heq|Hne]; [right; naive_solver|left].
    congruence. }
  split; [|split].
  - unfold loose, in_channel, in_timers, pending.
    rewrite discard_all_queues, discard_all_timers, discard_all_running.
    simpl. rewrite lookup_delete.
    split; [|done].
    destruct (decide (q0 = q)) as [->|Hne]; simpl.
    + apply not_elem_of_nil.
    + done.
  - eapply Forall_impl; [done|]. intros e He Hg. by apply He, grabs_touches.
  - intros Hno. split; [|done].
    unfold in_frame. by rewrite discard_all_running.
Qed.

Lemma let_go_delete_ran q0 it :
  q0 ≠ q ∨ it.1 ≠ p → respects let_go (delete_ran q0 it).
Proof.
  intros Hp. unfold delete_ran. destruct cleanup_after_run.
  - apply let_go_delete_task. destruct Hp; [left; congruence | by right].
  - intros w. apply let_go_quietly; try done.
    repeat constructor. simpl. intros [[= ->] ?]. tauto.
Qed.

Lemma let_go_finish q0 fr w :
  running w !! q0 = Some fr → frame_todo fr = [] →
  let_go w (finish q0 fr w).2 (finish q0 fr w).1.
Proof.
  intros Hfr Htodo. unfold finish. rewrite chain_unfold.
  cbn [emit fst snd]. set (w1 := set_running _ w).
  intros Hloose.
  assert (Hres : q0 = q → (frame_task fr).1 = p → frame_result fr = false).
  { intros -> Hp. destruct Hloose as (_ & _ & Hf). by apply Hf. }
  revert Hloose. apply (let_go_seq w _ w1).
  { intros (Hc & Ht & Hf) _. split; [|split].
    - split; [done|]. split; [done|]. intros fr'. unfold w1. simpl.
      rewrite lookup_delete. destruct (decide (q0 = q)); [done | apply Hf].
    - constructor; [|done]. simpl. intros (-> & Hp & Hr).
      rewrite Hres in Hr by done. done.
    - intros Hno. split.
      + intros (fr' & Hfr' & Hp). unfold w1 in Hfr'. simpl in Hfr'.
        rewrite lookup_delete in Hfr'.
        destruct (decide (q0 = q)); [done|]. apply Hno. by exists fr'.
      + constructor; [|done]. simpl. intros (-> & Hp).
        apply Hno. by exists fr. }
  apply (respects_seq let_go let_go_seq).
  - destruct (frame_result fr) eqn:Hr; [|intros ?; apply let_go_skip].
    apply let_go_delete_ran.
    destruct (decide (q0 = q)) as [->|Hne]; [right|by left].
    intros Hp. by specialize (Hres eq_refl Hp).
  - apply respects_if; [apply let_go_skip | apply let_go_teardown].
Qed.

Lemma let_go_fire q0 : respects let_go (fire q0).
Proof.
  intros w. unfold fire.
  destruct (take_first _ (timers w)) as [[e rest]|] eqn:Htf;
    [|apply let_go_skip].
  pose proof (take_first_Some _ _ _ _ Htf) as ((Htg & _) & _ & _).
  apply take_first_elem in Htf as [He Hin].
  assert (Hrest : loose w → loose (set_timers rest w)).
  { intros (Hc & Ht & Hf). split; [done|]. split; [|done].
    intros (e' & He' & ?). apply Ht. exists e'. split; [|done].
    apply Hin. by right. }
  assert (Hp : loose w → q0 = q → (entry_task e).1 ≠ p).
  { intros Hloose Heq Hp. destruct Hloose as (_ & Ht & _).
    apply Ht. exists e. split; [done|]. split; [congruence | done]. }
  destruct (queues w !! q0).
  - destruct (running w !! q0) eqn:Hfr; [by apply let_go_skip|].
    by apply let_go_start_task.
  - assert (Hbd : ByDelay ≠ ByQueue q ∨ (entry_task e).1 ≠ p) by (by left).
    intros Hloose _.
    exact (let_go_delete_task ByDelay (entry_task e) Hbd (set_timers rest w)
             (Hrest Hloose) (deletion_no_handover _ _)).
Qed.

Lemma let_go_reap q0 : respects let_go (reap q0).
Proof.
  intros w. unfold reap.
  destruct (queues w !! q0); [apply let_go_skip|].
  destruct (take_first _ (timers w)) as [[e rest]|] eqn:Htf;
    [|apply let_go_skip].
  apply take_first_elem in Htf as [He Hin].
  intros Hloose _.
  assert (Hrest : loose (set_timers rest w)).
  { destruct Hloose as (Hc & Ht & Hf). split; [done|]. split; [|done].
    intros (e' & He' & ?). apply Ht. exists e'. split; [|done].
    apply Hin. by right. }
  assert (Hbd : ByDelay ≠ ByQueue q ∨ (entry_task e).1 ≠ p) by (by left).
  exact (let_go_delete_task ByDelay (entry_task e) Hbd (set_timers rest w)
           Hrest (deletion_no_handover _ _)).
Qed.

Lemma let_go_destroy q0 : respects let_go (destroy q0).
Proof.
  intros w. unfold destroy.
  destruct (running w !! q0) as [fr|] eqn:Hfr; [|apply let_go_teardown].
  intros (Hc & Ht & Hf) _. simpl. split; [|split].
  - split; [done|]. split; [done|]. intros fr'. simpl.
    rewrite lookup_alter. destruct (decide (q0 = q)) as [->|Hne].
    + rewrite Hfr. simpl. intros [= <-]. simpl. by apply Hf.
    + apply Hf.
  - each_event.
  - intros Hno. split; [|each_event].
    intros (fr' & Hfr' & Hp). simpl in Hfr'. rewrite lookup_alter in Hfr'.
    destruct (decide (q0 = q)) as [->|Hne].
    + rewrite Hfr in Hfr'. simpl in Hfr'. injection Hfr' as <-.
      apply Hno. by exists fr.
    + apply Hno. by exists fr'.
Qed.

(** As long as nobody hands the task to the queue, the queue does not
    take it up or destroy it, and once the queue does not run it either,
    the queue does not touch it. *)
Lemma let_go_run (ops : list Op) : respects let_go (run ops).
Proof.
  apply respects_all.
  - apply let_go_skip.
  - apply let_go_seq.
  - intros ctx s w _. apply let_go_exec.
  - intros q0 w _. apply let_go_begin.
  - intros q0 fr s rest w Hfr Htodo (Hc & Ht & Hf) _. split; [|split].
    + split; [done|]. split; [done|]. intros fr'. simpl.
      rewrite lookup_insert. destruct (decide (q0 = q)) as [->|Hne].
      * intros [= <-]. simpl. by apply Hf.
      * apply Hf.
    + each_event.
    + intros Hno. split.
      * intros (fr' & Hfr' & Hp). simpl in Hfr'.
        rewrite lookup_insert in Hfr'.
        destruct (decide (q0 = q)) as [->|Hne].
        -- injection Hfr' as <-. apply Hno. by exists fr.
        -- apply Hno. by exists fr'.
      * constructor; [|done]. simpl. intros (-> & Hp).
        apply Hno. by exists fr.
  - apply let_go_finish.
  - apply let_go_fire.
  - apply let_go_reap.
  - apply let_go_destroy.
  - intros dt w. by apply let_go_quietly.
Qed.

End HandsOff.

(** *** A task that is handed to another queue *)

(** Posting never removes a task from a channel, nor a queue. *)
Lemma deliver_alive q0 it w q pend :
  queues w !! q = Some pend →
  ∃ new, queues (deliver q0 it w).1 !! q = Some (pend ++ new).
Proof.
  intros Hq. unfold deliver.
  destruct (queues w !! q0) as [pend0|] eqn:Hq0.
  - destruct (decide (length pend0 < capacity)); simpl.
    + destruct (decide (q0 = q)) as [->|Hne].
      * exists [it]. rewrite lookup_insert_eq. congruence.
      * exists []. rewrite lookup_insert_ne by done. by rewrite app_nil_r.
    + exists []. by rewrite app_nil_r.
  - exists []. simpl. by rewrite app_nil_r.
Qed.

Lemma exec_stmt_alive ctx s w q pend :
  queues w !! q = Some pend →
  ∃ new, queues (exec_stmt ctx s w).1 !! q = Some (pend ++ new).
Proof.
  intros Hq. destruct s as [f|q0 t|q0 t d]; simpl.
  - exists []. by rewrite app_nil_r.
  - unfold post_task. destruct t as [task|]; simpl.
    + by apply deliver_alive.
    + destruct ctx as [[? it]|]; [by apply deliver_alive|].
      exists []. by rewrite app_nil_r.
  - unfold post_delayed_task. destruct t as [task|]; simpl.
    + exists []. by rewrite app_nil_r.
    + destruct ctx as [[? it]|]; exists []; simpl; by rewrite app_nil_r.
Qed.

Lemma exec_alive q0 it body w q pend :
  queues w !! q = Some pend →
  ∃ new, queues (exec q0 it body w).1 !! q = Some (pend ++ new).
Proof.
  revert w pend. induction body as [|s rest IH]; intros w pend Hq; simpl.
  - exists []. by rewrite app_nil_r.
  - rewrite !chain_unfold. cbn [emit fst snd].
    destruct (exec_stmt_alive (Some (q0, it)) s w q pend Hq) as [n1 H1].
    destruct (IH _ _ H1) as [n2 H2].
    exists (n1 ++ n2). by rewrite app_assoc.
Qed.

Lemma delete_ran_queues q it w : queues (delete_ran q it w).1 = queues w.
Proof. unfold delete_ran. by destruct cleanup_after_run. Qed.

Lemma complete_alive q0 fr w q pend :
  frame_last fr = false → queues w !! q = Some pend →
  ∃ new, queues (complete q0 fr w).1 !! q = Some (pend ++ new).
Proof.
  intros Hlast Hq. unfold complete. rewrite chain_unfold. cbn [fst].
  destruct (exec_alive q0 (frame_task fr) (frame_todo fr) w q pend Hq)
    as [new Hnew].
  exists new. unfold finish. rewrite !chain_unfold. cbn [emit fst snd].
  rewrite Hlast. cbn [skip fst].
  destruct (frame_result fr); [by rewrite delete_ran_queues | done].
Qed.

Lemma delete_ran_running q it w :
  running (delete_ran q it w).1 = running w.
Proof. unfold delete_ran. by destruct cleanup_after_run. Qed.

Lemma teardown_running q w : running (teardown q w).1 = running w.
Proof.
  unfold teardown. destruct (queues w !! q); [|done].
  by rewrite discard_all_running.
Qed.

Lemma finish_running q fr w :
  running (finish q fr w).1 = delete q (running w).
Proof.
  unfold finish. rewrite !chain_unfold. cbn [emit fst snd].
  destruct (frame_last fr), (frame_result fr); cbn [skip fst];
    by rewrite ?teardown_running, ?delete_ran_running.
Qed.

Lemma complete_running q fr w :
  running (complete q fr w).1 = delete q (running w).
Proof.
  unfold complete. rewrite chain_unfold. cbn [fst].
  by rewrite finish_running, exec_running.
Qed.

(** A worker that is left alone gets to every task of its channel: the
    task comes to the head of the channel with the worker idle, and the
    worker then takes it and runs it from start to end. *)
Lemma worker_reaches (q : QueueId) (it : Item) (pre : list Item) :
  ∀ (w : World) (post : list Item),
    queues w !! q = Some (pre ++ it :: post) →
    (∀ fr, running w !! q = Some fr → frame_last fr = false) →
    ∃ (k : nat) (w0 : World) (evs0 : list Event) (rest : list Item),
      running w0 !! q = None ∧ queues w0 !! q = Some (it :: rest) ∧
      run (replicate k (OpWorker q)) w
      = (((begin q ;;; complete q (new_frame it (env w0))) w0).1,
         evs0 ++ ((begin q ;;; complete q (new_frame it (env w0))) w0).2).
Proof.
  assert (Hidle : ∀ pre w post,
    queues w !! q = Some (pre ++ it :: post) → running w !! q = None →
    ∃ k w0 evs0 rest,
      running w0 !! q = None ∧ queues w0 !! q = Some (it :: rest) ∧
      run (replicate k (OpWorker q)) w
      = (((begin q ;;; complete q (new_frame it (env w0))) w0).1,
         evs0 ++ ((begin q ;;; complete q (new_frame it (env w0))) w0).2)).
  { clear pre. intros pre. induction pre as [|x pre IH]; intros w post Hq Hr.
    - exists (S (S (length (Run it.2 (env w)).1))), w, [], post.
      split; [done|]. split; [done|].
      rewrite (worker_runs_task q w it post Hr Hq).
      exact (surjective_pairing _).
    - simpl in Hq.
      pose proof (worker_runs_task q w x _ Hr Hq) as Hx.
      set (k1 := S (S (length (Run x.2 (env w)).1))) in *.
      set (r1 := (begin q ;;; complete q (new_frame x (env w))) w) in *.
      assert (Hr1 : running r1.1 !! q = None).
      { unfold r1. rewrite chain_unfold. cbn [fst].
        rewrite complete_running. apply lookup_delete_eq. }
      assert (Hq1 : ∃ new, queues r1.1 !! q
                           = Some ((pre ++ it :: post) ++ new)).
      { unfold r1. rewrite chain_unfold. cbn [fst].
        apply complete_alive; [done|].
        unfold begin. rewrite Hq. simpl. apply lookup_insert_eq. }
      destruct Hq1 as [new Hq1]. rewrite <- app_assoc in Hq1.
      destruct (IH r1.1 _ Hq1 Hr1) as (k & w0 & evs0 & rest & H1 & H2 & H3).
      exists (k1 + k), w0, (r1.2 ++ evs0), rest.
      split; [done|]. split; [done|].
      rewrite replicate_add, run_app, Hx, H3. cbn [fst snd].
      by rewrite app_assoc. }
  intros w post Hq Hlast.
  destruct (running w !! q) as [fr|] eqn:Hfr; [|by eapply Hidle].
  pose proof (worker_completes q w fr Hfr) as Hc.
  set (k1 := S (length (frame_todo fr))) in *.
  assert (Hr1 : running (complete q fr w).1 !! q = None)
    by (rewrite complete_running; apply lookup_delete_eq).
  destruct (complete_alive q fr w q _ (Hlast fr eq_refl) Hq) as [new Hq1].
  rewrite <- app_assoc in Hq1.
  destruct (Hidle pre _ _ Hq1 Hr1) as (k & w0 & evs0 & rest & H1 & H2 & H3).
  exists (k1 + k), w0, ((complete q fr w).2 ++ evs0), rest.
  split; [done|]. split; [done|].
  rewrite replicate_add, run_app, Hc, H3. cbn [fst snd].
  by rewrite app_assoc.
Qed.

(** A queue that is alive in the end was alive all along, and none of
    its tasks was discarded. *)
Definition discards (q : QueueId) (e : Event) : Prop :=
  match e with
  | Discarded q' _ => q' = q
  | _ => False
  end.

Definition stays_alive (q : QueueId) (w : World) (evs : list Event)
    (w' : World) : Prop :=
  is_Some (queues w' !! q) →
  is_Some (queues w !! q) ∧ Forall (λ e, ¬ discards q e) evs.

Lemma stays_alive_quietly q w evs w' :
  queues w' !! q = queues w !! q ∨
    (∃ pend, queues w !! q = Some pend) →
  Forall (λ e, ¬ discards q e) evs → stays_alive q w evs w'.
Proof.
  intros [Hq|[pend Hq]] Hev Halive.
  - by rewrite <- Hq.
  - by rewrite Hq.
Qed.

Lemma stays_alive_seq q w e1 w1 e2 w2 :
  stays_alive q w e1 w1 → stays_alive q w1 e2 w2 →
  stays_alive q w (e1 ++ e2) w2.
Proof.
  intros H1 H2 Halive. destruct (H2 Halive) as [Ha1 He2].
  destruct (H1 Ha1) as [Ha He1]. split; [done | by apply Forall_app].
Qed.

Lemma undiscarded_deletion q by_ it :
  Forall (λ e, ¬ discards q e) (deletion by_ it).
Proof. unfold deletion. destruct it.2; each_event. Qed.

Lemma undiscarded_invocation q it :
  Forall (λ e, ¬ discards q e) (invocation it).
Proof. unfold invocation. destruct it.2; each_event. Qed.

Lemma stays_alive_deliver q q0 it : respects (stays_alive q) (deliver q0 it).
Proof.
  intros w. unfold deliver.
  destruct (queues w !! q0) as [pend|] eqn:Hq0.
  - destruct (decide (length pend < capacity)); cbn [fst snd].
    + apply stays_alive_quietly; [|each_event].
      simpl. destruct (decide (q0 = q)) as [->|Hne].
      * right. by exists pend.
      * left. by rewrite lookup_insert_ne.
    + rewrite chain_unfold. apply stays_alive_quietly; [by left|].
      simpl. apply Forall_cons_2; [tauto | apply undiscarded_deletion].
  - rewrite chain_unfold. apply stays_alive_quietly; [by left|].
    simpl. apply Forall_cons_2; [tauto | apply undiscarded_deletion].
Qed.

Lemma stays_alive_exec q ctx s : respects (stays_alive q) (exec_stmt ctx s).
Proof.
  intros w. destruct s as [f|q0 t|q0 t d]; cbn [exec_stmt].
  - apply stays_alive_quietly; [by left | done].
  - unfold post_task. destruct t as [task|]; simpl.
    + exact (stays_alive_deliver q q0 (next_ptr w, task) (set_next_ptr _ w)).
    + destruct ctx as [[? it]|]; [apply stays_alive_deliver|].
      apply stays_alive_quietly; [by left | done].
  - unfold post_delayed_task. destruct t as [task|]; simpl.
    + apply stays_alive_quietly; [by left | each_event].
    + destruct ctx as [[? it]|]; simpl;
        (apply stays_alive_quietly; [by left | each_event]).
Qed.

Lemma stays_alive_teardown q q0 : respects (stays_alive q) (teardown q0).
Proof.
  intros w. unfold teardown.
  destruct (queues w !! q0) as [pend|] eqn:Hq0;
    [|apply stays_alive_quietly; [by left | done]].
  intros Halive. rewrite discard_all_queues in Halive. simpl in Halive.
  rewrite lookup_delete in Halive.
  destruct (decide (q0 = q)) as [->|Hne]; [by destruct Halive|].
  split; [done|]. rewrite discard_all_events.
  clear -Hne. induction pend as [|it rest IH]; [done|].
  rewrite bind_cons. simpl. apply Forall_cons_2; [simpl; congruence|].
  apply Forall_app. split; [apply undiscarded_deletion | done].
Qed.

Lemma stays_alive_skip q w : stays_alive q w [] w.
Proof. apply stays_alive_quietly; [by left | done]. Qed.

Lemma stays_alive_delete_ran q q0 it :
  respects (stays_alive q) (delete_ran q0 it).
Proof.
  intros w. apply stays_alive_quietly.
  - left. by rewrite delete_ran_queues.
  - unfold delete_ran. destruct cleanup_after_run; simpl;
      [apply undiscarded_deletion | each_event].
Qed.

Lemma stays_alive_run q (ops : list Op) : respects (stays_alive q) (run ops).
Proof.
  apply respects_all.
  - apply stays_alive_skip.
  - apply stays_alive_seq.
  - intros ctx s w _. apply stays_alive_exec.
  - intros q0 w _. unfold begin.
    destruct (queues w !! q0) as [[|it rest]|] eqn:Hq0;
      try apply stays_alive_skip.
    apply stays_alive_quietly.
    + simpl. destruct (decide (q0 = q)) as [->|Hne].
      * right. by eexists.
      * left. by rewrite lookup_insert_ne.
    + simpl. apply Forall_cons_2; [tauto | apply undiscarded_invocation].
  - intros q0 fr s rest w _ _.
    apply stays_alive_quietly; [by left | each_event].
  - intros q0 fr w _ _. unfold finish. rewrite chain_unfold.
    cbn [emit fst snd]. set (w1 := set_running _ w).
    apply (stays_alive_seq q w _ w1).
    { apply stays_alive_quietly; [by left | each_event]. }
    apply (respects_seq (stays_alive q) (stays_alive_seq q)).
    + apply respects_if;
        [apply stays_alive_skip | apply stays_alive_delete_ran].
    + apply respects_if;
        [apply stays_alive_skip | apply stays_alive_teardown].
  - intros q0 w. unfold fire.
    destruct (take_first _ (timers w)) as [[e rest]|];
      [|apply stays_alive_skip].
    destruct (queues w !! q0).
    + destruct (running w !! q0); [apply stays_alive_skip|].
      apply stays_alive_quietly; [by left|].
      simpl. apply Forall_cons_2; [tauto | apply undiscarded_invocation].
    + apply stays_alive_quietly; [by left | apply undiscarded_deletion].
  - intros q0 w. unfold reap.
    destruct (queues w !! q0); [apply stays_alive_skip|].
    destruct (take_first _ (timers w)) as [[e rest]|];
      [|apply stays_alive_skip].
    apply stays_alive_quietly; [by left | apply undiscarded_deletion].
  - intros q0 w. unfold destroy.
    destruct (running w !! q0); [|apply stays_alive_teardown].
    apply stays_alive_quietly; [by left | each_event].
  - intros dt w. apply stays_alive_quietly; [by left | done].
Qed.

(** A task that no delayed entry of a queue holds, and that nobody
    schedules on the queue, is not started on it by way of the delay
    scheduler. *)
Section Undelayed.

Variable q : QueueId.
Variable p : TaskPtr.

Definition schedules (e : Event) : Prop :=
  match e with
  | Scheduled q' it _ => q' = q ∧ it.1 = p
  | _ => False
  end.

Definition starts_delayed (e : Event) : Prop :=
  match e with
  | Started q' Delayed it => q' = q ∧ it.1 = p
  | _ => False
  end.

Definition undelayed (w : World) (evs : list Event) (w' : World) : Prop :=
  ¬ in_timers q p w → Forall (λ e, ¬ schedules e) evs →
  ¬ in_timers q p w' ∧ Forall (λ e, ¬ starts_delayed e) evs.

Lemma undelayed_quietly w evs w' :
  (∀ e, e ∈ timers w' → e ∈ timers w) →
  Forall (λ e, ¬ starts_delayed e) evs → undelayed w evs w'.
Proof.
  intros Ht Hev Hun _. split; [|done].
  intros (e & He & Hq & Hp). apply Hun. exists e. auto.
Qed.

Lemma undelayed_seq w e1 w1 e2 w2 :
  undelayed w e1 w1 → undelayed w1 e2 w2 → undelayed w (e1 ++ e2) w2.
Proof.
  intros H1 H2 Hun Hev. apply Forall_app in Hev as [Hev1 Hev2].
  destruct (H1 Hun Hev1) as [Hun1 Hs1].
  destruct (H2 Hun1 Hev2) as [Hun2 Hs2].
  split; [done | by apply Forall_app].
Qed.

Lemma unstarted_deletion by_ it :
  Forall (λ e, ¬ starts_delayed e) (deletion by_ it).
Proof. unfold deletion. destruct it.2; each_event. Qed.

Lemma unstarted_invocation it :
  Forall (λ e, ¬ starts_delayed e) (invocation it).
Proof. unfold invocation. destruct it.2; each_event. Qed.

Lemma deliver_timers q0 it w : timers (deliver q0 it w).1 = timers w.
Proof.
  unfold deliver. destruct (queues w !! q0) as [pend|]; [|done].
  by destruct (decide (length pend < capacity)).
Qed.

Lemma unstarted_deliver q0 it w :
  Forall (λ e, ¬ starts_delayed e) (deliver q0 it w).2.
Proof.
  unfold deliver. destruct (queues w !! q0) as [pend|].
  - destruct (decide (length pend < capacity)); simpl; [each_event|].
    apply Forall_cons_2; [tauto | apply unstarted_deletion].
  - simpl. apply Forall_cons_2; [tauto | apply unstarted_deletion].
Qed.

Lemma undelayed_schedule q0 it d : respects undelayed (schedule q0 it d).
Proof.
  intros w Hun Hev. simpl in *. rewrite Forall_singleton in Hev.
  simpl in Hev. split; [|each_event].
  intros (e & [->|He]%elem_of_insert_entry & Hq & Hp).
  - simpl in *. tauto.
  - apply Hun. by exists e.
Qed.

Lemma undelayed_exec ctx s : respects undelayed (exec_stmt ctx s).
Proof.
  intros w. destruct s as [f|q0 t|q0 t d]; cbn [exec_stmt].
  - by apply undelayed_quietly.
  - unfold post_task. destruct t as [task|]; simpl.
    + apply undelayed_quietly; [by rewrite deliver_timers|].
      apply unstarted_deliver.
    + destruct ctx as [[? it]|]; [|by apply undelayed_quietly].
      apply undelayed_quietly; [by rewrite deliver_timers|].
      apply unstarted_deliver.
  - unfold post_delayed_task. destruct t as [task|]; cbn [resolve].
    + exact (undelayed_schedule q0 (next_ptr w, task) d (set_next_ptr _ w)).
    + destruct ctx as [[? it]|]; [apply undelayed_schedule|].
      by apply undelayed_quietly.
Qed.

Lemma undelayed_teardown q0 : respects undelayed (teardown q0).
Proof.
  intros w. unfold teardown.
  destruct (queues w !! q0) as [pend|]; [|by apply undelayed_quietly].
  apply undelayed_quietly; [by rewrite discard_all_timers|].
  rewrite discard_all_events.
  induction pend as [|it rest IH]; [done|].
  rewrite bind_cons. simpl. apply Forall_cons_2; [tauto|].
  apply Forall_app. split; [apply unstarted_deletion | done].
Qed.

Lemma undelayed_run (ops : list Op) : respects undelayed (run ops).
Proof.
  apply respects_all.
  - intros w. by apply undelayed_quietly.
  - apply undelayed_seq.
  - intros ctx s w _. apply undelayed_exec.
  - intros q0 w _. unfold begin.
    destruct (queues w !! q0) as [[|it rest]|];
      try by apply undelayed_quietly.
    apply undelayed_quietly; [done|]. simpl.
    apply Forall_cons_2; [tauto | apply unstarted_invocation].
  - intros q0 fr s rest w _ _. apply undelayed_quietly; [done | each_event].
  - intros q0 fr w _ _. unfold finish. rewrite chain_unfold.
    cbn [emit fst snd]. set (w1 := set_running _ w).
    apply (undelayed_seq w _ w1).
    { apply undelayed_quietly; [done | each_event]. }
    apply (respects_seq undelayed undelayed_seq).
    + apply respects_if; [intros ?; by apply undelayed_quietly|].
      intros w'. unfold delete_ran. destruct cleanup_after_run.
      * apply undelayed_quietly; [done | apply unstarted_deletion].
      * apply undelayed_quietly; [done | each_event].
    + apply respects_if; [intros ?; by apply undelayed_quietly|].
      apply undelayed_teardown.
  - intros q0 w. unfold fire.
    destruct (take_first _ (timers w)) as [[e rest]|] eqn:Htf;
      [|by apply undelayed_quietly].
    pose proof (take_first_Some _ _ _ _ Htf) as ([Htg _] & _ & _).
    apply take_first_elem in Htf as [He Hin].
    destruct (queues w !! q0).
    + destruct (running w !! q0); [by apply undelayed_quietly|].
      intros Hun _. split.
      * intros (e' & He' & Hq & Hp). apply Hun. exists e'.
        split; [|done]. apply Hin. by right.
      * simpl. apply Forall_cons_2; [|apply unstarted_invocation].
        simpl. intros [-> Hp]. apply Hun. by exists e.
    + apply undelayed_quietly; [|apply unstarted_deletion].
      intros e' He'. apply Hin. by right.
  - intros q0 w. unfold reap.
    destruct (queues w !! q0); [by apply undelayed_quietly|].
    destruct (take_first _ (timers w)) as [[e rest]|] eqn:Htf;
      [|by apply undelayed_quietly].
    apply take_first_elem in Htf as [He Hin].
    apply undelayed_quietly; [|apply unstarted_deletion].
    intros e' He'. apply Hin. by right.
  - intros q0 w. unfold destroy.
    destruct (running w !! q0); [|apply undelayed_teardown].
    apply undelayed_quietly; [done | each_event].
  - intros dt w. by apply undelayed_quietly.
Qed.

(** *** Exactly once

A task that sits once in the channel of a queue which stays alive, and
that nobody hands to the queue again, is started by the queue at most
once, and as long as it has not been started it is still in the
channel. *)
Definition starts (e : Event) : Prop :=
  match e with
  | Started q' _ it => q' = q ∧ it.1 = p
  | _ => False
  end.

#[export] Instance starts_dec e : Decision (starts e).
Proof. destruct e; simpl; apply _. Defined.

Definition count_ptr (l : list Item) : nat :=
  length (filter (λ it, it.1 = p) l).

Lemma count_ptr_app l1 l2 :
  count_ptr (l1 ++ l2) = count_ptr l1 + count_ptr l2.
Proof. unfold count_ptr. by rewrite filter_app, length_app. Qed.

Lemma count_ptr_nil : count_ptr [] = 0.
Proof. done. Qed.

Lemma count_ptr_singleton it :
  count_ptr [it] = if decide (it.1 = p) then 1 else 0.
Proof.
  unfold count_ptr. destruct (decide (it.1 = p)).
  - by rewrite filter_cons_True.
  - by rewrite filter_cons_False.
Qed.

Lemma accepted_cons q0 e evs :
  accepted q0 (e :: evs)
  = match e with
    | Posted q' it => if decide (q' = q0) then [it] else []
    | _ => []
    end ++ accepted q0 evs.
Proof.
  unfold accepted. destruct e; simpl; try done.
  by destruct (decide _).
Qed.

Lemma consumed_cons q0 e evs :
  consumed q0 (e :: evs)
  = match e with
    | Started q' Immediate it | Discarded q' it =>
        if decide (q' = q0) then [it] else []
    | _ => []
    end ++ consumed q0 evs.
Proof.
  unfold consumed. destruct e as [| | |? []| | | | | |]; simpl; try done;
    by destruct (decide _).
Qed.

Lemma count_ptr_accepted evs :
  Forall (λ e, ¬ hands_over q p e) evs → count_ptr (accepted q evs) = 0.
Proof.
  induction 1 as [|e evs He _ IH]; [done|].
  rewrite accepted_cons, count_ptr_app, IH.
  destruct e; simpl in *; try done.
  destruct (decide (q0 = q)) as [->|]; [|done].
  rewrite count_ptr_singleton. destruct (decide _); tauto.
Qed.

Lemma count_ptr_consumed evs :
  Forall (λ e, ¬ discards q e) evs →
  Forall (λ e, ¬ starts_delayed e) evs →
  count_ptr (consumed q evs) = length (filter starts evs).
Proof.
  induction 1 as [|e evs He _ IH]; [done|].
  intros [Hd Hds]%Forall_cons. specialize (IH Hds).
  rewrite consumed_cons, count_ptr_app, IH.
  destruct (decide (starts e)) as [Hs|Hs].
  - rewrite filter_cons_True by done.
    destruct e as [| | |q0 []| | | | | |]; simpl in *; try tauto.
    destruct Hs as [-> Hp]. rewrite decide_True by done.
    rewrite count_ptr_singleton. by rewrite decide_True.
  - rewrite filter_cons_False by done.
    destruct e as [| | |q0 []| | | | | |]; simpl in *; try done.
    + destruct (decide (q0 = q)); [|done].
      rewrite count_ptr_singleton. rewrite decide_False; [done | tauto].
    + destruct (decide (q0 = q)); [tauto | done].
Qed.

Lemma started_once (ops : list Op) (w : World) :
  count_ptr (pending q w) = 1 → ¬ in_timers q p w →
  Forall (λ e, ¬ hands_over q p e) (run ops w).2 →
  is_Some (queues (run ops w).1 !! q) →
  length (filter starts (run ops w).2)
  + count_ptr (pending q (run ops w).1) = 1.
Proof.
  intros Hone Hun Hev Halive.
  destruct (stays_alive_run q ops w Halive) as [_ Hnd].
  assert (Hns : Forall (λ e, ¬ schedules e) (run ops w).2).
  { eapply Forall_impl; [exact Hev|]. intros e He. destruct e; simpl in *; tauto. }
  destruct (undelayed_run ops w Hun Hns) as [_ Hsd].
  pose proof (fifo_run ops w q) as Hf.
  apply (f_equal count_ptr) in Hf. rewrite !count_ptr_app in Hf.
  rewrite count_ptr_accepted, count_ptr_consumed in Hf by done. lia.
Qed.

End Undelayed.

(** *** A delayed task whose queue is destroyed *)

Lemma insert_entry_perm (e : DelayedEntry) (l : list DelayedEntry) :
  insert_entry e l ≡ₚ e :: l.
Proof.
  induction l as [|x l IH]; [done|]. simpl.
  destruct (entry_before e x); [done|].
  rewrite IH. apply perm_swap.
Qed.

Lemma teardown_queues q w : queues (teardown q w).1 = delete q (queues w).
Proof.
  unfold teardown. destruct (queues w !! q) eqn:Hq.
  - by rewrite discard_all_queues.
  - simpl. by rewrite delete_id.
Qed.

Lemma teardown_timers q w : timers (teardown q w).1 = timers w.
Proof.
  unfold teardown. destruct (queues w !! q); [|done].
  by rewrite discard_all_timers.
Qed.

Lemma discard_all_next_ptr q its w :
  next_ptr (discard_all q its w).1 = next_ptr w.
Proof.
  revert w. induction its as [|it rest IH]; intros w; [done|].
  simpl. rewrite !chain_unfold. simpl. by rewrite IH.
Qed.

Lemma teardown_next_ptr q w : next_ptr (teardown q w).1 = next_ptr w.
Proof.
  unfold teardown. destruct (queues w !! q); [|done].
  by rewrite discard_all_next_ptr.
Qed.

Lemma teardown_events q w :
  (teardown q w).2
  = pending q w ≫= λ it, Discarded q it :: deletion (ByQueue q) it.
Proof.
  unfold teardown, pending. destruct (queues w !! q); [|done].
  simpl. by rewrite discard_all_events.
Qed.

Lemma delete_ran_events q it w :
  (delete_ran q it w).2
  = if cleanup_after_run then deletion (ByQueue q) it
    else [Deleted (ByQueue q) it].
Proof. unfold delete_ran. by destruct cleanup_after_run. Qed.

Lemma delete_ran_timers q it w : timers (delete_ran q it w).1 = timers w.
Proof. unfold delete_ran. by destruct cleanup_after_run. Qed.

Lemma delete_ran_next_ptr q it w :
  next_ptr (delete_ran q it w).1 = next_ptr w.
Proof. unfold delete_ran. by destruct cleanup_after_run. Qed.

Lemma finish_queues q fr w :
  queues (finish q fr w).1
  = if frame_last fr then delete q (queues w) else queues w.
Proof.
  unfold finish. rewrite !chain_unfold. cbn [emit fst snd].
  destruct (frame_last fr), (frame_result fr); cbn [skip fst];
    by rewrite ?teardown_queues, ?delete_ran_queues.
Qed.

Lemma finish_timers q fr w : timers (finish q fr w).1 = timers w.
Proof.
  unfold finish. rewrite !chain_unfold. cbn [emit fst snd].
  destruct (frame_last fr), (frame_result fr); cbn [skip fst];
    by rewrite ?teardown_timers, ?delete_ran_timers.
Qed.

Lemma finish_next_ptr q fr w : next_ptr (finish q fr w).1 = next_ptr w.
Proof.
  unfold finish. rewrite !chain_unfold. cbn [emit fst snd].
  destruct (frame_last fr), (frame_result fr); cbn [skip fst];
    by rewrite ?teardown_next_ptr, ?delete_ran_next_ptr.
Qed.

Lemma pending_delete_ran q0 q it w :
  pending q (delete_ran q0 it w).1 = pending q w.
Proof. unfold pending. by rewrite delete_ran_queues. Qed.

Lemma finish_events q fr w :
  (finish q fr w).2
  = Returned q (frame_task fr) (frame_result fr)
    :: (if frame_result fr
        then if cleanup_after_run then deletion (ByQueue q) (frame_task fr)
             else [Deleted (ByQueue q) (frame_task fr)]
        else [])
    ++ (if frame_last fr
        then pending q w ≫= λ it, Discarded q it :: deletion (ByQueue q) it
        else []).
Proof.
  unfold finish. rewrite !chain_unfold. cbn [emit fst snd]. simpl.
  f_equal. f_equal.
  - destruct (frame_result fr); [|done]. by rewrite delete_ran_events.
  - destruct (frame_last fr); [|done]. rewrite teardown_events.
    destruct (frame_result fr); [|done]. by rewrite pending_delete_ran.
Qed.

Section Naming.

Variable p : TaskPtr.

(** An event names the task. *)
Definition mentions (e : Event) : Prop :=
  match e with
  | Posted _ it | Dropped _ it | Scheduled _ it _ | Started _ _ it
  | Executed _ it | Returned _ it _ | Discarded _ it | Invoked it _
  | Deleted _ it => it.1 = p
  | Stopping _ => False
  end.

Lemma unmentioned_deletion by_ it :
  it.1 ≠ p → Forall (λ e, ¬ mentions e) (deletion by_ it).
Proof. intros Hp. unfold deletion. destruct it.2; each_event. Qed.

Lemma unmentioned_invocation it :
  it.1 ≠ p → Forall (λ e, ¬ mentions e) (invocation it).
Proof. intros Hp. unfold invocation. destruct it.2; each_event. Qed.

Lemma unmentioned_discards q0 (pend : list Item) :
  p ∉ pend.*1 →
  Forall (λ e, ¬ mentions e)
         (pend ≫= λ it, Discarded q0 it :: deletion (ByQueue q0) it).
Proof.
  induction pend as [|it rest IH]; [done|].
  rewrite fmap_cons, not_elem_of_cons. intros [Hit Hrest].
  rewrite bind_cons. simpl. apply Forall_cons_2; [simpl; congruence|].
  apply Forall_app. split; [apply unmentioned_deletion; congruence | auto].
Qed.

End Naming.

Section Parked.

Variable q : QueueId.
Variable p : TaskPtr.

(** The queue is destroyed: it is gone, or its destructor waits for the
    task that is running. *)
Definition doomed (w : World) : Prop :=
  queues w !! q = None ∨
  ∃ fr, running w !! q = Some fr ∧ frame_last fr = true.

(** Only delayed entries on behalf of the queue hold the task. *)
Definition held_by_delay (w : World) : Prop :=
  p < next_ptr w ∧
  (∀ q' pend, queues w !! q' = Some pend → p ∉ pend.*1) ∧
  (∀ q' fr, running w !! q' = Some fr → (frame_task fr).1 ≠ p) ∧
  (∀ e, e ∈ timers w → (entry_task e).1 = p → target e = q).

Definition parked (w : World) : Prop := doomed w ∧ held_by_delay w.

(** The delayed entries that hold the task. *)
Definition entries (w : World) : nat :=
  length (filter (λ e, (entry_task e).1 = p) (timers w)).

(** The delay mechanism destroys the task. *)
Definition disposes (e : Event) : Prop :=
  match e with
  | Deleted ByDelay it => it.1 = p
  | _ => False
  end.

#[export] Instance disposes_dec e : Decision (disposes e).
Proof. destruct e as [| | | | | | | | |[] ?]; simpl; apply _. Defined.

(** Anything else happens to the task: it is posted, scheduled, started,
    its run path is entered, or somebody other than the delay mechanism
    destroys it. *)
Definition disturbs (e : Event) : Prop :=
  match e with
  | Posted _ it | Dropped _ it | Scheduled _ it _ | Started _ _ it
  | Executed _ it | Returned _ it _ | Discarded _ it => it.1 = p
  | Invoked it role => it.1 = p ∧ role = RunCallable
  | Deleted by_ it => it.1 = p ∧ by_ ≠ ByDelay
  | Stopping _ => False
  end.

Definition kept (w : World) (evs : list Event) (w' : World) : Prop :=
  parked w →
  parked w' ∧ Forall (λ e, ¬ disturbs e) evs ∧
  length (filter disposes evs) + entries w' = entries w.

Lemma unmentioned evs :
  Forall (λ e, ¬ mentions p e) evs →
  Forall (λ e, ¬ disturbs e) evs ∧ filter disposes evs = [].
Proof.
  induction 1 as [|e evs He _ [IH1 IH2]]; [done|]. split.
  - constructor; [|done]. destruct e; simpl in *; tauto.
  - rewrite filter_cons_False; [done|].
    destruct e as [| | | | | | | | |[] ?]; simpl in *; tauto.
Qed.

Lemma kept_skip w : kept w [] w.
Proof. intros Hp. split; [done|]. by split. Qed.

Lemma kept_seq w e1 w1 e2 w2 :
  kept w e1 w1 → kept w1 e2 w2 → kept w (e1 ++ e2) w2.
Proof.
  intros H1 H2 Hp. destruct (H1 Hp) as (Hp1 & He1 & Hn1).
  destruct (H2 Hp1) as (Hp2 & He2 & Hn2).
  split; [done|]. split; [by apply Forall_app|].
  rewrite filter_app, length_app. lia.
Qed.

Lemma undisturbed_disposal it :
  Forall (λ e, ¬ disturbs e) (deletion ByDelay it).
Proof. unfold deletion. destruct it.2; each_event. Qed.

Lemma filter_disposes_disposal it :
  it.1 = p → length (filter disposes (deletion ByDelay it)) = 1.
Proof.
  intros Hp. unfold deletion.
  destruct it.2;
    rewrite ?(filter_cons_False _ (Invoked _ _)) by (simpl; tauto);
    by rewrite filter_cons_True.
Qed.

(** A step that leaves the queue destroyed and the task where it is, and
    that does not name the task. *)
Lemma kept_quietly w evs w' :
  (doomed w → doomed w') →
  next_ptr w ≤ next_ptr w' →
  (∀ q' pend', queues w' !! q' = Some pend' → p ∉ pend'.*1) →
  (∀ q' fr', running w' !! q' = Some fr' → (frame_task fr').1 ≠ p) →
  timers w' = timers w →
  Forall (λ e, ¬ mentions p e) evs →
  parked w → parked w' ∧ Forall (λ e, ¬ disturbs e) evs ∧
  length (filter disposes evs) + entries w' = entries w.
Proof.
  intros Hd Hn Hc Hf Ht [Hev Hno]%unmentioned (Hdw & Hp & _ & _ & Htm).
  split; [split; [auto|]|].
  - split; [lia|]. split; [done|]. split; [done|]. by rewrite Ht.
  - split; [done|]. unfold entries. by rewrite Hno, Ht.
Qed.

Lemma kept_deliver q0 it w :
  it.1 ≠ p → kept w (deliver q0 it w).2 (deliver q0 it w).1.
Proof.
  intros Hit Hpk. pose proof Hpk as (Hd & Hp & Hc & Hf & Htm).
  unfold deliver. destruct (queues w !! q0) as [pend|] eqn:Hq0.
  - destruct (decide (length pend < capacity)); cbn [fst snd].
    + apply kept_quietly; simpl; try done.
      * intros [Hq|Hq]; [left | by right]. simpl.
        rewrite lookup_insert_ne; [done | congruence].
      * intros q' pend'. rewrite lookup_insert.
        destruct (decide (q0 = q')) as [->|].
        -- intros [= <-]. rewrite fmap_app, elem_of_app.
           intros [Hin|Hin]; [by eapply Hc|].
           apply list_elem_of_singleton in Hin. simpl in Hin. congruence.
        -- apply Hc.
      * each_event.
    + rewrite chain_unfold. cbn [emit delete_task fst snd].
      apply kept_quietly; simpl; try done.
      apply Forall_cons_2; [simpl; tauto | by apply unmentioned_deletion].
  - rewrite chain_unfold. cbn [emit delete_task fst snd].
    apply kept_quietly; simpl; try done.
    apply Forall_cons_2; [simpl; tauto | by apply unmentioned_deletion].
Qed.

Lemma kept_schedule q0 it d w :
  it.1 ≠ p → kept w (schedule q0 it d w).2 (schedule q0 it d w).1.
Proof.
  intros Hit Hpk. pose proof Hpk as (Hd & Hp & Hc & Hf & Htm).
  unfold schedule. cbn [fst snd].
  split; [split; [|split; [|split; [|split]]]|]; try done.
  - simpl. intros e [->|He]%elem_of_insert_entry; [done | by apply Htm].
  - split; [each_event|]. unfold entries. simpl.
    rewrite insert_entry_perm. by rewrite filter_cons_False.
Qed.

Lemma parked_alloc w :
  parked w → parked (set_next_ptr (S (next_ptr w)) w).
Proof.
  intros (Hd & Hp & Hc & Hf & Htm). split; [done|].
  split; [simpl; lia | done].
Qed.

Lemma kept_exec ctx s w :
  caller_in ctx w → kept w (exec_stmt ctx s w).2 (exec_stmt ctx s w).1.
Proof.
  intros Hctx Hpk. pose proof Hpk as (Hd & Hp & Hc & Hf & Htm).
  assert (Hthis : ∀ q0 it, ctx = Some (q0, it) → it.1 ≠ p).
  { intros q0 it ->. destruct Hctx as (fr & Hfr & <-). by eapply Hf. }
  destruct s as [f|q0 t|q0 t d]; cbn [exec_stmt].
  - by apply kept_quietly.
  - unfold post_task. destruct t as [task|]; simpl.
    + assert (H := kept_deliver q0 (next_ptr w, task)
                  (set_next_ptr (S (next_ptr w)) w)).
      destruct H as (H1 & H2 & H3); [simpl; lia | by apply parked_alloc |].
      done.
    + destruct ctx as [[q1 it]|]; [|by apply kept_skip].
      apply kept_deliver; [by eapply Hthis | done].
  - unfold post_delayed_task. destruct t as [task|]; cbn [resolve].
    + assert (H := kept_schedule q0 (next_ptr w, task) d
                  (set_next_ptr (S (next_ptr w)) w)).
      destruct H as (H1 & H2 & H3); [simpl; lia | by apply parked_alloc |].
      done.
    + destruct ctx as [[q1 it]|]; [|by apply kept_skip].
      apply kept_schedule; [by eapply Hthis | done].
Qed.

Lemma kept_teardown q0 w : kept w (teardown q0 w).2 (teardown q0 w).1.
Proof.
  intros Hpk. pose proof Hpk as (Hd & Hp & Hc & Hf & Htm).
  apply kept_quietly; try done.
  - intros [Hq|(fr & Hfr & Hl)].
    + left. rewrite teardown_queues, lookup_delete. by destruct (decide _).
    + right. exists fr. by rewrite teardown_running.
  - by rewrite teardown_next_ptr.
  - intros q' pend'. rewrite teardown_queues, lookup_delete.
    destruct (decide _); [done | apply Hc].
  - intros q' fr'. rewrite teardown_running. apply Hf.
  - apply teardown_timers.
  - rewrite teardown_events. unfold pending.
    destruct (queues w !! q0) as [pend|] eqn:Hq0; [|done]. simpl.
    apply unmentioned_discards. by eapply Hc.
Qed.

Lemma kept_begin q0 w :
  running w !! q0 = None → kept w (begin q0 w).2 (begin q0 w).1.
Proof.
  intros Hidle Hpk. pose proof Hpk as (Hd & Hp & Hc & Hf & Htm).
  unfold begin. destruct (queues w !! q0) as [[|it rest]|] eqn:Hq0;
    try by apply kept_skip.
  assert (Hit : it.1 ≠ p).
  { intros Heq. apply (Hc q0 _ Hq0). rewrite fmap_cons, <- Heq. by left. }
  assert (Hne : q0 ≠ q).
  { intros ->. destruct Hd as [Hq|(fr & Hfr & _)]; congruence. }
  apply kept_quietly; simpl; try done.
  - intros [Hq|(fr & Hfr & Hl)]; [left | right]; simpl.
    + by rewrite lookup_insert_ne.
    + exists fr. by rewrite lookup_insert_ne.
  - intros q' pend'. rewrite lookup_insert.
    destruct (decide (q0 = q')) as [->|]; [|apply Hc].
    intros [= <-]. intros Hin. apply (Hc q' _ Hq0).
    rewrite fmap_cons. by right.
  - intros q' fr'. rewrite lookup_insert.
    destruct (decide (q0 = q')) as [->|]; [|apply Hf]. by intros [= <-].
  - apply Forall_cons_2; [done | by apply unmentioned_invocation].
Qed.

Lemma kept_finish q0 fr w :
  running w !! q0 = Some fr →
  kept w (finish q0 fr w).2 (finish q0 fr w).1.
Proof.
  intros Hfr Hpk. pose proof Hpk as (Hd & Hp & Hc & Hf & Htm).
  pose proof (Hf _ _ Hfr) as Hit.
  apply kept_quietly; try done.
  - intros [Hq|(fr' & Hfr' & Hl)].
    + left. rewrite finish_queues. destruct (frame_last fr); [|done].
      rewrite lookup_delete. by destruct (decide _).
    + destruct (decide (q0 = q)) as [->|Hne].
      * left. assert (fr' = fr) as -> by congruence.
        rewrite finish_queues, Hl. apply lookup_delete_eq.
      * right. exists fr'. by rewrite finish_running, lookup_delete_ne.
  - by rewrite finish_next_ptr.
  - intros q' pend'. rewrite finish_queues.
    destruct (frame_last fr); [|apply Hc].
    rewrite lookup_delete. destruct (decide _); [done | apply Hc].
  - intros q' fr'. rewrite finish_running, lookup_delete.
    destruct (decide _); [done | apply Hf].
  - apply finish_timers.
  - rewrite finish_events. apply Forall_cons_2; [done|].
    apply Forall_app. split.
    + destruct (frame_result fr); [|done].
      destruct cleanup_after_run; [by apply unmentioned_deletion|each_event].
    + destruct (frame_last fr); [|done]. unfold pending.
      destruct (queues w !! q0) as [pend|] eqn:Hq0; [|done]. simpl.
      apply unmentioned_discards. by eapply Hc.
Qed.

Lemma entries_take_first (P : DelayedEntry → Prop)
    `{!∀ x, Decision (P x)} w e rest :
  take_first P (timers w) = Some (e, rest) →
  entries w
  = (if decide ((entry_task e).1 = p) then 1 else 0)
    + entries (set_timers rest w).
Proof.
  intros (_ & Hperm & _)%take_first_Some. unfold entries. simpl.
  rewrite Hperm. destruct (decide _).
  - by rewrite filter_cons_True.
  - by rewrite filter_cons_False.
Qed.

Lemma kept_dispose (P : DelayedEntry → Prop) `{!∀ x, Decision (P x)}
    w e rest :
  take_first P (timers w) = Some (e, rest) →
  kept w (deletion ByDelay (entry_task e))
       (set_env (destructor (entry_task e) (env w)) (set_timers rest w)).
Proof.
  intros Htf Hpk. pose proof Hpk as (Hd & Hp & Hc & Hf & Htm).
  pose proof (entries_take_first P w e rest Htf) as Hn.
  apply take_first_elem in Htf as [He Hin].
  split; [split; [done|]|].
  - split; [done|]. split; [done|]. split; [done|]. simpl.
    intros e' He'. apply Htm, Hin. by right.
  - split; [apply undisturbed_disposal|]. rewrite Hn.
    change (entries (set_env (destructor (entry_task e) (env w))
                             (set_timers rest w)))
      with (entries (set_timers rest w)).
    destruct (decide _) as [Hit|Hit].
    + by rewrite filter_disposes_disposal.
    + pose proof (unmentioned_deletion p ByDelay _ Hit) as [_ ->]%unmentioned.
      done.
Qed.

Lemma kept_fire q0 w : kept w (fire q0 w).2 (fire q0 w).1.
Proof.
  intros Hpk. pose proof Hpk as (Hd & Hp & Hc & Hf & Htm).
  unfold fire.
  destruct (take_first _ (timers w)) as [[e rest]|] eqn:Htf;
    [|by apply kept_skip].
  destruct (queues w !! q0) as [pend|] eqn:Hq0.
  - destruct (running w !! q0) as [fr|] eqn:Hfr; [by apply kept_skip|].
    pose proof (take_first_Some _ _ _ _ Htf) as ([Htg _] & Hperm & _).
    pose proof (take_first_elem _ _ _ _ Htf) as [He Hin].
    assert (Hne : q0 ≠ q).
    { intros ->. destruct Hd as [Hq|(fr & Hfr' & _)]; congruence. }
    assert (Hit : (entry_task e).1 ≠ p).
    { intros Heq. apply Hne. rewrite <- Htg. by apply Htm. }
    split; [split; [|split; [done|split; [done|split]]]|].
    + destruct Hd as [Hq|(fr & Hfr' & Hl)]; [by left | right].
      exists fr. simpl. by rewrite lookup_insert_ne.
    + intros q' fr'. simpl. rewrite lookup_insert.
      destruct (decide (q0 = q')) as [->|]; [|apply Hf]. by intros [= <-].
    + simpl. intros e' He'. apply Htm, Hin. by right.
    + assert (Hun : Forall (λ e0, ¬ mentions p e0)
                (Started q0 Delayed (entry_task e)
                 :: invocation (entry_task e)))
        by (apply Forall_cons_2; [done | by apply unmentioned_invocation]).
      apply unmentioned in Hun as [Hun Hno].
      split; [done|]. simpl in Hno |- *. rewrite Hno.
      rewrite (entries_take_first _ w e rest Htf).
      by rewrite decide_False.
  - by apply (kept_dispose _ w e rest Htf).
Qed.

Lemma kept_reap q0 w : kept w (reap q0 w).2 (reap q0 w).1.
Proof.
  unfold reap. destruct (queues w !! q0); [apply kept_skip|].
  destruct (take_first _ (timers w)) as [[e rest]|] eqn:Htf;
    [|apply kept_skip].
  by apply (kept_dispose _ w e rest Htf).
Qed.

Lemma kept_destroy q0 w : kept w (destroy q0 w).2 (destroy q0 w).1.
Proof.
  unfold destroy. destruct (running w !! q0) as [fr0|] eqn:Hfr0;
    [|apply kept_teardown].
  intros Hpk. pose proof Hpk as (Hd & Hp & Hc & Hf & Htm).
  apply kept_quietly; simpl; try done.
  - intros [Hq|(fr & Hfr & Hl)]; [by left | right]. simpl.
    destruct (decide (q0 = q)) as [->|Hne].
    + exists (mark_last fr). by rewrite lookup_alter_eq, Hfr.
    + exists fr. by rewrite lookup_alter_ne.
  - intros q' fr'. rewrite lookup_alter.
    destruct (decide (q0 = q')) as [->|]; [|apply Hf].
    destruct (running w !! q') as [fr|] eqn:Hfr; [|done].
    intros [= <-]. simpl. by eapply Hf.
  - each_event.
Qed.

(** Whatever happens once the queue is destroyed, nothing happens to the
    task but its destruction by the delay mechanism, once for every
    delayed entry that held it and has gone. *)
Lemma kept_run (ops : list Op) : respects kept (run ops).
Proof.
  apply respects_all.
  - apply kept_skip.
  - apply kept_seq.
  - intros ctx s w. apply kept_exec.
  - apply kept_begin.
  - intros q0 fr s rest w Hfr Htodo Hpk.
    pose proof Hpk as (Hd & Hp & Hc & Hf & Htm).
    apply kept_quietly; simpl; try done.
    + intros [Hq|(fr' & Hfr' & Hl)]; [by left | right]. simpl.
      destruct (decide (q0 = q)) as [->|Hne].
      * exists (advance_frame fr). rewrite lookup_insert_eq.
        split; [done|]. simpl. congruence.
      * exists fr'. by rewrite lookup_insert_ne.
    + intros q' fr'. rewrite lookup_insert.
      destruct (decide (q0 = q')) as [->|]; [|apply Hf].
      intros [= <-]. simpl. by eapply Hf.
    + apply Forall_cons_2; [|done]. simpl. by eapply Hf.
  - intros q0 fr w Hfr _. by apply kept_finish.
  - intros q0 w. apply kept_fire.
  - intros q0 w. apply kept_reap.
  - intros q0 w. apply kept_destroy.
  - intros dt w Hpk. pose proof Hpk as (Hd & Hp & Hc & Hf & Htm).
    by apply kept_quietly.
Qed.

(** Destroying the queue while only delayed entries hold the task leaves
    the task with the delay mechanism. *)
Lemma destroy_parks (w : World) :
  held_by_delay w →
  parked (destroy q w).1 ∧ Forall (λ e, ¬ mentions p e) (destroy q w).2 ∧
  timers (destroy q w).1 = timers w.
Proof.
  intros (Hp & Hc & Hf & Htm). unfold destroy.
  destruct (running w !! q) as [fr|] eqn:Hfr.
  - split; [split; [|split; [done|split; [done|split; [|done]]]]|].
    + right. exists (mark_last fr). simpl. by rewrite lookup_alter_eq, Hfr.
    + intros q' fr'. simpl. rewrite lookup_alter.
      destruct (decide (q = q')) as [<-|]; [|apply Hf].
      rewrite Hfr. intros [= <-]. simpl. by eapply Hf.
    + split; [each_event | done].
  - split; [split; [|split; [|split; [|split]]]|].
    + left. rewrite teardown_queues. apply lookup_delete_eq.
    + by rewrite teardown_next_ptr.
    + intros q' pend'. rewrite teardown_queues, lookup_delete.
      destruct (decide _); [done | apply Hc].
    + intros q' fr'. rewrite teardown_running. apply Hf.
    + rewrite teardown_timers. apply Htm.
    + split; [|apply teardown_timers]. rewrite teardown_events.
      unfold pending. destruct (queues w !! q) as [pend|] eqn:Hq; [|done].
      simpl. apply unmentioned_discards. by eapply Hc.
Qed.

End Parked.

(** The delay mechanism, left alone, disposes of the entries of a queue
    that is gone, in their order: of all of them at any time, and at
    least of those that are due when it looks at fire times. *)
Definition dispose_all (l : list DelayedEntry) (e : Env) : Env :=
  foldl (λ e x, destructor (entry_task x) e) e l.

Lemma take_first_others {A : Type} (P Q : A → Prop)
    `{!∀ x, Decision (P x)} `{!∀ x, Decision (Q x)} (l : list A) e rest :
  (∀ x, Q x → ¬ P x) →
  take_first P l = Some (e, rest) → filter Q rest = filter Q l.
Proof.
  intros HQ. revert e rest. induction l as [|x l IH]; intros e rest; [done|].
  simpl. destruct (decide (P x)) as [Hx|Hx].
  - intros [= <- <-]. rewrite filter_cons_False; [done|]. intros ?.
    by eapply HQ.
  - destruct (take_first P l) as [[y rest']|]; [|done].
    intros [= <- <-]. specialize (IH y rest' eq_refl).
    destruct (decide (Q x)).
    + by rewrite !filter_cons_True, IH.
    + by rewrite !filter_cons_False.
Qed.

Lemma take_first_filter {A : Type} (P : A → Prop)
    `{!∀ x, Decision (P x)} (l : list A) e rest :
  filter P l = e :: rest →
  ∃ rest', take_first P l = Some (e, rest') ∧ filter P rest' = rest.
Proof.
  induction l as [|x l IH]; [done|]. simpl.
  destruct (decide (P x)) as [Hx|Hx].
  - rewrite filter_cons_True by done. intros [= <- <-]. by eexists.
  - rewrite filter_cons_False by done. intros Hf.
    destruct (IH Hf) as (rest' & -> & Hr). eexists. split; [done|].
    by rewrite filter_cons_False.
Qed.

Lemma filter_none_id {A : Type} (P : A → Prop) `{!∀ x, Decision (P x)}
    (l : list A) :
  filter P l = [] → filter (λ x, ¬ P x) l = l.
Proof.
  induction l as [|x l IH]; [done|].
  destruct (decide (P x)).
  - by rewrite filter_cons_True.
  - rewrite filter_cons_False by done. intros Hf.
    rewrite filter_cons_True by done. by rewrite IH.
Qed.

Lemma reap_all (q : QueueId) (w : World) :
  queues w !! q = None →
  run (replicate (length (filter (λ e, target e = q) (timers w)))
                 (OpReap q)) w
  = (set_env (dispose_all (filter (λ e, target e = q) (timers w)) (env w))
       (set_timers (filter (λ e, ¬ target e = q) (timers w)) w),
     filter (λ e, target e = q) (timers w)
       ≫= λ e, deletion ByDelay (entry_task e)).
Proof.
  remember (length (filter (λ e, target e = q) (timers w))) as n eqn:Hn.
  revert w Hn. induction n as [|n IH]; intros w Hn Hq.
  - symmetry in Hn. apply length_zero_iff_nil in Hn. rewrite Hn. simpl.
    unfold skip. f_equal. rewrite filter_none_id by done. by destruct w.
  - destruct (filter (λ e, target e = q) (timers w)) as [|e l'] eqn:Hl;
      [done|].
    destruct (take_first_filter _ _ _ _ Hl) as (rest & Htf & Hrest).
    change (replicate (S n) (OpReap q))
      with (OpReap q :: replicate n (OpReap q)).
    set (w1 := set_env (destructor (entry_task e) (env w))
                       (set_timers rest w)).
    assert (Hstep : step (OpReap q) w
                    = (w1, deletion ByDelay (entry_task e)))
      by (cbn [step]; unfold reap; by rewrite Hq, Htf).
    rewrite run_cons, Hstep. cbn [fst snd].
    assert (Hl1 : filter (λ e, target e = q) (timers w1) = l') by done.
    rewrite (IH w1) by (by rewrite ?Hl1; simpl in Hn; try lia).
    rewrite Hl1. cbn [fst snd]. f_equal. unfold w1. simpl.
    unfold set_env, set_timers. simpl. f_equal.
    by rewrite (take_first_others _ _ _ _ _ (λ x H, H) Htf).
Qed.

Lemma fire_all (q : QueueId) (w : World) :
  queues w !! q = None →
  run (replicate (length (filter (λ e, target e = q ∧ due w e) (timers w)))
                 (OpFire q)) w
  = (set_env (dispose_all (filter (λ e, target e = q ∧ due w e) (timers w))
                          (env w))
       (set_timers (filter (λ e, ¬ (target e = q ∧ due w e)) (timers w)) w),
     filter (λ e, target e = q ∧ due w e) (timers w)
       ≫= λ e, deletion ByDelay (entry_task e)).
Proof.
  remember (length (filter (λ e, target e = q ∧ due w e) (timers w)))
    as n eqn:Hn.
  revert w Hn. induction n as [|n IH]; intros w Hn Hq.
  - symmetry in Hn. apply length_zero_iff_nil in Hn. rewrite Hn. simpl.
    unfold skip. f_equal. rewrite filter_none_id by done. by destruct w.
  - destruct (filter (λ e, target e = q ∧ due w e) (timers w))
      as [|e l'] eqn:Hl; [done|].
    destruct (take_first_filter _ _ _ _ Hl) as (rest & Htf & Hrest).
    change (replicate (S n) (OpFire q))
      with (OpFire q :: replicate n (OpFire q)).
    set (w1 := set_env (destructor (entry_task e) (env w))
                       (set_timers rest w)).
    assert (Hstep : step (OpFire q) w
                    = (w1, deletion ByDelay (entry_task e)))
      by (cbn [step]; unfold fire; by rewrite Hq, Htf).
    rewrite run_cons, Hstep. cbn [fst snd].
    assert (Hl1 : filter (λ e, target e = q ∧ due w1 e) (timers w1) = l')
      by done.
    rewrite (IH w1) by (by rewrite ?Hl1; simpl in Hn; try lia).
    rewrite Hl1. cbn [fst snd]. f_equal. unfold w1. simpl.
    unfold set_env, set_timers. simpl. f_equal.
    by rewrite (take_first_others _ (λ e, ¬ (target e = q ∧ due w e))
                  _ _ _ (λ x H, H) Htf).
Qed.

(** *** A delayed task does not run before its time *)

Lemma discard_all_now q its w : now (discard_all q its w).1 = now w.
Proof.
  revert w. induction its as [|it rest IH]; intros w; [done|].
  simpl. rewrite !chain_unfold. simpl. by rewrite IH.
Qed.

Lemma teardown_now q w : now (teardown q w).1 = now w.
Proof.
  unfold teardown. destruct (queues w !! q); [|done].
  by rewrite discard_all_now.
Qed.

Lemma finish_now q fr w : now (finish q fr w).1 = now w.
Proof.
  unfold finish. rewrite !chain_unfold. cbn [emit fst snd].
  assert (Hdr : ∀ it w0, now (delete_ran q it w0).1 = now w0)
    by (intros; unfold delete_ran; by destruct cleanup_after_run).
  destruct (frame_last fr), (frame_result fr); cbn [skip fst];
    by rewrite ?teardown_now, ?Hdr.
Qed.

Section Asleep.

Variable q : QueueId.
Variable p : TaskPtr.
Variable t : nat.

(** Only delayed entries hold the task, on behalf of the queue, none of
    which fires before [t]. *)
Definition dormant (w : World) : Prop :=
  p < next_ptr w ∧
  (∀ q' pend, queues w !! q' = Some pend → p ∉ pend.*1) ∧
  (∀ q' fr, running w !! q' = Some fr → (frame_task fr).1 ≠ p) ∧
  (∀ e, e ∈ timers w → (entry_task e).1 = p →
        target e = q ∧ t ≤ fire_time e).

Lemma dormant_held w : dormant w → held_by_delay q p w.
Proof.
  intros (Hp & Hc & Hf & Htm). split; [done|]. split; [done|].
  split; [done|]. intros e He Hit. by apply Htm.
Qed.

(** The run path of the task is entered. *)
Definition enters (e : Event) : Prop :=
  match e with
  | Started _ _ it | Executed _ it | Returned _ it _ => it.1 = p
  | Invoked it role => it.1 = p ∧ role = RunCallable
  | _ => False
  end.

(** The clock does not go back, and as long as it reads less than [t],
    up to the leeway of the timer, the task stays where it is. *)
Definition rests (w : World) (evs : list Event) (w' : World) : Prop :=
  now w ≤ now w' ∧
  (dormant w → now w' + leeway < t →
   dormant w' ∧ Forall (λ e, ¬ enters e) evs).

Lemma unentered evs :
  Forall (λ e, ¬ mentions p e) evs → Forall (λ e, ¬ enters e) evs.
Proof.
  intros H. eapply Forall_impl; [exact H|].
  intros e He. destruct e; simpl in *; tauto.
Qed.

Lemma unentered_deletion by_ it :
  Forall (λ e, ¬ enters e) (deletion by_ it).
Proof. unfold deletion. destruct it.2; each_event. Qed.

Lemma rests_skip w : rests w [] w.
Proof. split; [done|]. by intros. Qed.

Lemma rests_seq w e1 w1 e2 w2 :
  rests w e1 w1 → rests w1 e2 w2 → rests w (e1 ++ e2) w2.
Proof.
  intros [Hn1 H1] [Hn2 H2]. split; [lia|]. intros Hd Ht.
  destruct (H1 Hd ltac:(lia)) as [Hd1 He1].
  destruct (H2 Hd1 Ht) as [Hd2 He2].
  split; [done | by apply Forall_app].
Qed.

Lemma rests_quietly w evs w' :
  now w' = now w →
  (dormant w →
   next_ptr w ≤ next_ptr w' ∧
   (∀ q' pend', queues w' !! q' = Some pend' → p ∉ pend'.*1) ∧
   (∀ q' fr', running w' !! q' = Some fr' → (frame_task fr').1 ≠ p) ∧
   (∀ e, e ∈ timers w' → e ∈ timers w ∨ (entry_task e).1 ≠ p) ∧
   Forall (λ e, ¬ enters e) evs) →
  rests w evs w'.
Proof.
  intros Hn H. split; [lia|]. intros Hd _.
  destruct (H Hd) as (Hp' & Hc' & Hf' & Ht' & Hev).
  destruct Hd as (Hp & Hc & Hf & Htm).
  split; [|done]. split; [lia|]. split; [done|]. split; [done|].
  intros e He Hit. destruct (Ht' e He) as [Hin|Hne]; [by apply Htm | done].
Qed.

Lemma rests_assume w evs w' :
  now w ≤ now w' → (dormant w → rests w evs w') → rests w evs w'.
Proof.
  intros Hn H. split; [done|]. intros Hd. by apply (H Hd).
Qed.

Lemma rests_deliver q0 it w :
  it.1 ≠ p → rests w (deliver q0 it w).2 (deliver q0 it w).1.
Proof.
  intros Hit. unfold deliver.
  destruct (queues w !! q0) as [pend|] eqn:Hq0.
  - destruct (decide (length pend < capacity)); cbn [fst snd].
    + apply rests_quietly; [done|]. intros Hd.
      pose proof Hd as (Hp & Hc & Hf & Htm).
      split; [done|]. split; [|split; [done|split; [by left|each_event]]].
      intros q' pend'. simpl. rewrite lookup_insert.
      destruct (decide (q0 = q')) as [->|]; [|apply Hc].
      intros [= <-]. rewrite fmap_app, elem_of_app.
      intros [Hin|Hin]; [by eapply Hc|].
      apply list_elem_of_singleton in Hin. simpl in Hin. congruence.
    + rewrite chain_unfold. cbn [emit delete_task fst snd].
      apply rests_quietly; [done|]. intros Hd.
      pose proof Hd as (Hp & Hc & Hf & Htm).
      split; [done|]. split; [done|]. split; [done|]. split; [by left|].
      apply Forall_cons_2; [simpl; tauto | apply unentered_deletion].
  - rewrite chain_unfold. cbn [emit delete_task fst snd].
    apply rests_quietly; [done|]. intros Hd.
    pose proof Hd as (Hp & Hc & Hf & Htm).
    split; [done|]. split; [done|]. split; [done|]. split; [by left|].
    apply Forall_cons_2; [simpl; tauto | apply unentered_deletion].
Qed.

Lemma rests_schedule q0 it d w :
  it.1 ≠ p → rests w (schedule q0 it d w).2 (schedule q0 it d w).1.
Proof.
  intros Hit. apply rests_quietly; [done|]. intros Hd.
  pose proof Hd as (Hp & Hc & Hf & Htm).
  split; [done|]. split; [done|]. split; [done|]. split; [|each_event].
  simpl. intros e [->|He]%elem_of_insert_entry; [by right | by left].
Qed.

Lemma rests_alloc w evs w' :
  rests (set_next_ptr (S (next_ptr w)) w) evs w' → rests w evs w'.
Proof.
  intros [Hn H]. split; [done|]. intros (Hp & Hc & Hf & Htm) Ht.
  apply H; [|done]. split; [simpl; lia | done].
Qed.

Lemma deliver_now q0 it w : now (deliver q0 it w).1 = now w.
Proof.
  unfold deliver. destruct (queues w !! q0) as [pend|]; [|done].
  by destruct (decide (length pend < capacity)).
Qed.

Lemma exec_stmt_now ctx s w : now (exec_stmt ctx s w).1 = now w.
Proof.
  destruct s as [f|q0 t0|q0 t0 d]; cbn [exec_stmt]; [done|..].
  - unfold post_task. destruct t0 as [task|]; simpl.
    + by rewrite deliver_now.
    + destruct ctx as [[q1 it]|]; [by rewrite deliver_now | done].
  - unfold post_delayed_task. destruct t0 as [task|]; cbn [resolve];
      [done|]. by destruct ctx as [[q1 it]|].
Qed.

Lemma rests_exec ctx s w :
  caller_in ctx w → rests w (exec_stmt ctx s w).2 (exec_stmt ctx s w).1.
Proof.
  intros Hctx. apply rests_assume; [by rewrite exec_stmt_now|].
  intros Hd. pose proof Hd as (Hp & Hc & Hf & Htm).
  assert (Hthis : ∀ q0 it, ctx = Some (q0, it) → it.1 ≠ p).
  { intros q0 it ->. destruct Hctx as (fr & Hfr & <-). by eapply Hf. }
  destruct s as [f|q0 t0|q0 t0 d]; cbn [exec_stmt].
  - apply rests_quietly; [done|]. intros _.
    split; [done|]. split; [done|]. split; [done|]. by split; [left|].
  - unfold post_task. destruct t0 as [task|]; simpl.
    + apply rests_alloc, rests_deliver. simpl. lia.
    + destruct ctx as [[q1 it]|]; [|apply rests_skip].
      apply rests_deliver. by eapply Hthis.
  - unfold post_delayed_task. destruct t0 as [task|]; cbn [resolve].
    + apply rests_alloc, rests_schedule. simpl. lia.
    + destruct ctx as [[q1 it]|]; [|apply rests_skip].
      apply rests_schedule. by eapply Hthis.
Qed.

Lemma unentered_discards q0 (pend : list Item) :
  p ∉ pend.*1 →
  Forall (λ e, ¬ enters e)
         (pend ≫= λ it, Discarded q0 it :: deletion (ByQueue q0) it).
Proof. intros Hp. by apply unentered, unmentioned_discards. Qed.

Lemma rests_teardown q0 w : rests w (teardown q0 w).2 (teardown q0 w).1.
Proof.
  apply rests_quietly.
  - apply teardown_now.
  - intros (Hp & Hc & Hf & Htm). split; [by rewrite teardown_next_ptr|].
    split; [|split; [|split]].
    + intros q' pend'. rewrite teardown_queues, lookup_delete.
      destruct (decide _); [done | apply Hc].
    + intros q' fr'. rewrite teardown_running. apply Hf.
    + rewrite teardown_timers. by left.
    + rewrite teardown_events. unfold pending.
      destruct (queues w !! q0) as [pend|] eqn:Hq0; [|done]. simpl.
      apply unentered_discards. by eapply Hc.
Qed.

(** Nothing enters the run path of the task before its time. *)
Lemma rests_run (ops : list Op) : respects rests (run ops).
Proof.
  apply respects_all.
  - apply rests_skip.
  - apply rests_seq.
  - intros ctx s w. apply rests_exec.
  - intros q0 w _. unfold begin.
    destruct (queues w !! q0) as [[|it rest]|] eqn:Hq0;
      try apply rests_skip.
    apply rests_quietly; [done|]. intros (Hp & Hc & Hf & Htm).
    assert (Hit : it.1 ≠ p).
    { intros Heq. apply (Hc q0 _ Hq0). rewrite fmap_cons, <- Heq. by left. }
    split; [done|]. split; [|split; [|split; [by left|]]].
    + intros q' pend'. simpl. rewrite lookup_insert.
      destruct (decide (q0 = q')) as [->|]; [|apply Hc].
      intros [= <-]. intros Hin. apply (Hc q' _ Hq0).
      rewrite fmap_cons. by right.
    + intros q' fr'. simpl. rewrite lookup_insert.
      destruct (decide (q0 = q')) as [->|]; [|apply Hf]. by intros [= <-].
    + apply unentered. simpl.
      apply Forall_cons_2; [done | by apply unmentioned_invocation].
  - intros q0 fr s rest w Hfr Htodo. apply rests_quietly; [done|].
    intros (Hp & Hc & Hf & Htm).
    split; [done|]. split; [done|]. split; [|split; [by left|]].
    + intros q' fr'. simpl. rewrite lookup_insert.
      destruct (decide (q0 = q')) as [->|]; [|apply Hf].
      intros [= <-]. simpl. by eapply Hf.
    + apply Forall_cons_2; [|done]. simpl. by eapply Hf.
  - intros q0 fr w Hfr _. apply rests_quietly; [apply finish_now|].
    intros (Hp & Hc & Hf & Htm). pose proof (Hf _ _ Hfr) as Hit.
    split; [by rewrite finish_next_ptr|]. split; [|split; [|split]].
    + intros q' pend'. rewrite finish_queues.
      destruct (frame_last fr); [|apply Hc].
      rewrite lookup_delete. destruct (decide _); [done | apply Hc].
    + intros q' fr'. rewrite finish_running, lookup_delete.
      destruct (decide _); [done | apply Hf].
    + rewrite finish_timers. by left.
    + rewrite finish_events. apply Forall_cons_2; [done|].
      apply Forall_app. split.
      * destruct (frame_result fr); [|done].
        destruct cleanup_after_run; [apply unentered_deletion|each_event].
      * destruct (frame_last fr); [|done]. unfold pending.
        destruct (queues w !! q0) as [pend|] eqn:Hq0; [|done]. simpl.
        apply unentered_discards. by eapply Hc.
  - intros q0 w. unfold fire.
    destruct (take_first _ (timers w)) as [[e rest]|] eqn:Htf;
      [|apply rests_skip].
    pose proof (take_first_Some _ _ _ _ Htf) as ([Htg Hdue] & _ & _).
    pose proof (take_first_elem _ _ _ _ Htf) as [He Hin].
    destruct (queues w !! q0) as [pend|] eqn:Hq0.
    + destruct (running w !! q0) as [fr|] eqn:Hfr; [apply rests_skip|].
      split; [done|]. intros (Hp & Hc & Hf & Htm) Ht.
      assert (Hit : (entry_task e).1 ≠ p).
      { intros Heq. destruct (Htm e He Heq) as [_ Hfire].
        unfold due in Hdue. simpl in Ht. lia. }
      split.
      * split; [done|]. split; [done|]. split.
        -- intros q' fr'. simpl. rewrite lookup_insert.
           destruct (decide (q0 = q')) as [->|]; [|apply Hf].
           by intros [= <-].
        -- simpl. intros e' He'. apply Htm, Hin. by right.
      * apply unentered. simpl.
        apply Forall_cons_2; [done | by apply unmentioned_invocation].
    + split; [done|]. intros (Hp & Hc & Hf & Htm) Ht.
      split; [|apply unentered_deletion].
      split; [done|]. split; [done|]. split; [done|].
      simpl. intros e' He'. apply Htm, Hin. by right.
  - intros q0 w. unfold reap.
    destruct (queues w !! q0); [apply rests_skip|].
    destruct (take_first _ (timers w)) as [[e rest]|] eqn:Htf;
      [|apply rests_skip].
    pose proof (take_first_elem _ _ _ _ Htf) as [He Hin].
    split; [done|]. intros (Hp & Hc & Hf & Htm) Ht.
    split; [|apply unentered_deletion].
    split; [done|]. split; [done|]. split; [done|].
    simpl. intros e' He'. apply Htm, Hin. by right.
  - intros q0 w. unfold destroy.
    destruct (running w !! q0) as [fr0|] eqn:Hfr0; [|apply rests_teardown].
    apply rests_quietly; [done|]. intros (Hp & Hc & Hf & Htm).
    split; [done|]. split; [done|]. split; [|split; [by left|each_event]].
    intros q' fr'. simpl. rewrite lookup_alter.
    destruct (decide (q0 = q')) as [->|]; [|apply Hf].
    destruct (running w !! q') as [fr|] eqn:Hfr; [|done].
    intros [= <-]. simpl. by eapply Hf.
  - intros dt w. split; [simpl; lia|]. intros Hd _. by split.
Qed.

End Asleep.

(** Every task object of the world has been allocated. *)
Definition fresh (w : World) : Prop :=
  (∀ q pend, queues w !! q = Some pend → ∀ it, it ∈ pend → it.1 < next_ptr w) ∧
  (∀ q fr, running w !! q = Some fr → (frame_task fr).1 < next_ptr w) ∧
  (∀ e, e ∈ timers w → (entry_task e).1 < next_ptr w).

(** A task that has just been posted with a delay is held by its delayed
    entry alone. *)
Lemma post_delayed_dormant q task d w :
  fresh w →
  dormant q (next_ptr w) (now w + d)
          (step (OpPostDelayedTask q task d) w).1.
Proof.
  intros (Hc & Hf & Ht). simpl. split; [simpl; lia|].
  split; [|split].
  - intros q' pend Hq' ((p' & task') & Heq & Hin)%list_elem_of_fmap.
    simpl in *. specialize (Hc _ _ Hq' _ Hin). simpl in Hc. lia.
  - intros q' fr Hfr Heq. specialize (Hf _ _ Hfr). simpl in *. lia.
  - simpl. intros e [->|He]%elem_of_insert_entry Heq; [by split|].
    specialize (Ht _ He). lia.
Qed.

Lemma post_delayed_held q task d w :
  fresh w →
  held_by_delay q (next_ptr w) (step (OpPostDelayedTask q task d) w).1.
Proof.
  intros Hfresh. apply (dormant_held q (next_ptr w) (now w + d)).
  by apply post_delayed_dormant.
Qed.

(** It stays there, whatever happens, as long as the clock reads less
    than its fire time, up to the leeway of the timer. *)
Lemma pending_until_due q task d w ops :
  fresh w →
  now (run (OpPostDelayedTask q task d :: ops) w).1 + leeway < now w + d →
  held_by_delay q (next_ptr w)
                (run (OpPostDelayedTask q task d :: ops) w).1.
Proof.
  intros Hfresh. rewrite run_cons. cbn [fst]. intros Ht.
  pose proof (post_delayed_dormant q task d w Hfresh) as Hd.
  destruct (rests_run q (next_ptr w) (now w + d) ops
              (step (OpPostDelayedTask q task d) w).1) as [_ Hrest].
  apply (dormant_held q (next_ptr w) (now w + d)).
  by destruct (Hrest Hd Ht).
Qed.

(** *** What a worker that is left alone computes *)

Lemma set_env_env (w : World) : set_env (env w) w = w.
Proof. by destruct w. Qed.

(** [Run] returns while no destructor is waiting. *)
Lemma finish_plain q fr w :
  frame_last fr = false →
  finish q fr w
  = if frame_result fr
    then ((delete_ran q (frame_task fr)
             (set_running (delete q (running w)) w)).1,
          Returned q (frame_task fr) true
            :: (delete_ran q (frame_task fr)
                  (set_running (delete q (running w)) w)).2)
    else (set_running (delete q (running w)) w,
          [Returned q (frame_task fr) false]).
Proof.
  intros Hlast. unfold finish. rewrite !chain_unfold. cbn [emit fst snd].
  rewrite Hlast. destruct (frame_result fr); cbn [skip fst snd].
  - by rewrite app_nil_r.
  - done.
Qed.

(** A posting statement of a running task, while the target has room. *)
Lemma worker_posts q w fr q2 t rest pend2 it w1 :
  running w !! q = Some fr → frame_todo fr = PostTask q2 t :: rest →
  resolve (Some (q, frame_task fr)) t w = Some (it, w1) →
  queues w !! q2 = Some pend2 → length pend2 < capacity →
  step (OpWorker q) w
  = (set_queues (<[q2 := pend2 ++ [it]]> (queues w))
       (set_running (<[q := advance_frame fr]> (running w)) w1),
     [Executed q (frame_task fr); Posted q2 it]).
Proof.
  intros Hfr Htodo Hres Hq2 Hroom. cbn [step]. unfold worker_step.
  rewrite Hfr, Htodo. unfold proceed. rewrite chain_unfold.
  cbn [emit fst snd exec_stmt]. unfold post_task.
  destruct t as [task|]; simpl in Hres |- *.
  - injection Hres as <- <-. unfold deliver. simpl.
    rewrite Hq2. by rewrite decide_True.
  - injection Hres as <- <-. unfold deliver. simpl.
    rewrite Hq2. by rewrite decide_True.
Qed.

(** Statements that only update the captured state. *)
Definition is_effect (s : Stmt) : Prop :=
  match s with
  | Effect _ => True
  | _ => False
  end.

Definition apply_effects (q : QueueId) (body : list Stmt) (e : Env) : Env :=
  foldl (λ e s, stmt_effect q s e) e body.

Lemma exec_effects q it body w :
  Forall is_effect body →
  exec q it body w
  = (set_env (apply_effects q body (env w)) w,
     replicate (length body) (Executed q it)).
Proof.
  intros Hb. revert w. induction Hb as [|s body Hs _ IH]; intros w.
  - simpl. unfold skip. by rewrite set_env_env.
  - destruct s as [f| |]; try done. simpl.
    rewrite !chain_unfold. cbn [emit effect exec_stmt fst snd].
    by rewrite IH.
Qed.

(** The closure of a task of the closure adapter. *)
Definition closure_of (task : QueuedTask) : list Stmt :=
  match task with
  | ClosureTask closure | ClosureTaskWithCleanup closure _ => closure
  | CustomTask _ => []
  end.

(** A closure without a cleanup callable that only updates the captured
    state. *)
Definition plain (it : Item) : Prop :=
  ∃ closure, it.2 = ClosureTask closure ∧ Forall is_effect closure.

Definition trace (q : QueueId) (via : Via) (it : Item) : list Event :=
  Started q via it :: Invoked it RunCallable
  :: replicate (length (closure_of it.2)) (Executed q it)
  ++ [Returned q it true; Deleted (ByQueue q) it].

Lemma complete_plain q it w e0 :
  plain it →
  complete q (new_frame it e0) w
  = (set_env (apply_effects q (closure_of it.2) (env w))
       (set_running (delete q (running w)) w),
     replicate (length (closure_of it.2)) (Executed q it)
     ++ [Returned q it true; Deleted (ByQueue q) it]).
Proof.
  intros (closure & Hit & Hpure). unfold complete, new_frame.
  destruct it as [p task]. simpl in Hit. subst task. simpl.
  rewrite chain_unfold, exec_effects by done. cbn [fst snd].
  rewrite finish_plain by done. simpl.
  unfold delete_ran, delete_task, destructor, deletion.
  destruct cleanup_after_run; simpl; done.
Qed.

(** An idle worker takes a plain task and runs it to the end. *)
Lemma worker_runs_plain q w it rest :
  running w !! q = None → queues w !! q = Some (it :: rest) → plain it →
  run (replicate (S (S (length (closure_of it.2)))) (OpWorker q)) w
  = (set_env (apply_effects q (closure_of it.2) (env w))
       (set_queues (<[q := rest]> (queues w)) w),
     trace q Immediate it).
Proof.
  intros Hidle Hq Hplain.
  pose proof (worker_runs_task q w it rest Hidle Hq) as Hrun.
  assert (Hlen : length (Run it.2 (env w)).1 = length (closure_of it.2)).
  { destruct Hplain as (closure & Hit & _). by rewrite Hit. }
  rewrite Hlen in Hrun. rewrite Hrun, chain_unfold.
  unfold begin at 1 2 3. rewrite Hq. cbn [start_task fst snd].
  rewrite complete_plain by done. cbn [fst snd]. f_equal.
  - simpl. rewrite delete_insert_eq, delete_id by done.
    by destruct w.
  - unfold trace, invocation. destruct Hplain as (closure & Hit & _).
    by rewrite Hit.
Qed.

(** It runs all the plain tasks of its channel, one after the other, in
    the order of the channel. *)
Definition apply_tasks (q : QueueId) (its : list Item) (e : Env) : Env :=
  foldl (λ e it, apply_effects q (closure_of it.2) e) e its.

Definition worker_steps (q : QueueId) (its : list Item) : list Op :=
  its ≫= λ it, replicate (S (S (length (closure_of it.2)))) (OpWorker q).

Lemma worker_runs_all q its w :
  running w !! q = None → queues w !! q = Some its → Forall plain its →
  run (worker_steps q its) w
  = (set_env (apply_tasks q its (env w))
       (set_queues (<[q := []]> (queues w)) w),
     its ≫= trace q Immediate).
Proof.
  intros Hidle Hq Hplain. revert w Hidle Hq.
  induction Hplain as [|it its Hit _ IH]; intros w Hidle Hq.
  - simpl. unfold skip. rewrite insert_id by done. by destruct w.
  - unfold worker_steps. rewrite bind_cons, run_app.
    rewrite (worker_runs_plain q w it its) by done. cbn [fst snd].
    fold (worker_steps q its). rewrite IH; [|done|simpl; apply lookup_insert_eq].
    cbn [fst snd]. rewrite bind_cons. f_equal. simpl.
    by rewrite insert_insert_eq.
Qed.

(** Tasks posted one after the other by a thread that is no worker are
    appended to the channel in that order, as long as there is room. *)
Definition post_all (q : QueueId) (tasks : list QueuedTask) : list Op :=
  OpPostTask q <$> tasks.

Definition number (n : TaskPtr) (tasks : list QueuedTask) : list Item :=
  imap (λ i task, (n + i, task)) tasks.

Lemma post_all_run q tasks w pend :
  queues w !! q = Some pend → length pend + length tasks ≤ capacity →
  run (post_all q tasks) w
  = (set_next_ptr (next_ptr w + length tasks)
       (set_queues (<[q := pend ++ number (next_ptr w) tasks]> (queues w)) w),
     Posted q <$> number (next_ptr w) tasks).
Proof.
  revert w pend. induction tasks as [|task tasks IH]; intros w pend Hq Hroom.
  - simpl. unfold skip. rewrite app_nil_r, insert_id by done.
    rewrite Nat.add_0_r. by destruct w.
  - simpl in Hroom. unfold post_all. rewrite fmap_cons, run_cons.
    fold (post_all q tasks). cbn [step]. unfold post_task. cbn [resolve].
    unfold deliver. simpl. rewrite Hq.
    rewrite decide_True by lia. cbn [fst snd].
    rewrite (IH _ (pend ++ [(next_ptr w, task)]));
      [|simpl; apply lookup_insert_eq|rewrite length_app; simpl; lia].
    unfold number. simpl. rewrite Nat.add_0_r.
    assert (Hn : imap (λ i task0, (S (next_ptr w + i), task0)) tasks
                 = imap ((λ i task0, (next_ptr w + i, task0)) ∘ S) tasks).
    { apply imap_ext. intros i x _. simpl. f_equal. lia. }
    rewrite Hn. f_equal.
    rewrite insert_insert_eq, <- app_assoc. simpl.
    unfold set_next_ptr, set_queues. simpl. f_equal. lia.
Qed.

(** The worker turns to a delayed task that is due. *)
Lemma fire_starts q w e rest pend :
  queues w !! q = Some pend → running w !! q = None →
  take_first (λ e, target e = q ∧ due w e) (timers w) = Some (e, rest) →
  step (OpFire q) w
  = (set_running (<[q := new_frame (entry_task e) (env w)]> (running w))
       (set_timers rest w),
     Started q Delayed (entry_task e) :: invocation (entry_task e)).
Proof.
  intros Hq Hidle Htf. cbn [step]. unfold fire. by rewrite Htf, Hq, Hidle.
Qed.

Lemma fire_runs_task q w e rest pend :
  queues w !! q = Some pend → running w !! q = None →
  take_first (λ e, target e = q ∧ due w e) (timers w) = Some (e, rest) →
  run (OpFire q
       :: replicate (S (length (Run (entry_task e).2 (env w)).1))
                    (OpWorker q)) w
  = (start_task q Delayed (entry_task e) ;;;
     complete q (new_frame (entry_task e) (env w))) (set_timers rest w).
Proof.
  intros Hq Hidle Htf. rewrite run_cons.
  rewrite (fire_starts q w e rest pend) by done. cbn [fst snd].
  rewrite (worker_completes q _ (new_frame (entry_task e) (env w)))
    by (simpl; apply lookup_insert_eq).
  rewrite chain_unfold. by cbn [start_task fst snd].
Qed.

Lemma fire_runs_plain q w e rest pend :
  queues w !! q = Some pend → running w !! q = None →
  take_first (λ e, target e = q ∧ due w e) (timers w) = Some (e, rest) →
  plain (entry_task e) →
  run (OpFire q
       :: replicate (S (length (closure_of (entry_task e).2))) (OpWorker q))
      w
  = (set_env (apply_effects q (closure_of (entry_task e).2) (env w))
       (set_timers rest w),
     trace q Delayed (entry_task e)).
Proof.
  intros Hq Hidle Htf Hplain.
  pose proof (fire_runs_task q w e rest pend Hq Hidle Htf) as Hrun.
  assert (Hlen : length (Run (entry_task e).2 (env w)).1
                 = length (closure_of (entry_task e).2)).
  { destruct Hplain as (closure & Hit & _). by rewrite Hit. }
  rewrite Hlen in Hrun. rewrite Hrun, chain_unfold.
  cbn [start_task fst snd]. rewrite complete_plain by done.
  cbn [fst snd]. f_equal.
  - simpl. rewrite delete_insert_eq, delete_id by done. by destruct w.
  - unfold trace, invocation. destruct Hplain as (closure & Hit & _).
    by rewrite Hit.
Qed.

(** When the delayed entries are all due, on behalf of one queue, and
    hold plain tasks, the worker runs them all, in the order of the
    entries. *)
Definition fire_steps (q : QueueId) (es : list DelayedEntry) : list Op :=
  es ≫= λ e, OpFire q
             :: replicate (S (length (closure_of (entry_task e).2)))
                          (OpWorker q).

Lemma fire_runs_all q es w pend :
  timers w = es → queues w !! q = Some pend → running w !! q = None →
  Forall (λ e, target e = q ∧ due w e ∧ plain (entry_task e)) es →
  run (fire_steps q es) w
  = (set_env (apply_tasks q (entry_task <$> es) (env w)) (set_timers [] w),
     es ≫= λ e, trace q Delayed (entry_task e)).
Proof.
  intros Ht Hq Hidle Hes. revert w Ht Hq Hidle Hes.
  induction es as [|e es IH]; intros w Ht Hq Hidle Hes.
  - simpl. unfold skip. rewrite <- Ht. by destruct w.
  - apply Forall_cons in Hes as [(Htg & Hdue & Hplain) Hes].
    assert (Htf : take_first (λ e, target e = q ∧ due w e) (timers w)
                  = Some (e, es)).
    { rewrite Ht. simpl. by rewrite decide_True. }
    unfold fire_steps. rewrite bind_cons, run_app.
    rewrite (fire_runs_plain q w e es pend) by done. cbn [fst snd].
    fold (fire_steps q es). by rewrite IH.
Qed.

(** *** Paired closures *)

(** What happens when a paired closure is run and destroyed with its
    cleanup callable, from the world in which the worker starts it. *)
Definition ran_paired (q : QueueId) (via : Via) (it : Item)
    (closure : list Stmt) (cleanup : Env → Env) (w1 : World)
  : World * list Event :=
  let r := exec q it closure w1 in
  (set_env (cleanup (env r.1)) (set_running (delete q (running r.1)) r.1),
   Started q via it :: Invoked it RunCallable
   :: r.2 ++ [Returned q it true; Invoked it CleanupCallable;
              Deleted (ByQueue q) it]).

Section CleanupAfterRun.

(** The reading of TaskQueueTest.PostALot: the destruction of a paired
    closure invokes the cleanup callable, whether the closure ran or
    not. *)
Hypothesis destruction_cleans_up : cleanup_after_run = true.

Lemma start_paired q via it closure cleanup w1 :
  it.2 = ClosureTaskWithCleanup closure cleanup →
  (start_task q via it ;;; complete q (new_frame it (env w1))) w1
  = ran_paired q via it closure cleanup
      (set_running (<[q := new_frame it (env w1)]> (running w1)) w1).
Proof.
  intros Hit. rewrite chain_unfold. cbn [start_task fst snd].
  unfold complete, ran_paired, new_frame, invocation.
  destruct it as [p task]. simpl in Hit. subst task. simpl.
  rewrite chain_unfold.
  set (r := exec q _ closure _). cbn [fst snd].
  rewrite finish_plain by done. simpl.
  unfold delete_ran. rewrite destruction_cleans_up. by simpl.
Qed.

(** The worker takes a paired closure from the channel. *)
Lemma worker_runs_paired q w it rest closure cleanup :
  running w !! q = None → queues w !! q = Some (it :: rest) →
  it.2 = ClosureTaskWithCleanup closure cleanup →
  run (replicate (S (S (length closure))) (OpWorker q)) w
  = ran_paired q Immediate it closure cleanup
      (set_running (<[q := new_frame it (env w)]> (running w))
         (set_queues (<[q := rest]> (queues w)) w)).
Proof.
  intros Hidle Hq Hit.
  pose proof (worker_runs_task q w it rest Hidle Hq) as Hrun.
  assert (Hlen : length (Run it.2 (env w)).1 = length closure)
    by (by rewrite Hit).
  rewrite Hlen in Hrun. rewrite Hrun.
  rewrite chain_unfold. unfold begin at 1 2 3. rewrite Hq.
  cbn [start_task fst snd].
  pose proof (start_paired q Immediate it closure cleanup
                (set_queues (<[q := rest]> (queues w)) w) Hit) as Hs.
  rewrite chain_unfold in Hs. cbn [start_task fst snd] in Hs.
  exact Hs.
Qed.

(** The worker turns to a paired closure that was posted with a delay. *)
Lemma fire_runs_paired q w e rest pend closure cleanup :
  queues w !! q = Some pend → running w !! q = None →
  take_first (λ e, target e = q ∧ due w e) (timers w) = Some (e, rest) →
  (entry_task e).2 = ClosureTaskWithCleanup closure cleanup →
  run (OpFire q :: replicate (S (length closure)) (OpWorker q)) w
  = ran_paired q Delayed (entry_task e) closure cleanup
      (set_running (<[q := new_frame (entry_task e) (env w)]> (running w))
         (set_timers rest w)).
Proof.
  intros Hq Hidle Htf Hit.
  pose proof (fire_runs_task q w e rest pend Hq Hidle Htf) as Hrun.
  assert (Hlen : length (Run (entry_task e).2 (env w)).1 = length closure)
    by (by rewrite Hit).
  rewrite Hlen in Hrun. rewrite Hrun.
  exact (start_paired q Delayed (entry_task e) closure cleanup
           (set_timers rest w) Hit).
Qed.

(** In every execution a start is followed at once by the invocation of
    the run callable, and a [Run] that returns true by the destruction
    of the task, which for a paired closure invokes the cleanup
    callable. *)
Fixpoint closes (evs : list Event) : Prop :=
  match evs with
  | [] => True
  | Started q _ it :: rest => invocation it `prefix_of` rest ∧ closes rest
  | Returned q it true :: rest =>
      deletion (ByQueue q) it `prefix_of` rest ∧ closes rest
  | _ :: rest => closes rest
  end.

(** The closure adapter returns true from [Run]. *)
Definition is_closure (task : QueuedTask) : Prop :=
  match task with
  | CustomTask _ => False
  | _ => True
  end.

Definition frames_ok (w : World) : Prop :=
  ∀ q fr, running w !! q = Some fr →
          is_closure (frame_task fr).2 → frame_result fr = true.

Definition returns_ok (e : Event) : Prop :=
  match e with
  | Returned _ it r => is_closure it.2 → r = true
  | _ => True
  end.

Definition protocol (w : World) (evs : list Event) (w' : World) : Prop :=
  frames_ok w → frames_ok w' ∧ closes evs ∧ Forall returns_ok evs.

Lemma closes_quiet evs : Forall quiet evs → closes evs.
Proof.
  induction 1 as [|e evs He _ IH]; [done|]. by destruct e.
Qed.

Lemma returns_ok_quiet evs : Forall quiet evs → Forall returns_ok evs.
Proof.
  intros H. eapply Forall_impl; [exact H|]. intros e He. by destruct e.
Qed.

Lemma closes_app e1 e2 : closes e1 → closes e2 → closes (e1 ++ e2).
Proof.
  intros H1 H2. induction e1 as [|e e1 IH]; [done|].
  destruct e as [| | |q0 via it| | |q0 it []| | |]; simpl in *; auto.
  - destruct H1 as [Hp H1]. split; [by apply prefix_app_r | auto].
  - destruct H1 as [Hp H1]. split; [by apply prefix_app_r | auto].
Qed.

Lemma protocol_quiet w evs w' :
  running w' = running w → Forall quiet evs → protocol w evs w'.
Proof.
  intros Hr Hq Hok. split; [|split].
  - unfold frames_ok. by rewrite Hr.
  - by apply closes_quiet.
  - by apply returns_ok_quiet.
Qed.

Lemma protocol_seq w e1 w1 e2 w2 :
  protocol w e1 w1 → protocol w1 e2 w2 → protocol w (e1 ++ e2) w2.
Proof.
  intros H1 H2 Hok. destruct (H1 Hok) as (Hok1 & Hc1 & Hr1).
  destruct (H2 Hok1) as (Hok2 & Hc2 & Hr2).
  split; [done|]. split; [by apply closes_app | by apply Forall_app].
Qed.

Lemma new_frame_ok it e :
  is_closure it.2 → frame_result (new_frame it e) = true.
Proof. unfold new_frame. by destruct it.2. Qed.

Lemma protocol_start_task q via it w w0 :
  running w0 = running w →
  protocol w (start_task q via it w0).2 (start_task q via it w0).1.
Proof.
  intros Hr Hok. split; [|split].
  - intros q' fr'. cbn [start_task fst running set_running].
    rewrite lookup_insert, Hr.
    destruct (decide (q = q')) as [->|]; [|apply Hok].
    intros [= <-]. apply new_frame_ok.
  - split; [done|]. apply closes_quiet, quiet_invocation.
  - constructor; [done|]. apply returns_ok_quiet, quiet_invocation.
Qed.

Lemma teardown_quiet q w : Forall quiet (teardown q w).2.
Proof.
  unfold teardown. destruct (queues w !! q); [|done].
  apply discard_all_quiet.
Qed.

Lemma protocol_run (ops : list Op) : respects protocol (run ops).
Proof.
  apply respects_all.
  - intros w. by apply protocol_quiet.
  - apply protocol_seq.
  - intros ctx s w _. apply protocol_quiet;
      [apply exec_stmt_running | apply exec_stmt_quiet].
  - intros q w _. unfold begin.
    destruct (queues w !! q) as [[|it rest]|];
      try by apply protocol_quiet.
    by apply protocol_start_task.
  - intros q fr s rest w Hfr Htodo Hok. split; [|by split; [|each_event]].
    intros q' fr'. simpl. rewrite lookup_insert.
    destruct (decide (q = q')) as [->|]; [|apply Hok].
    intros [= <-]. simpl. by apply (Hok q' fr).
  - intros q fr w Hfr Htodo Hok. split; [|split].
    + intros q' fr'. rewrite finish_running, lookup_delete.
      destruct (decide _); [done | apply Hok].
    + rewrite finish_events, destruction_cleans_up.
      destruct (frame_result fr); simpl.
      * split; [by apply prefix_app_r|].
        apply closes_app; [apply closes_quiet, quiet_deletion|].
        apply closes_quiet. destruct (frame_last fr); [|done].
        rewrite <- teardown_events. apply teardown_quiet.
      * apply closes_quiet. destruct (frame_last fr); [|done].
        rewrite <- teardown_events. apply teardown_quiet.
    + rewrite finish_events. constructor; [simpl; intros Hc; by apply (Hok q fr)|].
      apply returns_ok_quiet. apply Forall_app. split.
      * destruct (frame_result fr); [|done].
        destruct cleanup_after_run; [apply quiet_deletion | each_event].
      * destruct (frame_last fr); [|done].
        rewrite <- teardown_events. apply teardown_quiet.
  - intros q w. unfold fire.
    destruct (take_first _ (timers w)) as [[e rest]|];
      [|by apply protocol_quiet].
    destruct (queues w !! q).
    + destruct (running w !! q); [by apply protocol_quiet|].
      by apply protocol_start_task.
    + apply protocol_quiet; [done | apply quiet_deletion].
  - intros q w. unfold reap.
    destruct (queues w !! q); [by apply protocol_quiet|].
    destruct (take_first _ (timers w)) as [[e rest]|];
      [|by apply protocol_quiet].
    apply protocol_quiet; [done | apply quiet_deletion].
  - intros q w. unfold destroy.
    destruct (running w !! q) as [fr|] eqn:Hfr.
    + intros Hok. split; [|by split; [|each_event]].
      intros q' fr'. simpl. rewrite lookup_alter.
      destruct (decide (q = q')) as [->|]; [|apply Hok].
      rewrite Hfr. intros [= <-]. simpl. by apply (Hok q' fr).
    + apply protocol_quiet; [apply teardown_running | apply teardown_quiet].
  - intros dt w. by apply protocol_quiet.
Qed.

End CleanupAfterRun.

(** Tasks posted with delays that grow from one to the next are entered
    in the delay scheduler in the order in which they are posted. *)
Lemma insert_entry_last (e : DelayedEntry) (l : list DelayedEntry) :
  Forall (λ x, fire_time x < fire_time e) l → insert_entry e l = l ++ [e].
Proof.
  induction 1 as [|x l Hx _ IH]; [done|]. simpl.
  unfold entry_before.
  rewrite bool_decide_eq_false_2 by lia.
  rewrite (bool_decide_eq_false_2 (fire_time e = fire_time x)) by lia.
  simpl. by rewrite IH.
Qed.

Definition post_batch (q : QueueId) (k : nat) (tasks : list QueuedTask)
  : list Op :=
  imap (λ i task, OpPostDelayedTask q task (k + i)) tasks.

Definition batch_entries (q : QueueId) (k : nat) (w : World)
    (tasks : list QueuedTask) : list DelayedEntry :=
  imap (λ i task, mkEntry (now w + (k + i)) (next_seq w + i) q
                          (next_ptr w + i, task)) tasks.

Lemma post_batch_run q k tasks w :
  Forall (λ e, fire_time e < now w + k) (timers w) →
  run (post_batch q k tasks) w
  = (set_next_seq (next_seq w + length tasks)
       (set_next_ptr (next_ptr w + length tasks)
          (set_timers (timers w ++ batch_entries q k w tasks) w)),
     (λ e, Scheduled q (entry_task e) (fire_time e))
       <$> batch_entries q k w tasks).
Proof.
  revert k w. induction tasks as [|task tasks IH]; intros k w Hts.
  - simpl. unfold skip. rewrite app_nil_r, !Nat.add_0_r. by destruct w.
  - unfold post_batch, batch_entries. rewrite !imap_cons, run_cons.
    cbn [step]. unfold post_delayed_task. cbn [resolve]. unfold schedule.
    cbn [fst snd now next_seq next_ptr timers set_next_ptr set_timers
         set_next_seq].
    rewrite insert_entry_last
      by (simpl; eapply Forall_impl; [exact Hts|]; simpl; intros; lia).
    assert (Hops : imap ((λ i task0, OpPostDelayedTask q task0 (k + i)) ∘ S)
                     tasks = post_batch q (S k) tasks).
    { apply imap_ext. intros i x _. simpl. f_equal. lia. }
    rewrite Hops, IH; clear IH.
    + cbn [fst snd now next_seq next_ptr timers set_next_ptr set_timers
           set_next_seq]. unfold batch_entries.
      assert (He : imap ((λ i task0,
                   mkEntry (now w + (k + i)) (next_seq w + i) q
                           (next_ptr w + i, task0)) ∘ S) tasks
                 = imap (λ i task0,
                   mkEntry (now w + (S k + i)) (S (next_seq w) + i) q
                           (S (next_ptr w) + i, task0)) tasks).
      { apply imap_ext. intros i x _. simpl. f_equal; [lia|lia|].
        f_equal. lia. }
      rewrite He, !Nat.add_0_r. rewrite <- app_assoc. simpl.
      f_equal. unfold set_next_seq, set_next_ptr, set_timers. simpl.
      f_equal; lia.
    + cbn [now timers set_next_ptr set_timers set_next_seq].
      apply Forall_app. split.
      * eapply Forall_impl; [exact Hts|]. simpl. intros. lia.
      * apply Forall_singleton. simpl. lia.
Qed.

Lemma batch_entries_tasks q k w tasks :
  entry_task <$> batch_entries q k w tasks = number (next_ptr w) tasks.
Proof.
  unfold batch_entries, number. rewrite fmap_imap.
  by apply imap_ext.
Qed.

(** A batch of plain tasks posted with the delays 0, 1, 2, ...: once the
    clock has reached the last fire time, up to the leeway of the timer,
    the worker runs them all, in the order in which they were posted. *)
Lemma batch_completes q tasks w pend dt :
  timers w = [] → queues w !! q = Some pend → running w !! q = None →
  Forall plain (number (next_ptr w) tasks) →
  length tasks ≤ S (dt + leeway) →
  let es := batch_entries q 0 w tasks in
  let r := run (post_batch q 0 tasks ++ OpAdvance dt :: fire_steps q es) w in
  env r.1 = apply_tasks q (number (next_ptr w) tasks) (env w) ∧
  timers r.1 = [] ∧
  r.2 = ((λ e, Scheduled q (entry_task e) (fire_time e)) <$> es)
        ++ (es ≫= λ e, trace q Delayed (entry_task e)).
Proof.
  intros Ht Hq Hidle Hplain Hlen es r. unfold r.
  rewrite run_app, post_batch_run by (rewrite Ht; constructor).
  rewrite Ht. cbn [fst snd app]. fold es. rewrite run_cons.
  cbn [step advance fst snd app].
  set (w2 := set_now _ _).
  rewrite (fire_runs_all q es w2 pend); try done.
  - cbn [fst snd]. split; [|done]. simpl. unfold es.
    by rewrite batch_entries_tasks.
  - apply Forall_lookup. intros i e He. unfold es, batch_entries in He.
    rewrite list_lookup_imap in He.
    destruct (tasks !! i) as [task|] eqn:Hi; [|done].
    simpl in He. injection He as <-. simpl.
    apply lookup_lt_Some in Hi as Hlt.
    split; [done|]. split; [unfold due; simpl; lia|].
    rewrite Forall_lookup in Hplain. apply (Hplain i).
    unfold number. by rewrite list_lookup_imap, Hi.
Qed.

(** The destructor of a queue gets the queue out of the way: at once, or
    when the worker has finished the task it is running. *)
Lemma destroy_completes q w :
  ∃ k, queues (run (OpDestroy q :: replicate k (OpWorker q)) w).1 !! q
       = None.
Proof.
  destruct (running w !! q) as [fr|] eqn:Hfr.
  - exists (S (length (frame_todo fr))). rewrite run_cons.
    assert (Hd : step (OpDestroy q) w
                 = (set_running (alter mark_last q (running w)) w,
                    [Stopping q]))
      by (cbn [step]; unfold destroy; by rewrite Hfr).
    rewrite Hd. cbn [fst snd].
    rewrite (worker_completes q _ (mark_last fr))
      by (simpl; by rewrite lookup_alter_eq, Hfr).
    unfold complete. rewrite chain_unfold. cbn [fst].
    rewrite finish_queues. simpl. apply lookup_delete_eq.
  - exists 0. rewrite run_cons. cbn [step run replicate skip fst].
    unfold destroy. rewrite Hfr, teardown_queues. apply lookup_delete_eq.
Qed.

(** The captured state after the destructor of a queue, and after a
    return from [Run]. *)
Definition destroy_tasks (its : list Item) (e : Env) : Env :=
  foldl (λ e it, destructor it e) e its.

Lemma discard_all_env q its w :
  env (discard_all q its w).1 = destroy_tasks its (env w).
Proof.
  revert w. induction its as [|it rest IH]; intros w; [done|].
  simpl. rewrite !chain_unfold. simpl. by rewrite IH.
Qed.

Lemma teardown_env q w :
  env (teardown q w).1 = destroy_tasks (pending q w) (env w).
Proof.
  unfold teardown, pending. destruct (queues w !! q); [|done].
  by rewrite discard_all_env.
Qed.

Lemma delete_ran_env q it w :
  env (delete_ran q it w).1
  = if cleanup_after_run then destructor it (env w) else env w.
Proof. unfold delete_ran. by destruct cleanup_after_run. Qed.

Lemma finish_env q fr w :
  env (finish q fr w).1
  = (if frame_last fr then destroy_tasks (pending q w) else id)
      (if frame_result fr && cleanup_after_run
       then destructor (frame_task fr) (env w) else env w).
Proof.
  unfold finish. rewrite !chain_unfold. cbn [emit fst snd].
  destruct (frame_last fr), (frame_result fr); cbn [skip fst andb];
    rewrite ?teardown_env, ?delete_ran_env, ?pending_delete_ran;
    by destruct cleanup_after_run.
Qed.

(** The worker of a queue that is gone has nothing to do. *)
Lemma worker_gone q k w :
  queues w !! q = None → running w !! q = None →
  run (replicate k (OpWorker q)) w = (w, []).
Proof.
  intros Hq Hidle. induction k as [|k IH]; [done|].
  change (replicate (S k) (OpWorker q))
    with (OpWorker q :: replicate k (OpWorker q)).
  rewrite run_cons.
  assert (Hs : step (OpWorker q) w = (w, []))
    by (cbn [step]; unfold worker_step, begin; by rewrite Hidle, Hq).
  rewrite Hs. cbn [fst snd]. by rewrite IH.
Qed.

(** After the destructor and enough steps of the worker to finish the
    running task the queue is gone and its worker with it. *)
Lemma destroy_finishes q k w :
  (∀ fr, running w !! q = Some fr → length (frame_todo fr) < k) →
  queues (run (OpDestroy q :: replicate k (OpWorker q)) w).1 !! q = None ∧
  running (run (OpDestroy q :: replicate k (OpWorker q)) w).1 !! q = None.
Proof.
  intros Hk. rewrite run_cons.
  destruct (running w !! q) as [fr|] eqn:Hfr.
  - assert (Hd : step (OpDestroy q) w
                 = (set_running (alter mark_last q (running w)) w,
                    [Stopping q]))
      by (cbn [step]; unfold destroy; by rewrite Hfr).
    rewrite Hd. cbn [fst snd]. specialize (Hk fr eq_refl).
    replace k with (S (length (frame_todo fr))
                    + (k - S (length (frame_todo fr)))) by lia.
    rewrite replicate_add, run_app.
    rewrite (worker_completes q _ (mark_last fr))
      by (simpl; by rewrite lookup_alter_eq, Hfr).
    set (w1 := (complete q (mark_last fr) _).1).
    assert (Hq1 : queues w1 !! q = None).
    { unfold w1, complete. rewrite chain_unfold. cbn [fst].
      rewrite finish_queues. simpl. apply lookup_delete_eq. }
    assert (Hr1 : running w1 !! q = None).
    { unfold w1. rewrite complete_running. apply lookup_delete_eq. }
    cbn [fst]. by rewrite worker_gone.
  - assert (Hq1 : queues (step (OpDestroy q) w).1 !! q = None).
    { cbn [step]. unfold destroy. rewrite Hfr, teardown_queues.
      apply lookup_delete_eq. }
    assert (Hr1 : running (step (OpDestroy q) w).1 !! q = None).
    { cbn [step]. unfold destroy. by rewrite Hfr, teardown_running. }
    by rewrite worker_gone.
Qed.

Lemma count_ptr_absent (p : TaskPtr) (l : list Item) :
  p ∉ l.*1 → count_ptr p l = 0.
Proof.
  induction l as [|it l IH]; [done|].
  rewrite fmap_cons, not_elem_of_cons. intros [Hne Hl].
  unfold count_ptr in *. rewrite filter_cons_False by (simpl; congruence).
  auto.
Qed.

(** ** The claims about the task queue *)

(** C1.  Tasks that one caller posts to a queue, one after the other and
    while the channel has room, are appended to the channel in that
    order.  Whatever happens next, in every interleaving of the threads
    of the system: the tasks leave the channel in the order in which the
    queue accepted them; the worker starts a task only when it is idle,
    executes the statements of that task only, and is idle again only
    when [Run] has returned; and the events, replayed from the tasks
    they name, give the captured state and what every worker is running.
    A worker that is left alone with plain tasks runs them in the order
    of submission: the captured state is the result of their closures,
    applied in that order.  A task that a running task posts to its own
    queue is appended behind the tasks that are pending at that moment,
    and no task starts on the queue before the running task returns. *)
Theorem tasks_run_in_submission_order (q : QueueId)
    (tasks : list QueuedTask) (w : World) (pend : list Item) :
  queues w !! q = Some pend →
  length pend + length tasks ≤ capacity →
  let posted := number (next_ptr w) tasks in
  let w1 := (run (post_all q tasks) w).1 in
  (run (post_all q tasks) w).2 = Posted q <$> posted ∧
  queues w1 !! q = Some (pend ++ posted) ∧
  (∀ ops : list Op,
     (pend ++ posted) ++ accepted q (run ops w1).2
     = consumed q (run ops w1).2 ++ pending q (run ops w1).1 ∧
     serial q (busy_with q w1) (run ops w1).2 ∧
     replay (run ops w1).2 (observe w1) = Some (observe (run ops w1).1)) ∧
  (running w !! q = None → pend = [] → Forall plain posted →
   let r := run (worker_steps q posted) w1 in
   env r.1 = apply_tasks q posted (env w) ∧
   r.2 = posted ≫= trace q Immediate ∧
   queues r.1 !! q = Some [] ∧ running r.1 !! q = None) ∧
  (∀ (w2 : World) (fr : Frame) (task : QueuedTask) (rest : list Stmt)
     (pend2 : list Item) (ops : list Op),
     running w2 !! q = Some fr →
     frame_todo fr = PostTask q (New task) :: rest →
     queues w2 !! q = Some pend2 → length pend2 < capacity →
     let r := step (OpWorker q) w2 in
     r.2 = [Executed q (frame_task fr); Posted q (next_ptr w2, task)] ∧
     queues r.1 !! q = Some (pend2 ++ [(next_ptr w2, task)]) ∧
     running r.1 !! q = Some (advance_frame fr) ∧
     serial q (Some (frame_task fr)) (run ops r.1).2).
Proof.
  intros Hq Hroom posted w1. unfold w1.
  rewrite (post_all_run q tasks w pend Hq Hroom). cbn [fst snd].
  fold posted. split; [done|]. split; [simpl; apply lookup_insert_eq|].
  split; [|split].
  - intros ops.
    set (w0 := set_next_ptr _ _).
    assert (Hp : pending q w0 = pend ++ posted).
    { unfold pending, w0. simpl. by rewrite lookup_insert_eq. }
    split; [|split].
    + rewrite <- Hp. apply fifo_run.
    + apply (one_at_a_time_run ops w0 q).
    + apply log_faithful.
  - intros Hidle -> Hplain. cbv zeta.
    rewrite (worker_runs_all q posted); [|done|simpl; apply lookup_insert_eq|done].
    cbn [fst snd]. split; [done|]. split; [done|]. split; [|done].
    simpl. apply lookup_insert_eq.
  - intros w2 fr task rest pend2 ops Hfr Htodo Hq2 Hroom2. cbv zeta.
    rewrite (worker_posts q w2 fr q (New task) rest pend2
               (next_ptr w2, task) (set_next_ptr (S (next_ptr w2)) w2))
      by done.
    cbn [fst snd]. split; [done|].
    split; [simpl; apply lookup_insert_eq|].
    split; [simpl; apply lookup_insert_eq|].
    set (w3 := set_queues _ _).
    assert (Hb : busy_with q w3 = Some (frame_task fr)).
    { unfold busy_with, w3. simpl. by rewrite lookup_insert_eq. }
    rewrite <- Hb. apply (one_at_a_time_run ops w3 q).
Qed.


(** C3, as amended.  Under the reading of TaskQueueTest.PostALot, in
    which the destruction of a paired closure invokes its cleanup
    callable: a paired closure that executes normally, taken from the
    channel or started by the delay scheduler, has its run callable
    invoked, the statements of the closure are executed, [Run] returns
    true, and the queue then destroys the task, which invokes the
    cleanup callable, once, on the captured state the closure left.  In
    every interleaving a start is followed at once by the invocation of
    the run callable, [Run] of a task of the closure adapter returns
    true, and a [Run] that returns true is followed at once by the
    destruction of the task with its cleanup callable. *)
Theorem paired_closure_runs_then_cleans_up (q : QueueId) (it : Item)
    (closure : list Stmt) (cleanup : Env → Env) :
  cleanup_after_run = true →
  it.2 = ClosureTaskWithCleanup closure cleanup →
  (∀ (w : World) (rest : list Item),
     running w !! q = None → queues w !! q = Some (it :: rest) →
     run (replicate (S (S (length closure))) (OpWorker q)) w
     = ran_paired q Immediate it closure cleanup
         (set_running (<[q := new_frame it (env w)]> (running w))
            (set_queues (<[q := rest]> (queues w)) w))) ∧
  (∀ (w : World) (e : DelayedEntry) (rest : list DelayedEntry)
     (pend : list Item),
     queues w !! q = Some pend → running w !! q = None →
     take_first (λ e, target e = q ∧ due w e) (timers w) = Some (e, rest) →
     entry_task e = it →
     run (OpFire q :: replicate (S (length closure)) (OpWorker q)) w
     = ran_paired q Delayed it closure cleanup
         (set_running (<[q := new_frame it (env w)]> (running w))
            (set_timers rest w))) ∧
  (∀ (ops : list Op) (w : World),
     frames_ok w →
     closes (run ops w).2 ∧ Forall returns_ok (run ops w).2 ∧
     replay (run ops w).2 (observe w) = Some (observe (run ops w).1)).
Proof.
  intros Hpolicy Hit. split; [|split].
  - intros w rest Hidle Hq. by apply worker_runs_paired.
  - intros w e rest pend Hq Hidle Htf <-.
    by apply (fire_runs_paired Hpolicy q w e rest pend).
  - intros ops w Hok.
    destruct (protocol_run Hpolicy ops w Hok) as (_ & Hc & Hr).
    split; [done|]. split; [done|]. apply log_faithful.
Qed.



End Model.

Abbreviation Item Env := (TaskPtr * QueuedTask Env)%type.

Arguments Effect {Env} f.
Arguments PostTask {Env} q t.
Arguments PostDelayedTask {Env} q t delay_ms.
Arguments New {Env} task.
Arguments This {Env}.
Arguments ClosureTask {Env} closure.
Arguments ClosureTaskWithCleanup {Env} closure cleanup.
Arguments CustomTask {Env} run.
Arguments Posted {Env} q it.
Arguments Dropped {Env} q it.
Arguments Scheduled {Env} q it fire_time.
Arguments Started {Env} q via it.
Arguments Invoked {Env} it role.
Arguments Executed {Env} q it.
Arguments Returned {Env} q it result.
Arguments Stopping {Env} q.
Arguments Discarded {Env} q it.
Arguments Deleted {Env} by_ it.
Arguments OpPostTask {Env} q task.
Arguments OpPostDelayedTask {Env} q task delay_ms.
Arguments OpWorker {Env} q.
Arguments OpFire {Env} q.
Arguments OpReap {Env} q.
Arguments OpDestroy {Env} q.
Arguments OpAdvance {Env} dt.
Arguments mkEntry {Env} fire_time sequence target entry_task.
Arguments fire_time {Env} d.
Arguments sequence {Env} d.
Arguments target {Env} d.
Arguments entry_task {Env} d.
Arguments mkFrame {Env} frame_task frame_todo frame_result frame_last.
Arguments frame_task {Env} f.
Arguments frame_todo {Env} f.
Arguments frame_result {Env} f.
Arguments frame_last {Env} f.
Arguments mkWorld {Env} env next_ptr queues running timers next_seq now.
Arguments env {Env} w.
Arguments next_ptr {Env} w.
Arguments queues {Env} w.
Arguments running {Env} w.
Arguments timers {Env} w.
Arguments next_seq {Env} w.
Arguments now {Env} w.
Arguments set_env {Env} e w.
Arguments set_next_ptr {Env} n w.
Arguments set_queues {Env} qs w.
Arguments set_running {Env} fs w.
Arguments set_timers {Env} ts w.
Arguments set_next_seq {Env} n w.
Arguments set_now {Env} n w.
Arguments pending {Env} q w.
Arguments new_world {Env} e qs.
Arguments skip {Env} w.
Arguments emit {Env} e w.
Arguments chain {Env} a b w.
Arguments destructor {Env} it e.
Arguments deletion {Env} by_ it.
Arguments delete_task {Env} by_ it w.
Arguments delete_ran {Env} cleanup_after_run q it w.
Arguments deliver {Env} capacity q it w.
Arguments post_task {Env} capacity ctx q t w.
Arguments post_delayed_task {Env} ctx q t delay_ms w.
Arguments exec_stmt {Env} capacity ctx s w.
Arguments Run {Env} task e.
Arguments invocation {Env} it.
Arguments new_frame {Env} it e.
Arguments advance_frame {Env} fr.
Arguments mark_last {Env} fr.
Arguments start_task {Env} q via it w.
Arguments begin {Env} q w.
Arguments proceed {Env} capacity q fr s w.
Arguments discard_all {Env} q its w.
Arguments teardown {Env} q w.
Arguments finish {Env} cleanup_after_run q fr w.
Arguments worker_step {Env} capacity cleanup_after_run q w.
Arguments due {Env} leeway w e.
Arguments fire {Env} leeway q w.
Arguments reap {Env} q w.
Arguments destroy {Env} q w.
Arguments advance {Env} dt w.
Arguments step {Env} capacity leeway cleanup_after_run o w.
Arguments run {Env} capacity leeway cleanup_after_run ops w.
Arguments respects {Env} R s.
Arguments replay {Env} evs o.
Arguments observe {Env} w.
Arguments accepted {Env} q evs.
Arguments consumed {Env} q evs.
Arguments serial {Env} q busy evs.
Arguments busy_with {Env} q w.
Arguments exec {Env} capacity q it body w.
Arguments complete {Env} capacity cleanup_after_run q fr w.
Arguments in_channel {Env} q p w.
Arguments in_timers {Env} q p w.
Arguments in_frame {Env} q p w.
Arguments loose {Env} q p w.
Arguments hands_over {Env} q p e.
Arguments grabs {Env} q p e.
Arguments touches {Env} q p e.
Arguments starts {Env} q p e.
Arguments count_ptr {Env} p l.
Arguments doomed {Env} q w.
Arguments held_by_delay {Env} q p w.
Arguments parked {Env} q p w.
Arguments entries {Env} p w.
Arguments mentions {Env} p e.
Arguments disposes {Env} p e.
Arguments disturbs {Env} p e.
Arguments dispose_all {Env} l e.
Arguments dormant {Env} q p t w.
Arguments enters {Env} p e.
Arguments fresh {Env} w.
Arguments is_effect {Env} s.
Arguments apply_effects {Env} q body e.
Arguments closure_of {Env} task.
Arguments plain {Env} it.
Arguments trace {Env} q via it.
Arguments apply_tasks {Env} q its e.
Arguments worker_steps {Env} q its.
Arguments post_all {Env} q tasks.
Arguments number {Env} n tasks.
Arguments fire_steps {Env} q es.
Arguments ran_paired {Env} capacity q via it closure cleanup w1.
Arguments closes {Env} evs.
Arguments is_closure {Env} task.
Arguments frames_ok {Env} w.
Arguments returns_ok {Env} e.
Arguments post_batch {Env} q k tasks.
Arguments batch_entries {Env} q k w tasks.
Arguments destroy_tasks {Env} its e.

(** ** The tests of rtc_base/task_queue_unittest.cc

Each test is a program of the model: the tasks it posts, and the steps
that the threads of the test and the workers take in one of the
interleavings the test allows.  Where it matters the transport has room
for 16 tasks, the timer has no leeway, and the destruction of a paired
closure invokes its cleanup callable. *)

(** *** TaskQueueTest.PostFromQueue *)

Module PostFromQueue.

Definition kQueueName : QueueId := "PostFromQueue".

(** The captured state is the event. *)
Definition inner : QueuedTask bool :=
  ClosureTask [Effect (λ _ _, true)].

Definition outer : QueuedTask bool :=
  ClosureTask [PostTask kQueueName (New inner)].

Definition test : list (Op bool) :=
  OpPostTask kQueueName outer :: replicate 6 (OpWorker kQueueName).

Example post_from_queue_runs :
  let r := run 16 0 true test (new_world false [kQueueName]) in
  env r.1 = true ∧
  r.2 = [Posted kQueueName (0, outer)]
        ++ [Started kQueueName Immediate (0, outer);
            Invoked (0, outer) RunCallable;
            Executed kQueueName (0, outer);
            Posted kQueueName (1, inner);
            Returned kQueueName (0, outer) true;
            Deleted (ByQueue kQueueName) (0, outer)]
        ++ trace kQueueName Immediate (1, inner).
Proof. split; vm_compute; reflexivity. Qed.

End PostFromQueue.

(** *** TaskQueueTest.PostTwoWithSharedUnprotectedState *)

Module PostTwoWithSharedUnprotectedState.

Definition kQueueName : QueueId := "PostTwoWithSharedUnprotectedState".

(** [state.state], the event [done], and whether every [EXPECT_EQ] that
    ran so far held. *)
Record SharedState := mkState {
  state : Z;
  done : bool;
  expectations : bool
}.

Definition first : QueuedTask SharedState :=
  ClosureTask [Effect (λ _ s, mkState 1 (done s) (expectations s))].

Definition second : QueuedTask SharedState :=
  ClosureTask
    [Effect (λ _ s, mkState (state s) (done s)
                      (expectations s && bool_decide (state s = 1%Z)));
     Effect (λ _ s, mkState (state s) true (expectations s))].

Definition outer : QueuedTask SharedState :=
  ClosureTask
    [PostTask kQueueName (New first);
     PostTask kQueueName (New second);
     Effect (λ _ s, mkState (state s) (done s)
                      (expectations s && bool_decide (state s = 0%Z)))].

Definition start : World SharedState :=
  new_world (mkState 0 false true) [kQueueName].

Definition test : list (Op SharedState) :=
  OpPostTask kQueueName outer :: replicate 12 (OpWorker kQueueName).

Example post_two_with_shared_state_runs :
  let r := run 16 0 true test start in
  env r.1 = mkState 1 true true ∧
  (consumed kQueueName r.2).*1 = [0; 1; 2] ∧
  (accepted kQueueName r.2).*1 = [0; 1; 2].
Proof. repeat split; vm_compute; reflexivity. Qed.

End PostTwoWithSharedUnprotectedState.

(** *** TaskQueueTest.PostCustomTask *)

Module PostCustomTask.

Definition kQueueName : QueueId := "PostCustomImplementation".

(** [CustomTask::Run] sets [ran_] and returns false: never allow the task
    to be deleted by the queue.  The captured state is [ran_]. *)
Definition my_task : QueuedTask bool :=
  CustomTask (λ _, ([Effect (λ _ _, true)], false)).

(** [SendTask]: post the task and wait until the worker has run it. *)
Definition test : list (Op bool) :=
  OpPostTask kQueueName my_task :: replicate 3 (OpWorker kQueueName).

Example post_custom_task_runs :
  let r := run 16 0 true test (new_world false [kQueueName]) in
  env r.1 = true ∧
  r.2 = [Posted kQueueName (0, my_task);
         Started kQueueName Immediate (0, my_task);
         Executed kQueueName (0, my_task);
         Returned kQueueName (0, my_task) false].
Proof. split; vm_compute; reflexivity. Qed.

End PostCustomTask.

(** *** TaskQueueTest.PostAndReuse *)

Module PostAndReuse.

Definition kPostQueue : QueueId := "PostQueue".
Definition kReplyQueue : QueueId := "ReplyQueue".

(** [call_count], the event, and whether every expectation that ran so
    far held. *)
Record State := mkState {
  call_count : Z;
  event : bool;
  expectations : bool
}.

Definition count (s : State) : State :=
  mkState (call_count s + 1) (event s) (expectations s).

(** [ReusedTask::Run]: on the first call the task posts itself to the
    reply queue and returns false; on the second call it checks the
    counter and the current queue, sets the event and returns true. *)
Definition ReusedTask : QueuedTask State :=
  CustomTask (λ s,
    if bool_decide (call_count s + 1 = 1)%Z
    then ([Effect (λ _, count); PostTask kReplyQueue This], false)
    else ([Effect (λ _, count);
           Effect (λ cur s, mkState (call_count s) (event s)
                     (expectations s && bool_decide (call_count s = 2%Z)
                      && bool_decide (cur = Some kReplyQueue)));
           Effect (λ _ s, mkState (call_count s) true (expectations s))],
          true)).

Definition start : World State :=
  new_world (mkState 0 false true) [kPostQueue; kReplyQueue].

(** The task is posted, and the worker of the post queue has entered
    [Run] and counted the call. *)
Definition posting : list (Op State) :=
  [OpPostTask kPostQueue ReusedTask; OpWorker kPostQueue;
   OpWorker kPostQueue].

(** The worker of the post queue posts the task and returns from [Run];
    the worker of the reply queue runs the task. *)
Definition test : list (Op State) :=
  posting ++ replicate 2 (OpWorker kPostQueue)
  ++ replicate 5 (OpWorker kReplyQueue).

Example post_and_reuse_runs :
  let r := run 16 0 true test start in
  env r.1 = mkState 2 true true ∧
  r.2 = [Posted kPostQueue (0, ReusedTask);
         Started kPostQueue Immediate (0, ReusedTask);
         Executed kPostQueue (0, ReusedTask);
         Executed kPostQueue (0, ReusedTask);
         Posted kReplyQueue (0, ReusedTask);
         Returned kPostQueue (0, ReusedTask) false;
         Started kReplyQueue Immediate (0, ReusedTask);
         Executed kReplyQueue (0, ReusedTask);
         Executed kReplyQueue (0, ReusedTask);
         Executed kReplyQueue (0, ReusedTask);
         Returned kReplyQueue (0, ReusedTask) true;
         Deleted (ByQueue kReplyQueue) (0, ReusedTask)].
Proof. split; vm_compute; reflexivity. Qed.

(** The workers run side by side: the reply queue may run the task to
    the end before the post queue has returned from [Run]. *)
Example post_and_reuse_overtaken :
  let r := run 16 0 true
             (posting ++ [OpWorker kPostQueue]
              ++ replicate 5 (OpWorker kReplyQueue)
              ++ [OpWorker kPostQueue]) start in
  env r.1 = mkState 2 true true ∧
  r.2 = [Posted kPostQueue (0, ReusedTask);
         Started kPostQueue Immediate (0, ReusedTask);
         Executed kPostQueue (0, ReusedTask);
         Executed kPostQueue (0, ReusedTask);
         Posted kReplyQueue (0, ReusedTask);
         Started kReplyQueue Immediate (0, ReusedTask);
         Executed kReplyQueue (0, ReusedTask);
         Executed kReplyQueue (0, ReusedTask);
         Executed kReplyQueue (0, ReusedTask);
         Returned kReplyQueue (0, ReusedTask) true;
         Deleted (ByQueue kReplyQueue) (0, ReusedTask);
         Returned kPostQueue (0, ReusedTask) false].
Proof. split; vm_compute; reflexivity. Qed.

(** When the reply queue is gone the post drops the task, which is
    destroyed at once: nobody runs it a second time. *)
Example post_and_reuse_reply_queue_gone :
  let r := run 16 0 true
             (OpDestroy kReplyQueue :: test) start in
  env r.1 = mkState 1 false true ∧
  r.2 = [Posted kPostQueue (0, ReusedTask);
         Started kPostQueue Immediate (0, ReusedTask);
         Executed kPostQueue (0, ReusedTask);
         Executed kPostQueue (0, ReusedTask);
         Dropped kReplyQueue (0, ReusedTask);
         Deleted ByTransport (0, ReusedTask);
         Returned kPostQueue (0, ReusedTask) false].
Proof. split; vm_compute; reflexivity. Qed.

End PostAndReuse.

(** *** TaskQueueTest.PostALot *)

Module PostALot.

(** The captured state: the two counters of the test. *)
Record Counters := mkCounters {
  tasks_executed : nat;
  tasks_cleaned_up : nat
}.

Definition kQueueName : QueueId := "PostALot".

Definition executed (s : Counters) : Counters :=
  mkCounters (S (tasks_executed s)) (tasks_cleaned_up s).

Definition cleaned_up (s : Counters) : Counters :=
  mkCounters (tasks_executed s) (S (tasks_cleaned_up s)).

(** The first task waits for the event; it leaves the counters alone. *)
Definition blocker : QueuedTask Counters :=
  ClosureTask [Effect (λ _ s, s)].

Definition task : QueuedTask Counters :=
  ClosureTaskWithCleanup [Effect (λ _, executed)] cleaned_up.

Definition start : World Counters :=
  new_world (mkCounters 0 0) [kQueueName].

(** The test posts the blocker and then [kTaskCount] tasks, while the
    worker takes steps as the schedule says; then the queue goes out of
    scope: its destructor returns when the worker has finished the task
    it is running, which takes two steps at most. *)
Definition op (b : bool) : Op Counters :=
  if b then OpPostTask kQueueName task else OpWorker kQueueName.

Definition test (sched : list bool) : list (Op Counters) :=
  OpPostTask kQueueName blocker
  :: (op <$> sched)
  ++ OpDestroy kQueueName :: replicate 2 (OpWorker kQueueName).

(** [kTaskCount]: the tasks that the schedule posts. *)
Definition posted (sched : list bool) : nat :=
  length (filter Is_true sched).

(** What became of the tasks, as the events tell it: the tasks that
    were handed to [PostTask]; those that ran and were then destroyed by
    the queue; those that were dropped because the transport was
    exhausted; those that the destructor of the queue discarded. *)
Definition attempted (evs : list (Event Counters)) : list (Item Counters) :=
  omap (λ e, match e with
             | Posted _ it | Dropped _ it => Some it
             | _ => None
             end) evs.

Definition ran (evs : list (Event Counters)) : list (Item Counters) :=
  omap (λ e, match e with
             | Returned _ it true => Some it
             | _ => None
             end) evs.

Definition dropped (evs : list (Event Counters)) : list (Item Counters) :=
  omap (λ e, match e with
             | Dropped _ it => Some it
             | _ => None
             end) evs.

Definition discarded (evs : list (Event Counters)) : list (Item Counters) :=
  omap (λ e, match e with
             | Discarded _ it => Some it
             | _ => None
             end) evs.

(** The paired closures among some tasks. *)
Definition is_paired (it : Item Counters) : bool :=
  match it.2 with
  | ClosureTaskWithCleanup _ _ => true
  | _ => false
  end.

Definition paired (l : list (Item Counters)) : nat :=
  length (filter is_paired l).

Lemma paired_app l1 l2 : paired (l1 ++ l2) = paired l1 + paired l2.
Proof. unfold paired. by rewrite filter_app, length_app. Qed.

Lemma paired_cons it l :
  paired (it :: l) = (if is_paired it then 1 else 0) + paired l.
Proof.
  unfold paired. destruct (is_paired it) eqn:Hit.
  - rewrite filter_cons_True; [done|]. by rewrite Hit.
  - rewrite filter_cons_False; [done|]. rewrite Hit. intros [].
Qed.

Lemma paired_nil : paired [] = 0.
Proof. done. Qed.

Lemma paired_perm l1 l2 : l1 ≡ₚ l2 → paired l1 = paired l2.
Proof. intros H. unfold paired. by rewrite H. Qed.

Lemma attempted_app e1 e2 : attempted (e1 ++ e2) = attempted e1 ++ attempted e2.
Proof. apply omap_app. Qed.

Lemma ran_app e1 e2 : ran (e1 ++ e2) = ran e1 ++ ran e2.
Proof. apply omap_app. Qed.

Lemma dropped_app e1 e2 : dropped (e1 ++ e2) = dropped e1 ++ dropped e2.
Proof. apply omap_app. Qed.

Lemma discarded_app e1 e2 :
  discarded (e1 ++ e2) = discarded e1 ++ discarded e2.
Proof. apply omap_app. Qed.

Section Ledger.

Variable capacity : nat.
Variable leeway : nat.
Variable cleanup_after_run : bool.

(** The tasks of the test, and the worlds of the test: one queue, no
    delayed entries, and the worker runs a closure of one statement. *)
Definition tidy_item (it : Item Counters) : Prop :=
  it.2 = blocker ∨ it.2 = task.

Definition tidy_frame (fr : Frame Counters) : Prop :=
  tidy_item (frame_task fr) ∧ frame_result fr = true ∧
  (frame_todo fr = closure_of (frame_task fr).2 ∨ frame_todo fr = []).

Definition tidy (w : World Counters) : Prop :=
  timers w = [] ∧
  (∀ q, q ≠ kQueueName → queues w !! q = None ∧ running w !! q = None) ∧
  Forall tidy_item (pending kQueueName w) ∧
  (∀ fr, running w !! kQueueName = Some fr → tidy_frame fr).

(** The tasks the queue holds, pending or running. *)
Definition in_frame_of (w : World Counters) : list (Item Counters) :=
  match running w !! kQueueName with
  | Some fr => [frame_task fr]
  | None => []
  end.

Definition holding (w : World Counters) : list (Item Counters) :=
  pending kQueueName w ++ in_frame_of w.

(** The running task is a paired closure that has been executed and has
    not returned yet. *)
Definition done_in_frame (w : World Counters) : nat :=
  match running w !! kQueueName with
  | Some fr =>
      match frame_todo fr with
      | [] => if is_paired (frame_task fr) then 1 else 0
      | _ => 0
      end
  | None => 0
  end.

(** The steps of the test: posts of its two tasks, and whatever the
    worker, the destructor and the clock do. *)
Definition allowed (o : Op Counters) : Prop :=
  match o with
  | OpPostTask _ t => t = blocker ∨ t = task
  | OpPostDelayedTask _ _ _ => False
  | _ => True
  end.

Definition paired_post (o : Op Counters) : bool :=
  match o with
  | OpPostTask _ (ClosureTaskWithCleanup _ _) => true
  | _ => false
  end.

(** The ledger of the test: every task that is handed to [PostTask] or
    held by the queue either ran, was dropped, was discarded, or is
    still held; task objects are numbered as they are allocated; the
    cleanup counter counts the paired closures that were dropped or
    discarded, and those that ran when the destruction of a task that
    has run invokes the cleanup callable; the other counter counts the
    paired closures that were executed. *)
Definition ledger (n : nat) (w : World Counters)
    (evs : list (Event Counters)) (w' : World Counters) : Prop :=
  tidy w →
  tidy w' ∧
  next_ptr w ≤ next_ptr w' ∧
  (attempted evs).*1 = seq (next_ptr w) (next_ptr w' - next_ptr w) ∧
  paired (attempted evs) = n ∧
  holding w ++ attempted evs
    ≡ₚ ran evs ++ dropped evs ++ discarded evs ++ holding w' ∧
  tasks_cleaned_up (env w')
    = tasks_cleaned_up (env w) + paired (dropped evs)
      + paired (discarded evs)
      + (if cleanup_after_run then paired (ran evs) else 0) ∧
  tasks_executed (env w') + done_in_frame w
    = tasks_executed (env w) + paired (ran evs) + done_in_frame w'.

Lemma ledger_seq n1 n2 w e1 w1 e2 w2 :
  ledger n1 w e1 w1 → ledger n2 w1 e2 w2 → ledger (n1 + n2) w (e1 ++ e2) w2.
Proof.
  intros H1 H2 Ht.
  destruct (H1 Ht) as (Ht1 & Hn1 & Hs1 & Hp1 & Hperm1 & Hc1 & He1).
  destruct (H2 Ht1) as (Ht2 & Hn2 & Hs2 & Hp2 & Hperm2 & Hc2 & He2).
  rewrite !attempted_app, !ran_app, !dropped_app, !discarded_app.
  split; [done|]. split; [lia|]. split; [|split; [|split; [|split]]].
  - rewrite fmap_app, Hs1, Hs2.
    replace (next_ptr w2 - next_ptr w)
      with ((next_ptr w1 - next_ptr w) + (next_ptr w2 - next_ptr w1))
      by lia.
    rewrite seq_app. do 2 f_equal. lia.
  - rewrite paired_app. lia.
  - rewrite app_assoc, Hperm1. rewrite <- !app_assoc.
    rewrite Hperm2. f_equiv.
    rewrite (Permutation_app_swap_app (discarded e1)).
    rewrite (Permutation_app_swap_app (dropped e1)). f_equiv. f_equiv.
    apply Permutation_app_swap_app.
  - rewrite !paired_app. destruct cleanup_after_run; lia.
  - rewrite !paired_app. lia.
Qed.

Lemma ledger_idle w w' :
  queues w' = queues w → running w' = running w → timers w' = timers w →
  env w' = env w → next_ptr w' = next_ptr w → ledger 0 w [] w'.
Proof.
  intros Hq Hr Htm He Hn Htidy.
  split; [|split; [lia|split; [|split; [done|split; [|split]]]]].
  - unfold tidy, pending in *. by rewrite Hq, Hr, Htm.
  - by rewrite Hn, Nat.sub_diag.
  - unfold holding, in_frame_of, pending. rewrite Hq, Hr. simpl.
    by rewrite app_nil_r.
  - rewrite He. destruct cleanup_after_run; simpl; unfold paired; simpl; lia.
  - unfold done_in_frame. rewrite He, Hr. unfold paired. simpl. lia.
Qed.

(** The destruction of a task of the test. *)
Lemma destructor_tidy it e :
  tidy_item it →
  tasks_cleaned_up (destructor it e)
  = tasks_cleaned_up e + paired [it] ∧
  tasks_executed (destructor it e) = tasks_executed e.
Proof.
  intros [Hit|Hit]; rewrite paired_cons; unfold destructor, is_paired, paired;
    rewrite Hit; simpl; split; lia.
Qed.

Lemma destroy_tasks_tidy its e :
  Forall tidy_item its →
  tasks_cleaned_up (destroy_tasks its e) = tasks_cleaned_up e + paired its ∧
  tasks_executed (destroy_tasks its e) = tasks_executed e.
Proof.
  intros Hits. revert e. induction Hits as [|it its Hit _ IH]; intros e.
  - unfold paired. simpl. split; lia.
  - simpl. destruct (IH (destructor it e)) as [-> ->].
    destruct (destructor_tidy it e Hit) as [-> ->].
    rewrite (paired_cons it its), (paired_cons it []).
    unfold paired at 1. simpl. split; lia.
Qed.

(** What the events of a destruction tell. *)
Lemma attempted_deletion by_ (it : Item Counters) :
  attempted (deletion by_ it) = [].
Proof. unfold deletion. by destruct it.2. Qed.

Lemma ran_deletion by_ (it : Item Counters) : ran (deletion by_ it) = [].
Proof. unfold deletion. by destruct it.2. Qed.

Lemma dropped_deletion by_ (it : Item Counters) :
  dropped (deletion by_ it) = [].
Proof. unfold deletion. by destruct it.2. Qed.

Lemma discarded_deletion by_ (it : Item Counters) :
  discarded (deletion by_ it) = [].
Proof. unfold deletion. by destruct it.2. Qed.

Lemma outcomes_discards q (its : list (Item Counters)) :
  let evs := its ≫= λ it, Discarded q it :: deletion (ByQueue q) it in
  attempted evs = [] ∧ ran evs = [] ∧ dropped evs = [] ∧
  discarded evs = its.
Proof.
  induction its as [|it its (IH1 & IH2 & IH3 & IH4)]; [done|].
  cbn zeta in *. rewrite bind_cons.
  change (Discarded q it :: deletion (ByQueue q) it)
    with ([Discarded q it] ++ deletion (ByQueue q) it).
  rewrite !attempted_app, !ran_app, !dropped_app, !discarded_app.
  rewrite attempted_deletion, ran_deletion, dropped_deletion,
    discarded_deletion, IH1, IH2, IH3, IH4.
  done.
Qed.

Lemma tidy_other w q :
  tidy w → q ≠ kQueueName → queues w !! q = None ∧ running w !! q = None.
Proof. intros (_ & H & _). apply H. Qed.

Lemma tidy_alive w q pend :
  tidy w → queues w !! q = Some pend → q = kQueueName.
Proof.
  intros Ht Hq. destruct (decide (q = kQueueName)) as [|Hne]; [done|].
  destruct (tidy_other w q Ht Hne). congruence.
Qed.

Lemma tidy_busy w q fr :
  tidy w → running w !! q = Some fr → q = kQueueName.
Proof.
  intros Ht Hq. destruct (decide (q = kQueueName)) as [|Hne]; [done|].
  destruct (tidy_other w q Ht Hne). congruence.
Qed.

(** A post of a task of the test. *)
Lemma ledger_post q t w :
  t = blocker ∨ t = task →
  ledger (paired [(next_ptr w, t)]) w
         (post_task capacity None q (New t) w).2
         (post_task capacity None q (New t) w).1.
Proof.
  intros Hitem Htidy. pose proof Htidy as (Ht & Hother & Hpend & Hfr).
  unfold post_task. cbn [resolve]. set (it := (next_ptr w, t)).
  assert (Hit : tidy_item it) by done.
  unfold deliver. cbn [queues set_next_ptr].
  destruct (queues w !! q) as [pend|] eqn:Hq;
    [destruct (decide (length pend < capacity))|].
  - assert (q = kQueueName) as -> by (by eapply tidy_alive).
    cbn [fst snd].
    split; [|split; [simpl; lia|split; [|split; [done|split; [|split]]]]].
    + split; [done|]. split; [|split].
      * intros q' Hne. simpl. rewrite lookup_insert_ne by done.
        by apply Hother.
      * unfold pending in *. simpl. rewrite lookup_insert_eq.
        rewrite Hq in Hpend. simpl in *. apply Forall_app. by split; [|constructor].
      * done.
    + simpl. replace (S (next_ptr w) - next_ptr w) with 1 by lia. done.
    + unfold holding, in_frame_of, pending. simpl.
      rewrite lookup_insert_eq, Hq. simpl.
      rewrite <- !app_assoc. f_equiv. apply Permutation_app_comm.
    + simpl. unfold paired. simpl. destruct cleanup_after_run; lia.
    + unfold done_in_frame, paired. simpl. lia.
  - rewrite chain_unfold. cbn [emit delete_task fst snd].
    change (Dropped q it :: deletion ByTransport it)
      with ([Dropped q it] ++ deletion ByTransport it).
    rewrite !attempted_app, !ran_app, !dropped_app, !discarded_app.
    rewrite attempted_deletion, ran_deletion, dropped_deletion,
      discarded_deletion.
    destruct (destructor_tidy it (env w) Hit) as [Hc He].
    split; [|split; [simpl; lia|split; [|split; [done|split; [|split]]]]].
    + done.
    + simpl. replace (S (next_ptr w) - next_ptr w) with 1 by lia. done.
    + unfold holding, in_frame_of, pending. simpl.
      apply Permutation_app_comm.
    + simpl. rewrite Hc, !paired_nil.
      destruct cleanup_after_run; lia.
    + unfold done_in_frame. simpl. rewrite He. unfold paired. simpl. lia.
  - rewrite chain_unfold. cbn [emit delete_task fst snd].
    change (Dropped q it :: deletion ByTransport it)
      with ([Dropped q it] ++ deletion ByTransport it).
    rewrite !attempted_app, !ran_app, !dropped_app, !discarded_app.
    rewrite attempted_deletion, ran_deletion, dropped_deletion,
      discarded_deletion.
    destruct (destructor_tidy it (env w) Hit) as [Hc He].
    split; [|split; [simpl; lia|split; [|split; [done|split; [|split]]]]].
    + done.
    + simpl. replace (S (next_ptr w) - next_ptr w) with 1 by lia. done.
    + unfold holding, in_frame_of, pending. simpl.
      apply Permutation_app_comm.
    + simpl. rewrite Hc, !paired_nil.
      destruct cleanup_after_run; lia.
    + unfold done_in_frame. simpl. rewrite He. unfold paired. simpl. lia.
Qed.

(** The worker takes a task from the channel. *)
Lemma ledger_begin q w :
  running w !! q = None → ledger 0 w (begin q w).2 (begin q w).1.
Proof.
  intros Hidle. unfold begin.
  destruct (queues w !! q) as [[|it rest]|] eqn:Hq;
    try by apply ledger_idle.
  intros Htidy. pose proof Htidy as (Ht & Hother & Hpend & Hfr).
  assert (q = kQueueName) as -> by (by eapply tidy_alive).
  unfold pending in Hpend. rewrite Hq in Hpend. simpl in Hpend.
  apply Forall_cons in Hpend as [Hit Hrest].
  assert (Hev : ∀ f : Event Counters → option (Item Counters),
            f (Started kQueueName Immediate it) = None →
            (∀ e, e ∈ invocation it → f e = None) →
            omap f (Started kQueueName Immediate it :: invocation it) = []).
  { intros f H1 H2. simpl. rewrite H1. unfold invocation in *.
    destruct it.2; simpl; try done; by rewrite H2 by (by left). }
  assert (Hinv : ∀ e, e ∈ invocation it → ∃ r, e = Invoked it r).
  { intros e. unfold invocation.
    destruct it.2; intros He; try (by apply elem_of_nil in He);
      apply list_elem_of_singleton in He; by eexists. }
  cbn [start_task fst snd].
  assert (Ha : attempted (Started kQueueName Immediate it :: invocation it)
               = [])
    by (apply Hev; [done|]; by intros e [r ->]%Hinv).
  assert (Hr : ran (Started kQueueName Immediate it :: invocation it) = [])
    by (apply Hev; [done|]; by intros e [r ->]%Hinv).
  assert (Hd : dropped (Started kQueueName Immediate it :: invocation it)
               = [])
    by (apply Hev; [done|]; by intros e [r ->]%Hinv).
  assert (Hc : discarded (Started kQueueName Immediate it :: invocation it)
               = [])
    by (apply Hev; [done|]; by intros e [r ->]%Hinv).
  rewrite Ha, Hr, Hd, Hc.
  split; [|split; [done|split; [|split; [done|split; [|split]]]]].
  - split; [done|]. split; [|split].
    + intros q' Hne. simpl. rewrite !lookup_insert_ne by done.
      by apply Hother.
    + unfold pending. simpl. by rewrite lookup_insert_eq.
    + intros fr. simpl. rewrite lookup_insert_eq. intros [= <-].
      split; [done|]. unfold new_frame. simpl.
      destruct Hit as [Hit|Hit]; rewrite Hit; simpl; by split; [|left].
  - simpl. by rewrite Nat.sub_diag.
  - unfold holding, in_frame_of, pending. simpl.
    rewrite !lookup_insert_eq, Hq, Hidle. simpl.
    rewrite !app_nil_r. apply (Permutation_app_comm [it] rest).
  - simpl. unfold paired. simpl. destruct cleanup_after_run; lia.
  - unfold done_in_frame, paired. simpl.
    rewrite Hidle, lookup_insert_eq. unfold new_frame. simpl.
    destruct Hit as [Hit|Hit]; rewrite Hit; simpl; lia.
Qed.

(** The worker executes the statement of the closure. *)
Lemma ledger_proceed q fr s rest w :
  running w !! q = Some fr → frame_todo fr = s :: rest →
  ledger 0 w (proceed capacity q fr s w).2 (proceed capacity q fr s w).1.
Proof.
  intros Hfr Htodo Htidy. pose proof Htidy as (Ht & Hother & Hpend & Hfrs).
  assert (q = kQueueName) as -> by (by eapply tidy_busy).
  destruct (Hfrs fr Hfr) as (Hit & Hres & [Hbody|Hbody]); [|congruence].
  unfold proceed. rewrite chain_unfold. cbn [emit fst snd].
  rewrite Htodo in Hbody.
  assert (Hs : ∃ f, s = Effect f ∧ rest = [] ∧
            (∀ cur e, tasks_cleaned_up (f cur e) = tasks_cleaned_up e) ∧
            (∀ cur e, tasks_executed (f cur e)
                      = tasks_executed e
                        + if is_paired (frame_task fr) then 1 else 0)).
  { unfold is_paired. destruct Hit as [Hit|Hit]; rewrite Hit in Hbody |- *;
      injection Hbody as -> ->; eexists; (split; [done|]);
      (split; [done|]); split; intros; simpl; lia. }
  destruct Hs as (f & -> & -> & Hfc & Hfe).
  cbn [exec_stmt effect fst snd app].
  split; [|split; [done|split; [|split; [done|split; [|split]]]]].
  - split; [done|]. split; [|split].
    + intros q' Hne. simpl. rewrite lookup_insert_ne by done.
      by apply Hother.
    + done.
    + intros fr'. simpl. rewrite lookup_insert_eq. intros [= <-].
      split; [done|]. split; [done|]. right. simpl. by rewrite Htodo.
  - simpl. by rewrite Nat.sub_diag.
  - unfold holding, in_frame_of, pending. simpl.
    rewrite lookup_insert_eq, Hfr. simpl. by rewrite app_nil_r.
  - simpl. rewrite Hfc. unfold paired. simpl.
    destruct cleanup_after_run; lia.
  - unfold done_in_frame, paired. simpl.
    rewrite Hfr, Htodo, lookup_insert_eq. simpl. rewrite Htodo. simpl.
    rewrite Hfe. lia.
Qed.

(** [Run] returns. *)
Lemma ledger_finish q fr w :
  running w !! q = Some fr → frame_todo fr = [] →
  ledger 0 w (finish cleanup_after_run q fr w).2
         (finish cleanup_after_run q fr w).1.
Proof.
  intros Hfr Htodo Htidy. pose proof Htidy as (Ht & Hother & Hpend & Hfrs).
  assert (q = kQueueName) as -> by (by eapply tidy_busy).
  destruct (Hfrs fr Hfr) as (Hit & Hres & _).
  set (it := frame_task fr) in *.
  set (left := if frame_last fr then [] else pending kQueueName w).
  set (gone := if frame_last fr then pending kQueueName w else []).
  assert (Hevs : attempted (finish cleanup_after_run kQueueName fr w).2 = []
                 ∧ ran (finish cleanup_after_run kQueueName fr w).2 = [it]
                 ∧ dropped (finish cleanup_after_run kQueueName fr w).2 = []
                 ∧ discarded (finish cleanup_after_run kQueueName fr w).2
                   = gone).
  { rewrite finish_events. fold it. rewrite Hres.
    change (Returned kQueueName it true :: ?l)
      with ([Returned kQueueName it true] ++ l).
    rewrite !attempted_app, !ran_app, !dropped_app, !discarded_app.
    assert (Hdel : ∀ f : Event Counters → option (Item Counters),
              f (Deleted (ByQueue kQueueName) it) = None →
              f (Invoked it CleanupCallable) = None →
              omap f (if cleanup_after_run
                      then deletion (ByQueue kQueueName) it
                      else [Deleted (ByQueue kQueueName) it]) = []).
    { intros f H1 H2. unfold deletion.
      destruct cleanup_after_run, it.2; simpl; by rewrite ?H1, ?H2. }
    unfold attempted at 2, ran at 2, dropped at 2, discarded at 2.
    rewrite !Hdel by done. unfold gone.
    destruct (frame_last fr).
    - destruct (outcomes_discards kQueueName (pending kQueueName w))
        as (-> & -> & -> & ->). by rewrite app_nil_r.
    - done. }
  destruct Hevs as (-> & -> & -> & ->).
  assert (Hpend' : pending kQueueName (finish cleanup_after_run kQueueName fr w).1
                   = left).
  { unfold pending at 1. rewrite finish_queues. unfold left.
    destruct (frame_last fr); [by rewrite lookup_delete_eq | done]. }
  assert (Hgone : Forall tidy_item gone)
    by (unfold gone; by destruct (frame_last fr)).
  assert (Hleft : Forall tidy_item left)
    by (unfold left; by destruct (frame_last fr)).
  assert (Henv : tasks_cleaned_up (env (finish cleanup_after_run kQueueName fr w).1)
                 = tasks_cleaned_up (env w) + paired gone
                   + (if cleanup_after_run then paired [it] else 0)
                 ∧ tasks_executed (env (finish cleanup_after_run kQueueName fr w).1)
                   = tasks_executed (env w)).
  { rewrite finish_env. fold it. rewrite Hres. cbn [andb]. unfold gone.
    destruct (destructor_tidy it (env w) Hit) as [Hc He].
    destruct (frame_last fr).
    - destruct (destroy_tasks_tidy (pending kQueueName w)
                  (if cleanup_after_run then destructor it (env w)
                   else env w) Hpend) as [-> ->].
      destruct cleanup_after_run; [rewrite Hc, He|]; split; lia.
    - rewrite paired_nil. simpl.
      destruct cleanup_after_run; [rewrite Hc, He|]; split; lia. }
  destruct Henv as [Hc He].
  split; [|split; [|split; [|split; [done|split; [|split]]]]].
  - split; [by rewrite finish_timers|]. split; [|split].
    + intros q' Hne. rewrite finish_queues, finish_running.
      rewrite lookup_delete_ne by done.
      destruct (frame_last fr);
        rewrite ?lookup_delete_ne by done; by apply Hother.
    + by rewrite Hpend'.
    + intros fr'. by rewrite finish_running, lookup_delete_eq.
  - by rewrite finish_next_ptr.
  - rewrite finish_next_ptr, Nat.sub_diag. done.
  - unfold holding, in_frame_of. rewrite Hpend'.
    rewrite finish_running, lookup_delete_eq, Hfr. fold it.
    rewrite !app_nil_r. simpl. unfold left, gone.
    destruct (frame_last fr); simpl; rewrite ?app_nil_r;
      apply (Permutation_app_comm _ [it]).
  - rewrite Hc, paired_nil. destruct cleanup_after_run; lia.
  - rewrite He. unfold done_in_frame.
    rewrite finish_running, lookup_delete_eq, Hfr, Htodo. fold it.
    rewrite paired_cons, paired_nil. lia.
Qed.

(** The destructor of the queue. *)
Lemma ledger_teardown q w :
  running w !! q = None → ledger 0 w (teardown q w).2 (teardown q w).1.
Proof.
  intros Hidle.
  destruct (queues w !! q) as [pend|] eqn:Hq;
    [|unfold teardown; rewrite Hq; by apply ledger_idle].
  intros Htidy. pose proof Htidy as (Ht & Hother & Hpend & Hfrs).
  assert (q = kQueueName) as -> by (by eapply tidy_alive).
  rewrite teardown_events.
  destruct (outcomes_discards kQueueName (pending kQueueName w))
    as (-> & -> & -> & ->).
  destruct (destroy_tasks_tidy (pending kQueueName w) (env w) Hpend)
    as [Hc He].
  assert (Hpend' : pending kQueueName (teardown kQueueName w).1 = []).
  { unfold pending at 1. by rewrite teardown_queues, lookup_delete_eq. }
  split; [|split; [|split; [|split; [done|split; [|split]]]]].
  - split; [by rewrite teardown_timers|]. split; [|split].
    + intros q' Hne. rewrite teardown_queues, teardown_running.
      rewrite lookup_delete_ne by done. by apply Hother.
    + by rewrite Hpend'.
    + intros fr'. by rewrite teardown_running, Hidle.
  - by rewrite teardown_next_ptr.
  - by rewrite teardown_next_ptr, Nat.sub_diag.
  - unfold holding, in_frame_of. rewrite Hpend', teardown_running, Hidle.
    simpl. by rewrite !app_nil_r.
  - rewrite teardown_env, Hc, !paired_nil.
    destruct cleanup_after_run; lia.
  - rewrite teardown_env, He. unfold done_in_frame.
    rewrite teardown_running, Hidle, paired_nil. lia.
Qed.

Lemma ledger_destroy q w : ledger 0 w (destroy q w).2 (destroy q w).1.
Proof.
  unfold destroy. destruct (running w !! q) as [fr|] eqn:Hfr;
    [|by apply ledger_teardown].
  intros Htidy. pose proof Htidy as (Ht & Hother & Hpend & Hfrs).
  assert (q = kQueueName) as -> by (by eapply tidy_busy).
  cbn [fst snd].
  split; [|split; [done|split; [|split; [done|split; [|split]]]]].
  - split; [done|]. split; [|split].
    + intros q' Hne. simpl. rewrite lookup_alter_ne by done.
      by apply Hother.
    + done.
    + intros fr'. simpl. rewrite lookup_alter_eq, Hfr. intros [= <-].
      exact (Hfrs fr Hfr).
  - simpl. by rewrite Nat.sub_diag.
  - unfold holding, in_frame_of, pending. simpl.
    rewrite lookup_alter_eq, Hfr. simpl. by rewrite app_nil_r.
  - simpl. unfold paired. simpl. destruct cleanup_after_run; lia.
  - unfold done_in_frame, paired. simpl.
    rewrite lookup_alter_eq, Hfr. simpl. lia.
Qed.

(** Every step of the test keeps the ledger. *)
Lemma ledger_step o w :
  allowed o →
  ledger (if paired_post o then 1 else 0) w
         (step capacity leeway cleanup_after_run o w).2
         (step capacity leeway cleanup_after_run o w).1.
Proof.
  destruct o as [q t|q t d|q|q|q|q|dt]; cbn [allowed step]; intros Ha.
  - assert (Hn : (if paired_post (OpPostTask q t) then 1 else 0)
                 = paired [(next_ptr w, t)])
      by (rewrite paired_cons; unfold is_paired, paired;
          destruct Ha as [-> | ->]; done).
    rewrite Hn. by apply ledger_post.
  - done.
  - unfold worker_step. destruct (running w !! q) as [fr|] eqn:Hfr.
    + destruct (frame_todo fr) as [|s rest] eqn:Htodo.
      * by apply ledger_finish.
      * by eapply ledger_proceed.
    + by apply ledger_begin.
  - intros Htidy. pose proof Htidy as (Ht & _).
    unfold fire. rewrite Ht. simpl. by apply ledger_idle.
  - intros Htidy. pose proof Htidy as (Ht & _).
    unfold reap. rewrite Ht. simpl.
    destruct (queues w !! q); by apply ledger_idle.
  - apply ledger_destroy.
  - by apply ledger_idle.
Qed.

Lemma ledger_run ops w :
  Forall allowed ops →
  ledger (length (filter paired_post ops)) w
         (run capacity leeway cleanup_after_run ops w).2
         (run capacity leeway cleanup_after_run ops w).1.
Proof.
  intros Hops. revert w. induction Hops as [|o ops Ho _ IH]; intros w.
  - by apply ledger_idle.
  - rewrite run_cons. cbn [fst snd].
    assert (Hn : length (filter paired_post (o :: ops))
                 = (if paired_post o then 1 else 0)
                   + length (filter paired_post ops)).
    { destruct (paired_post o) eqn:Hp.
      - rewrite filter_cons_True; [done|]. by rewrite Hp.
      - rewrite filter_cons_False; [done|]. rewrite Hp. intros []. }
    rewrite Hn. eapply ledger_seq; [by apply ledger_step | apply IH].
Qed.

End Ledger.

Lemma tidy_start : tidy start.
Proof.
  split; [done|]. split; [|split; [done|done]].
  intros q Hne. unfold start, new_world. simpl.
  rewrite lookup_insert_ne by done. done.
Qed.

Lemma test_allowed (sched : list bool) : Forall allowed (test sched).
Proof.
  unfold test. constructor; [by left|]. apply Forall_app. split.
  - apply Forall_fmap, Forall_forall. intros [] _; simpl; auto.
  - by repeat constructor.
Qed.

Lemma test_posts (sched : list bool) :
  length (filter paired_post (test sched)) = posted sched.
Proof.
  unfold test, posted. rewrite filter_cons_False by (simpl; tauto).
  rewrite filter_app, length_app.
  change (length (filter _ (OpDestroy _ :: _))) with 0.
  rewrite Nat.add_0_r. induction sched as [|b sched IH]; [done|].
  rewrite fmap_cons. destruct b.
  - rewrite !filter_cons_True by done. simpl. by rewrite IH.
  - rewrite !filter_cons_False by (simpl; tauto). done.
Qed.

(** TaskQueueTest.PostALot, for every capacity of the transport, every
    leeway of the timer, both readings of the destruction of a task
    that has run, and every interleaving of the worker with the posting
    loop. *)
Lemma post_a_lot (capacity leeway : nat) (cleanup_after_run : bool)
    (sched : list bool) :
  let r := run capacity leeway cleanup_after_run (test sched) start in
  attempted r.2 ≡ₚ ran r.2 ++ dropped r.2 ++ discarded r.2 ∧
  NoDup (attempted r.2).*1 ∧
  paired (attempted r.2) = posted sched ∧
  tasks_executed (env r.1) = paired (ran r.2) ∧
  tasks_cleaned_up (env r.1)
  = paired (dropped r.2) + paired (discarded r.2)
    + (if cleanup_after_run then paired (ran r.2) else 0).
Proof.
  intros r.
  destruct (ledger_run capacity leeway cleanup_after_run (test sched) start
              (test_allowed sched) tidy_start)
    as (Htidy & Hn & Hs & Hp & Hperm & Hc & He).
  fold r in Htidy, Hn, Hs, Hp, Hperm, Hc, He.
  assert (Hend : queues r.1 !! kQueueName = None
                 ∧ running r.1 !! kQueueName = None).
  { unfold r, test.
    change (OpPostTask kQueueName blocker
            :: (op <$> sched)
               ++ OpDestroy kQueueName :: replicate 2 (OpWorker kQueueName))
      with ((OpPostTask kQueueName blocker :: (op <$> sched))
            ++ OpDestroy kQueueName :: replicate 2 (OpWorker kQueueName)).
    rewrite run_app. cbn [fst].
    set (ops := OpPostTask kQueueName blocker :: (op <$> sched)).
    assert (Hops : Forall allowed ops).
    { constructor; [by left|]. apply Forall_fmap, Forall_forall.
      intros [] _; simpl; auto. }
    destruct (ledger_run capacity leeway cleanup_after_run ops start
                Hops tidy_start) as ((_ & _ & _ & Hfrs) & _).
    apply destroy_finishes. intros fr Hfr.
    destruct (Hfrs fr Hfr) as ([Hit|Hit] & _ & [Hb|Hb]);
      rewrite Hb, ?Hit; simpl; lia. }
  destruct Hend as [Hq Hr].
  assert (Hhold : holding r.1 = []).
  { unfold holding, in_frame_of, pending. by rewrite Hq, Hr. }
  assert (Hdone : done_in_frame r.1 = 0).
  { unfold done_in_frame. by rewrite Hr. }
  rewrite Hhold, !app_nil_r in Hperm. rewrite Hdone in He.
  change (holding start) with (@nil (Item Counters)) in Hperm.
  change (done_in_frame start) with 0 in He.
  change (env start) with (mkCounters 0 0) in Hc, He. simpl in Hc, He.
  split; [done|]. split; [rewrite Hs; apply NoDup_seq|].
  split; [by rewrite Hp, test_posts|]. split; [lia | done].
Qed.

(** The expectations of the test hold, for every schedule, when the
    destruction of a task that has run invokes the cleanup callable. *)
Lemma expectations_hold (capacity leeway : nat) (sched : list bool) :
  let r := run capacity leeway true (test sched) start in
  tasks_cleaned_up (env r.1) = posted sched ∧
  tasks_executed (env r.1) ≤ tasks_cleaned_up (env r.1).
Proof.
  intros r.
  destruct (post_a_lot capacity leeway true sched)
    as (Hperm & _ & Hp & He & Hc).
  fold r in Hperm, Hp, He, Hc.
  apply paired_perm in Hperm. rewrite !paired_app in Hperm. lia.
Qed.

(** When it does not, the cleanup counter misses the tasks that ran. *)
Lemma cleanups_missed (capacity leeway : nat) (sched : list bool) :
  let r := run capacity leeway false (test sched) start in
  tasks_cleaned_up (env r.1) + tasks_executed (env r.1) = posted sched.
Proof.
  intros r.
  destruct (post_a_lot capacity leeway false sched)
    as (Hperm & _ & Hp & He & Hc).
  fold r in Hperm, Hp, He, Hc.
  apply paired_perm in Hperm. rewrite !paired_app in Hperm. lia.
Qed.

(** A transport with room for two tasks: the blocker and the first task
    are accepted, the other two tasks are dropped; the worker runs the
    blocker and the first task. *)
Example overflow :
  let r := run 2 0 true
             (test [true; true; true; false; false; false; false; false;
                    false]) start in
  env r.1 = mkCounters 1 3 ∧
  r.2 = [Posted kQueueName (0, blocker); Posted kQueueName (1, task);
         Dropped kQueueName (2, task); Invoked (2, task) CleanupCallable;
         Deleted ByTransport (2, task);
         Dropped kQueueName (3, task); Invoked (3, task) CleanupCallable;
         Deleted ByTransport (3, task)]
        ++ trace kQueueName Immediate (0, blocker)
        ++ [Started kQueueName Immediate (1, task);
            Invoked (1, task) RunCallable;
            Executed kQueueName (1, task);
            Returned kQueueName (1, task) true;
            Invoked (1, task) CleanupCallable;
            Deleted (ByQueue kQueueName) (1, task)].
Proof. split; vm_compute; reflexivity. Qed.

(** The destructor is called while the worker runs a task: the task is
    allowed to finish, and then the pending tasks are discarded. *)
Example destroyed_while_running :
  let r := run 16 0 true (test [true; true; false; false; false; false])
               start in
  env r.1 = mkCounters 1 2 ∧
  r.2 = [Posted kQueueName (0, blocker); Posted kQueueName (1, task);
         Posted kQueueName (2, task)]
        ++ trace kQueueName Immediate (0, blocker)
        ++ [Started kQueueName Immediate (1, task);
            Invoked (1, task) RunCallable;
            Stopping kQueueName;
            Executed kQueueName (1, task);
            Returned kQueueName (1, task) true;
            Invoked (1, task) CleanupCallable;
            Deleted (ByQueue kQueueName) (1, task);
            Discarded kQueueName (2, task);
            Invoked (2, task) CleanupCallable;
            Deleted (ByQueue kQueueName) (2, task)].
Proof. split; vm_compute; reflexivity. Qed.

End PostALot.

(** *** TaskQueueTest.PostMoveOnlyCleanup *)

Module PostMoveOnlyCleanup.

Definition kPostQueue : QueueId := "PostMoveOnlyCleanup".

(** The two events.  The run closure resets its state, which sets
    [event_run]; the cleanup closure, when it is invoked, resets its
    state, which sets [event_cleanup].  The state of the cleanup closure
    is destroyed with the closure in any case, so this test does not
    tell an invocation of the cleanup closure from its destruction;
    TaskQueueTest.PostALot does. *)
Record Events := mkEvents {
  event_run : bool;
  event_cleanup : bool
}.

Definition task : QueuedTask Events :=
  ClosureTaskWithCleanup
    [Effect (λ _ s, mkEvents true (event_cleanup s))]
    (λ s, mkEvents (event_run s) true).

Definition test : list (Op Events) :=
  OpPostTask kPostQueue task :: replicate 3 (OpWorker kPostQueue).

Example post_move_only_cleanup_runs :
  let r := run 16 0 true test (new_world (mkEvents false false) [kPostQueue])
  in
  env r.1 = mkEvents true true ∧
  r.2 = [Posted kPostQueue (0, task);
         Started kPostQueue Immediate (0, task);
         Invoked (0, task) RunCallable;
         Executed kPostQueue (0, task);
         Returned kPostQueue (0, task) true;
         Invoked (0, task) CleanupCallable;
         Deleted (ByQueue kPostQueue) (0, task)].
Proof. split; vm_compute; reflexivity. Qed.

End PostMoveOnlyCleanup.

(** *** TaskQueueTest.PostDelayed *)

Module PostDelayed.

Definition kQueueName : QueueId := "PostDelayed".

(** The event, and whether [queue->IsCurrent()] held when it was
    checked. *)
Record State := mkState {
  event : bool;
  expectations : bool
}.

(** [CheckCurrent(&event, &queue)]. *)
Definition CheckCurrent : QueuedTask State :=
  ClosureTask
    [Effect (λ cur s, mkState (event s)
               (expectations s && bool_decide (cur = Some kQueueName)));
     Effect (λ _ s, mkState true (expectations s))].

Definition start : World State :=
  new_world (mkState false true) [kQueueName].

(** The task is posted with a delay of 100 ms; time passes; the worker
    looks for a delayed task that is due, and runs what it finds. *)
Definition test (elapsed : nat) : list (Op State) :=
  [OpPostDelayedTask kQueueName CheckCurrent 100; OpAdvance elapsed;
   OpFire kQueueName]
  ++ replicate 3 (OpWorker kQueueName).

Example post_delayed_runs :
  let r := run 16 0 true (test 100) start in
  env r.1 = mkState true true ∧ now r.1 = 100 ∧
  r.2 = Scheduled kQueueName (0, CheckCurrent) 100
        :: trace kQueueName Delayed (0, CheckCurrent).
Proof. repeat split; vm_compute; reflexivity. Qed.

Example post_delayed_not_yet :
  let r := run 16 0 true (test 99) start in
  env r.1 = mkState false true ∧
  r.2 = [Scheduled kQueueName (0, CheckCurrent) 100].
Proof. split; vm_compute; reflexivity. Qed.

End PostDelayed.

(** *** TaskQueueTest.PostMultipleDelayed *)

Module PostMultipleDelayed.

Definition kQueueName : QueueId := "PostMultipleDelayed".

(** The events that are set, in the order in which they were set, and
    whether [queue->IsCurrent()] held whenever it was checked. *)
Record State := mkState {
  events : list nat;
  expectations : bool
}.

(** [CheckCurrent(events[i], &queue)]. *)
Definition CheckCurrent (i : nat) : QueuedTask State :=
  ClosureTask
    [Effect (λ cur s, mkState (events s)
               (expectations s && bool_decide (cur = Some kQueueName)));
     Effect (λ _ s, mkState (events s ++ [i]) (expectations s))].

Definition kTaskCount : nat := 100.

Definition tasks : list (QueuedTask State) :=
  CheckCurrent <$> seq 0 kTaskCount.

Definition start : World State := new_world (mkState [] true) [kQueueName].

(** The tasks are posted with the delays 0, 1, ..., 99; time passes; the
    worker turns to the delayed tasks, one after the other. *)
Definition test (elapsed : nat) : list (Op State) :=
  post_batch kQueueName 0 tasks
  ++ OpAdvance elapsed
  :: fire_steps kQueueName (batch_entries kQueueName 0 start tasks).

Example post_multiple_delayed_runs :
  let r := run 128 0 true (test 99) start in
  env r.1 = mkState (seq 0 kTaskCount) true ∧ timers r.1 = [].
Proof. split; vm_compute; reflexivity. Qed.

End PostMultipleDelayed.

(** *** TaskQueueTest.PostDelayedAfterDestruct *)

Module PostDelayedAfterDestruct.

Definition kQueueName : QueueId := "PostDelayedAfterDestruct".

(** The two events of the test. *)
Record Events := mkEvents {
  run_set : bool;
  deleted_set : bool
}.

Definition task : QueuedTask Events :=
  ClosureTaskWithCleanup
    [Effect (λ _ s, mkEvents true (deleted_set s))]
    (λ s, mkEvents (run_set s) true).

Definition start : World Events :=
  new_world (mkEvents false false) [kQueueName].

(** The task is posted with a delay of 100 ms and the queue goes out of
    scope. *)
Definition test : list (Op Events) :=
  [OpPostDelayedTask kQueueName task 100; OpDestroy kQueueName].

(** Nothing has happened to the task yet. *)
Example post_delayed_after_destruct_pending :
  let r := run 16 0 true test start in
  env r.1 = mkEvents false false ∧
  r.2 = [Scheduled kQueueName (0, task) 100].
Proof. split; vm_compute; reflexivity. Qed.

(** The delay mechanism disposes of the entry when it learns that the
    queue is gone. *)
Example post_delayed_after_destruct_reaped :
  let r := run 16 0 true (test ++ [OpReap kQueueName]) start in
  env r.1 = mkEvents false true ∧
  r.2 = [Scheduled kQueueName (0, task) 100;
         Invoked (0, task) CleanupCallable; Deleted ByDelay (0, task)].
Proof. split; vm_compute; reflexivity. Qed.

(** Or when the entry fires, however late. *)
Example post_delayed_after_destruct_fired :
  let r := run 16 0 true (test ++ [OpAdvance 1000; OpFire kQueueName]) start
  in
  env r.1 = mkEvents false true ∧
  r.2 = [Scheduled kQueueName (0, task) 100;
         Invoked (0, task) CleanupCallable; Deleted ByDelay (0, task)].
Proof. split; vm_compute; reflexivity. Qed.

(** The queue may be destroyed at any time before the entry fires. *)
Example post_delayed_after_destruct_later :
  let r := run 16 0 true
             [OpPostDelayedTask kQueueName task 100; OpAdvance 50;
              OpDestroy kQueueName; OpAdvance 50; OpFire kQueueName]
             start in
  env r.1 = mkEvents false true ∧
  r.2 = [Scheduled kQueueName (0, task) 100;
         Invoked (0, task) CleanupCallable; Deleted ByDelay (0, task)].
Proof. split; vm_compute; reflexivity. Qed.

(** While the queue is alive the task runs when it is due, and is then
    destroyed by the queue. *)
Example post_delayed_queue_alive :
  let r := run 16 0 true
             ([OpPostDelayedTask kQueueName task 100; OpAdvance 100;
               OpFire kQueueName]
              ++ replicate 2 (OpWorker kQueueName)) start in
  env r.1 = mkEvents true true ∧
  r.2 = [Scheduled kQueueName (0, task) 100;
         Started kQueueName Delayed (0, task);
         Invoked (0, task) RunCallable;
         Executed kQueueName (0, task);
         Returned kQueueName (0, task) true;
         Invoked (0, task) CleanupCallable;
         Deleted (ByQueue kQueueName) (0, task)].
Proof. split; vm_compute; reflexivity. Qed.

End PostDelayedAfterDestruct.

(** ** The claims, on the tests *)




(** C3, counterexample.  TaskQueueTest.PostALot expects one cleanup per
    posted task: [EXPECT_EQ(kTaskCount, tasks_cleaned_up)].  Take the
    schedule in which one task is posted and the worker runs the blocker
    and the task before the queue is destroyed.  If the cleanup callable
    of a paired closure that has run were never invoked the cleanup
    counter would stay at 0 and the expectation would fail.  The
    expectation holds when the destruction of the task invokes the
    cleanup callable; the task then executes normally, [Run] returns
    true, and the cleanup callable is invoked. *)
Lemma cleanup_never_invoked_counterexample :
  let sched := true :: replicate 6 false in
  PostALot.posted sched = 1 ∧
  (let r := run 16 0 false (PostALot.test sched) PostALot.start in
   env r.1 = PostALot.mkCounters 1 0) ∧
  (let r := run 16 0 true (PostALot.test sched) PostALot.start in
   env r.1 = PostALot.mkCounters 1 1 ∧
   r.2 = [Posted PostALot.kQueueName (0, PostALot.blocker);
          Posted PostALot.kQueueName (1, PostALot.task)]
         ++ trace PostALot.kQueueName Immediate (0, PostALot.blocker)
         ++ [Started PostALot.kQueueName Immediate (1, PostALot.task);
             Invoked (1, PostALot.task) RunCallable;
             Executed PostALot.kQueueName (1, PostALot.task);
             Returned PostALot.kQueueName (1, PostALot.task) true;
             Invoked (1, PostALot.task) CleanupCallable;
             Deleted (ByQueue PostALot.kQueueName) (1, PostALot.task)]).
Proof. repeat split; vm_compute; reflexivity. Qed.

Lemma paired_closure_runs_then_cleans_up_witness :
  let w := (run 16 0 true
              [OpPostTask PostMoveOnlyCleanup.kPostQueue
                          PostMoveOnlyCleanup.task]
              (new_world (PostMoveOnlyCleanup.mkEvents false false)
                         [PostMoveOnlyCleanup.kPostQueue])).1 in
  let r := run 16 0 true
             (replicate 3 (OpWorker PostMoveOnlyCleanup.kPostQueue)) w in
  env r.1 = PostMoveOnlyCleanup.mkEvents true true ∧
  r.2 = [Started PostMoveOnlyCleanup.kPostQueue Immediate
                 (0, PostMoveOnlyCleanup.task);
         Invoked (0, PostMoveOnlyCleanup.task) RunCallable;
         Executed PostMoveOnlyCleanup.kPostQueue
                  (0, PostMoveOnlyCleanup.task);
         Returned PostMoveOnlyCleanup.kPostQueue
                  (0, PostMoveOnlyCleanup.task) true;
         Invoked (0, PostMoveOnlyCleanup.task) CleanupCallable;
         Deleted (ByQueue PostMoveOnlyCleanup.kPostQueue)
                 (0, PostMoveOnlyCleanup.task)].
Proof.
  intros w r.
  destruct (paired_closure_runs_then_cleans_up
              PostMoveOnlyCleanup.Events 16 0 true
              PostMoveOnlyCleanup.kPostQueue (0, PostMoveOnlyCleanup.task)
              [Effect (λ _ s, PostMoveOnlyCleanup.mkEvents true
                                (PostMoveOnlyCleanup.event_cleanup s))]
              (λ s, PostMoveOnlyCleanup.mkEvents
                      (PostMoveOnlyCleanup.event_run s) true))
    as (Himmediate & _ & _).
  - reflexivity.
  - reflexivity.
  - assert (H := Himmediate w [] ltac:(vm_compute; reflexivity)
                             ltac:(vm_compute; reflexivity)).
    cbn [length] in H. unfold r. rewrite H.
    split; vm_compute; reflexivity.
Defined.


Lemma fresh_new_world {Env : Type} (e : Env) (qs : list QueueId) :
  fresh (new_world e qs).
Proof.
  split; [|split].
  - intros q pend Hq it Hit. unfold new_world in Hq. simpl in Hq.
    apply elem_of_list_to_map_2 in Hq.
    apply list_elem_of_fmap in Hq as (q' & Heq & _).
    injection Heq as _ ->. by apply elem_of_nil in Hit.
  - intros q fr Hfr. unfold new_world in Hfr. simpl in Hfr.
    by rewrite lookup_empty in Hfr.
  - intros e' He'. by apply elem_of_nil in He'.
Qed.




Lemma tasks_run_in_submission_order_witness :
  let q := PostTwoWithSharedUnprotectedState.kQueueName in
  let posted := number 0 [PostTwoWithSharedUnprotectedState.first;
                          PostTwoWithSharedUnprotectedState.second] in
  let w1 := (run 16 0 true
               (post_all q [PostTwoWithSharedUnprotectedState.first;
                            PostTwoWithSharedUnprotectedState.second])
               PostTwoWithSharedUnprotectedState.start).1 in
  let r := run 16 0 true (worker_steps q posted) w1 in
  env r.1 = PostTwoWithSharedUnprotectedState.mkState 1 true true ∧
  r.2 = posted ≫= trace q Immediate.
Proof.
  intros q posted w1 r.
  destruct (tasks_run_in_submission_order
              PostTwoWithSharedUnprotectedState.SharedState 16 0 true q
              [PostTwoWithSharedUnprotectedState.first;
               PostTwoWithSharedUnprotectedState.second]
              PostTwoWithSharedUnprotectedState.start [])
    as (_ & _ & _ & Hruns & _).
  - reflexivity.
  - simpl. lia.
  - destruct Hruns as (He & Hevs & _).
    + reflexivity.
    + reflexivity.
    + repeat constructor; eexists; (split; [reflexivity|]);
        by repeat constructor.
    + split; [|exact Hevs]. etrans; [exact He|]. reflexivity.
Defined.

(** No event of a list that has been computed satisfies a predicate on
    the queue and the task that it names. *)
Ltac none_of_them :=
  repeat first
    [ apply Forall_nil_2
    | apply Forall_cons_2;
      [ let H := fresh in
        intros H; simpl in H;
        first [ contradiction | destruct H as [H _]; discriminate H ]
      | ] ].


End TaskQueue.

(* ===================================================================== *)
(** ** api/media_constraints_interface.cc: from constraints to options *)
(* ===================================================================== *)

Module ConstraintsConversion.

Import MediaConstraints.

(** The constraint keys the conversions look up, as the file defines them. *)
Definition kGoogEchoCancellation : string := "googEchoCancellation".
Definition kExtendedFilterEchoCancellation : string := "googEchoCancellation2".
Definition kDAEchoCancellation : string := "googDAEchoCancellation".
Definition kAutoGainControl : string := "googAutoGainControl".
Definition kExperimentalAutoGainControl : string := "googAutoGainControl2".
Definition kNoiseSuppression : string := "googNoiseSuppression".
Definition kExperimentalNoiseSuppression : string := "googNoiseSuppression2".
Definition kHighpassFilter : string := "googHighpassFilter".
Definition kTypingNoiseDetection : string := "googTypingNoiseDetection".
Definition kAudioMirroring : string := "googAudioMirroring".
Definition kAudioNetworkAdaptorConfig : string :=
  "googAudioNetworkAdaptorConfig".
Definition kOfferToReceiveAudio : string := "OfferToReceiveAudio".
Definition kOfferToReceiveVideo : string := "OfferToReceiveVideo".
Definition kVoiceActivityDetection : string := "VoiceActivityDetection".
Definition kIceRestart : string := "IceRestart".
Definition kUseRtpMux : string := "googUseRtpMUX".
Definition kEnableDtlsSrtp : string := "DtlsSrtpKeyAgreement".
Definition kEnableRtpDataChannels : string := "RtpDataChannels".
Definition kEnableDscp : string := "googDscp".
Definition kEnableIPv6 : string := "googIPv6".
Definition kEnableVideoSuspendBelowMinBitrate : string :=
  "googSuspendBelowMinBitrate".
Definition kCombinedAudioVideoBwe : string := "googCombinedAudioVideoBwe".
Definition kScreencastMinBitrate : string := "googScreencastMinBitrate".
Definition kCpuOveruseDetection : string := "googCpuOveruseDetection".
Definition kNumSimulcastLayers : string := "googNumSimulcastLayers".

(** The members of [PeerConnectionInterface::RTCOfferAnswerOptions] that
    the file assigns (the class is declared in a header that is not among
    the sources). *)
Record RTCOfferAnswerOptions := mkOfferAnswerOptions {
  offer_to_receive_audio : Z;
  offer_to_receive_video : Z;
  voice_activity_detection : bool;
  use_rtp_mux : bool;
  ice_restart : bool;
  num_simulcast_layers : Z
}.

(** The members of [PeerConnectionInterface::RTCConfiguration], with its
    [media_config], that the file assigns. *)
Record MediaConfigVideo := mkMediaConfigVideo {
  enable_cpu_adaptation : bool;
  suspend_below_min_bitrate : bool
}.

Record MediaConfig := mkMediaConfig {
  enable_dscp : bool;
  video : MediaConfigVideo
}.

Record RTCConfiguration := mkConfiguration {
  disable_ipv6 : bool;
  media_config : MediaConfig;
  enable_rtp_data_channel : bool;
  screencast_min_bitrate : option Z;
  combined_audio_video_bwe : option bool;
  enable_dtls_srtp : option bool
}.

(** The members of [cricket::AudioOptions] that the file assigns. *)
Record AudioOptions := mkAudioOptions {
  echo_cancellation : option bool;
  extended_filter_aec : option bool;
  delay_agnostic_aec : option bool;
  auto_gain_control : option bool;
  experimental_agc : option bool;
  noise_suppression : option bool;
  experimental_ns : option bool;
  highpass_filter : option bool;
  typing_detection : option bool;
  stereo_swapping : option bool;
  audio_network_adaptor_config : option string;
  audio_network_adaptor : option bool
}.

Section Conversion.

(** Width of [size_t] on the target. *)
Variable size_t_bits : Z.

(** [rtc::FromString(s, t)] for [bool] and [int] is declared in
    rtc_base/string_encode.h, which is not among the sources.  It is taken
    as it is called: from the string and the present content of the object
    behind [t] to its return value and the content afterwards. *)
Variable FromString_bool : string → bool → bool * bool.
Variable FromString_int : string → Z → bool * Z.

(** [RTCOfferAnswerOptions::kOfferToReceiveMediaTrue], declared with the
    class. *)
Variable kOfferToReceiveMediaTrue : Z.

(** What an uninitialised local [bool] or [int] happens to hold. *)
Variable indeterminate_bool : bool.
Variable indeterminate_int : Z.

Section Template.

Context {T : Type}.
Variable FromString : string → T → bool * T.

(** [template <typename T> bool FindConstraint(constraints, key, value,
    mandatory_constraints)]: look the key up as a string, then convert. *)
Definition FindConstraintT (constraints : option MediaConstraintsInterface)
    (k : string) (out : T) (mandatory_constraints : option Z)
  : bool * T * option Z :=
  let '(found, string_value, counter) :=
    FindConstraint size_t_bits constraints k "" mandatory_constraints in
  if found
  then let '(ok, out') := FromString string_value out in (ok, out', counter)
  else (false, out, counter).

(** [template <typename T> void ConstraintToOptional(constraints, key,
    value_out)], for a [T] other than [std::string]: the local [value] is
    not initialised. *)
Definition ConstraintToOptional (indeterminate : T)
    (constraints : option MediaConstraintsInterface) (k : string)
    (value_out : option T) : option T :=
  let '(present, value, _) :=
    FindConstraintT constraints k indeterminate None in
  if present then Some value else value_out.

End Template.

(** [ConstraintToOptional<std::string>]: the look-up is the specialisation
    of [FindConstraint] for strings, the local [value] an empty string. *)
Definition ConstraintToOptionalString
    (constraints : option MediaConstraintsInterface) (k : string)
    (value_out : option string) : option string :=
  let '(present, value, _) :=
    FindConstraint size_t_bits constraints k "" None in
  if present then Some value else value_out.

(** [bool FindConstraint(constraints, key, bool* value,
    mandatory_constraints)] and its overload for [int]. *)
Definition FindConstraintBool := FindConstraintT FromString_bool.
Definition FindConstraintInt := FindConstraintT FromString_int.

(** [void CopyConstraintsIntoRtcConfiguration(constraints, configuration)] *)
Definition CopyConstraintsIntoRtcConfiguration
    (constraints : option MediaConstraintsInterface)
    (configuration : RTCConfiguration) : RTCConfiguration :=
  match constraints with
  | None => configuration
  | Some _ =>
      let '(found, enable_ipv6, _) :=
        FindConstraintBool constraints kEnableIPv6 indeterminate_bool None in
      let disable_ipv6' :=
        if found then negb enable_ipv6 else disable_ipv6 configuration in
      let '(_, enable_dscp', _) :=
        FindConstraintBool constraints kEnableDscp
          (enable_dscp (media_config configuration)) None in
      let '(_, enable_cpu_adaptation', _) :=
        FindConstraintBool constraints kCpuOveruseDetection
          (enable_cpu_adaptation (video (media_config configuration))) None in
      let '(_, enable_rtp_data_channel', _) :=
        FindConstraintBool constraints kEnableRtpDataChannels
          (enable_rtp_data_channel configuration) None in
      let '(_, suspend_below_min_bitrate', _) :=
        FindConstraintBool constraints kEnableVideoSuspendBelowMinBitrate
          (suspend_below_min_bitrate (video (media_config configuration)))
          None in
      {| disable_ipv6 := disable_ipv6';
         media_config :=
           {| enable_dscp := enable_dscp';
              video :=
                {| enable_cpu_adaptation := enable_cpu_adaptation';
                   suspend_below_min_bitrate := suspend_below_min_bitrate' |}
           |};
         enable_rtp_data_channel := enable_rtp_data_channel';
         screencast_min_bitrate :=
           ConstraintToOptional FromString_int indeterminate_int constraints
             kScreencastMinBitrate (screencast_min_bitrate configuration);
         combined_audio_video_bwe :=
           ConstraintToOptional FromString_bool indeterminate_bool constraints
             kCombinedAudioVideoBwe (combined_audio_video_bwe configuration);
         enable_dtls_srtp :=
           ConstraintToOptional FromString_bool indeterminate_bool constraints
             kEnableDtlsSrtp (enable_dtls_srtp configuration) |}
  end.

(** [void CopyConstraintsIntoAudioOptions(constraints, options)] *)
Definition CopyConstraintsIntoAudioOptions
    (constraints : option MediaConstraintsInterface)
    (options : AudioOptions) : AudioOptions :=
  match constraints with
  | None => options
  | Some _ =>
      let to_optional :=
        ConstraintToOptional FromString_bool indeterminate_bool constraints in
      let config :=
        ConstraintToOptionalString constraints kAudioNetworkAdaptorConfig
          (audio_network_adaptor_config options) in
      {| echo_cancellation :=
           to_optional kGoogEchoCancellation (echo_cancellation options);
         extended_filter_aec :=
           to_optional kExtendedFilterEchoCancellation
             (extended_filter_aec options);
         delay_agnostic_aec :=
           to_optional kDAEchoCancellation (delay_agnostic_aec options);
         auto_gain_control :=
           to_optional kAutoGainControl (auto_gain_control options);
         experimental_agc :=
           to_optional kExperimentalAutoGainControl (experimental_agc options);
         noise_suppression :=
           to_optional kNoiseSuppression (noise_suppression options);
         experimental_ns :=
           to_optional kExperimentalNoiseSuppression (experimental_ns options);
         highpass_filter :=
           to_optional kHighpassFilter (highpass_filter options);
         typing_detection :=
           to_optional kTypingNoiseDetection (typing_detection options);
         stereo_swapping :=
           to_optional kAudioMirroring (stereo_swapping options);
         audio_network_adaptor_config := config;
         audio_network_adaptor :=
           if config is Some _ then Some true
           else audio_network_adaptor options |}
  end.

(** [bool CopyConstraintsIntoOfferAnswerOptions(constraints,
    offer_answer_options)].  The local [value] and the counter
    [mandatory_constraints_satisfied] go from one look-up to the next. *)
Definition CopyConstraintsIntoOfferAnswerOptions
    (constraints : option MediaConstraintsInterface)
    (o : RTCOfferAnswerOptions) : bool * RTCOfferAnswerOptions :=
  match constraints with
  | None => (true, o)
  | Some c =>
      let '(found, value, satisfied) :=
        FindConstraintBool constraints kOfferToReceiveAudio false (Some 0) in
      let audio :=
        if found then (if value then kOfferToReceiveMediaTrue else 0)
        else offer_to_receive_audio o in
      let '(found, value, satisfied) :=
        FindConstraintBool constraints kOfferToReceiveVideo value satisfied in
      let video :=
        if found then (if value then kOfferToReceiveMediaTrue else 0)
        else offer_to_receive_video o in
      let '(found, value, satisfied) :=
        FindConstraintBool constraints kVoiceActivityDetection value
          satisfied in
      let vad := if found then value else voice_activity_detection o in
      let '(found, value, satisfied) :=
        FindConstraintBool constraints kUseRtpMux value satisfied in
      let mux := if found then value else use_rtp_mux o in
      let '(found, value, satisfied) :=
        FindConstraintBool constraints kIceRestart value satisfied in
      let restart := if found then value else ice_restart o in
      let '(found, layers, satisfied) :=
        FindConstraintInt constraints kNumSimulcastLayers indeterminate_int
          satisfied in
      let layers' := if found then layers else num_simulcast_layers o in
      (bool_decide (satisfied = Some (Z.of_nat (length (GetMandatory c)))),
       {| offer_to_receive_audio := audio;
          offer_to_receive_video := video;
          voice_activity_detection := vad;
          use_rtp_mux := mux;
          ice_restart := restart;
          num_simulcast_layers := layers' |})
  end.

(** The keys each conversion looks up. *)
Definition rtc_configuration_keys : list string :=
  [kEnableIPv6; kEnableDscp; kCpuOveruseDetection; kEnableRtpDataChannels;
   kEnableVideoSuspendBelowMinBitrate; kScreencastMinBitrate;
   kCombinedAudioVideoBwe; kEnableDtlsSrtp].

Definition audio_options_keys : list string :=
  [kGoogEchoCancellation; kExtendedFilterEchoCancellation;
   kDAEchoCancellation; kAutoGainControl; kExperimentalAutoGainControl;
   kNoiseSuppression; kExperimentalNoiseSuppression; kHighpassFilter;
   kTypingNoiseDetection; kAudioMirroring; kAudioNetworkAdaptorConfig].

Definition offer_answer_keys : list string :=
  [kOfferToReceiveAudio; kOfferToReceiveVideo; kVoiceActivityDetection;
   kUseRtpMux; kIceRestart; kNumSimulcastLayers].

(** The constraints that are left when every entry whose key is not in
    [keys] is removed from both lists. *)
Definition only_keys (keys : list string) (c : MediaConstraintsInterface)
  : MediaConstraintsInterface :=
  {| GetMandatory := filter (λ x, key x ∈ keys) (GetMandatory c);
     GetOptional := filter (λ x, key x ∈ keys) (GetOptional c) |}.

(** The keys that occur in either list. *)
Definition keys_of (c : MediaConstraintsInterface) : list string :=
  key <$> (GetMandatory c ++ GetOptional c).

Lemma FindFirst_only (keys : list string) (cs : Constraints)
    (k out : string) :
  k ∈ keys →
  FindFirst (filter (λ x, key x ∈ keys) cs) k out = FindFirst cs k out.
Proof.
  intros Hk. induction cs as [|c rest IH]; [done|].
  destruct (decide (key c ∈ keys)) as [Hin|Hout].
  - rewrite filter_cons_True by done. simpl.
    destruct (decide (key c = k)); [done|apply IH].
  - rewrite filter_cons_False by done. simpl.
    rewrite decide_False by congruence. apply IH.
Qed.

Lemma FindFirst_absent (cs : Constraints) (k out : string) :
  k ∉ key <$> cs → FindFirst cs k out = (false, out).
Proof.
  induction cs as [|c rest IH]; [done|].
  rewrite fmap_cons, not_elem_of_cons. intros [Hne Hrest]. simpl.
  rewrite decide_False by congruence. by apply IH.
Qed.

Lemma FindFirst_present (cs : Constraints) (k out : string) :
  k ∈ key <$> cs → ∃ v, FindFirst cs k out = (true, v).
Proof.
  induction cs as [|c rest IH]; [by intros ?%elem_of_nil|].
  rewrite fmap_cons, elem_of_cons. intros Hin. simpl.
  destruct (decide (key c = k)) as [|Hne]; [by eexists|].
  apply IH. by destruct Hin as [->|].
Qed.

Lemma FindConstraint_only (keys : list string)
    (c : MediaConstraintsInterface) (k out : string) (n : option Z) :
  k ∈ keys →
  FindConstraint size_t_bits (Some (only_keys keys c)) k out n =
    FindConstraint size_t_bits (Some c) k out n.
Proof.
  intros Hk. unfold FindConstraint, only_keys. simpl.
  rewrite (FindFirst_only keys (GetMandatory c)) by done.
  destruct (FindFirst (GetMandatory c) k out) as [[] out1]; [done|].
  by rewrite (FindFirst_only keys (GetOptional c)).
Qed.

Lemma FindConstraint_absent (c : MediaConstraintsInterface)
    (k out : string) (n : option Z) :
  k ∉ keys_of c →
  FindConstraint size_t_bits (Some c) k out n = (false, out, n).
Proof.
  unfold keys_of. rewrite fmap_app, not_elem_of_app. intros [Hm Ho].
  unfold FindConstraint.
  rewrite (FindFirst_absent _ _ _ Hm), (FindFirst_absent _ _ _ Ho). done.
Qed.

Lemma FindConstraint_counter (c : MediaConstraintsInterface)
    (k out : string) (n : option Z) :
  (FindConstraint size_t_bits (Some c) k out n).2 =
    if decide (k ∈ key <$> GetMandatory c)
    then size_t_incr size_t_bits <$> n else n.
Proof.
  unfold FindConstraint.
  destruct (decide (k ∈ key <$> GetMandatory c)) as [Hin|Hout].
  - destruct (FindFirst_present _ _ out Hin) as [v ->]. done.
  - rewrite (FindFirst_absent _ _ _ Hout).
    by destruct (FindFirst (GetOptional c) k out) as [[] ?].
Qed.

Section TemplateFacts.

Context {T : Type}.
Variable FromString : string → T → bool * T.

Lemma FindConstraintT_only (keys : list string)
    (c : MediaConstraintsInterface) (k : string) (out : T) (n : option Z) :
  k ∈ keys →
  FindConstraintT FromString (Some (only_keys keys c)) k out n =
    FindConstraintT FromString (Some c) k out n.
Proof.
  intros Hk. unfold FindConstraintT. by rewrite FindConstraint_only.
Qed.

Lemma FindConstraintT_absent (c : MediaConstraintsInterface)
    (k : string) (out : T) (n : option Z) :
  k ∉ keys_of c →
  FindConstraintT FromString (Some c) k out n = (false, out, n).
Proof.
  intros Hk. unfold FindConstraintT. by rewrite FindConstraint_absent.
Qed.

Lemma FindConstraintT_counter (c : MediaConstraintsInterface)
    (k : string) (out : T) (n : option Z) :
  (FindConstraintT FromString (Some c) k out n).2 =
    if decide (k ∈ key <$> GetMandatory c)
    then size_t_incr size_t_bits <$> n else n.
Proof.
  unfold FindConstraintT.
  rewrite <- (FindConstraint_counter c k "" n).
  destruct (FindConstraint size_t_bits (Some c) k "" n) as [[[] s] m];
    [|done].
  by destruct (FromString s out).
Qed.

Lemma ConstraintToOptional_only (keys : list string) (i : T)
    (c : MediaConstraintsInterface) (k : string) (v : option T) :
  k ∈ keys →
  ConstraintToOptional FromString i (Some (only_keys keys c)) k v =
    ConstraintToOptional FromString i (Some c) k v.
Proof.
  intros Hk. unfold ConstraintToOptional. by rewrite FindConstraintT_only.
Qed.

Lemma ConstraintToOptional_absent (i : T) (c : MediaConstraintsInterface)
    (k : string) (v : option T) :
  k ∉ keys_of c → ConstraintToOptional FromString i (Some c) k v = v.
Proof.
  intros Hk. unfold ConstraintToOptional. by rewrite FindConstraintT_absent.
Qed.

Lemma ConstraintToOptional_twice (i : T)
    (c : option MediaConstraintsInterface) (k : string) (v : option T) :
  ConstraintToOptional FromString i c k
    (ConstraintToOptional FromString i c k v) =
  ConstraintToOptional FromString i c k v.
Proof.
  unfold ConstraintToOptional.
  by destruct (FindConstraintT FromString c k i None) as [[[] ?] ?].
Qed.

(** X1.  A key that has a mandatory entry is settled by its first mandatory
    entry alone: the value of that entry is what is converted, the counter
    is incremented whether or not the conversion succeeds, and the optional
    constraints are not consulted, not even when the conversion fails. *)
Theorem mandatory_entry_decides (c : MediaConstraintsInterface)
    (k : string) (out : T) (n : option Z) (i : nat) (m : Constraint) :
  list_find (λ x, key x = k) (GetMandatory c) = Some (i, m) →
  FindConstraintT FromString (Some c) k out n =
    ((FromString (value m) out).1, (FromString (value m) out).2,
     size_t_incr size_t_bits <$> n).
Proof.
  intros Hm. unfold FindConstraintT.
  rewrite FindConstraint_spec, Hm.
  by destruct (FromString (value m) out).
Qed.

End TemplateFacts.

Lemma ConstraintToOptionalString_only (keys : list string)
    (c : MediaConstraintsInterface) (k : string) (v : option string) :
  k ∈ keys →
  ConstraintToOptionalString (Some (only_keys keys c)) k v =
    ConstraintToOptionalString (Some c) k v.
Proof.
  intros Hk. unfold ConstraintToOptionalString.
  by rewrite FindConstraint_only.
Qed.

Lemma ConstraintToOptionalString_absent (c : MediaConstraintsInterface)
    (k : string) (v : option string) :
  k ∉ keys_of c → ConstraintToOptionalString (Some c) k v = v.
Proof.
  intros Hk. unfold ConstraintToOptionalString.
  by rewrite FindConstraint_absent.
Qed.

Lemma ConstraintToOptionalString_twice
    (c : option MediaConstraintsInterface) (k : string) (v : option string) :
  ConstraintToOptionalString c k (ConstraintToOptionalString c k v) =
  ConstraintToOptionalString c k v.
Proof.
  unfold ConstraintToOptionalString.
  by destruct (FindConstraint size_t_bits c k "" None) as [[[] ?] ?].
Qed.

Ltac key_listed := by (apply (bool_decide_unpack _); vm_compute).

(** X2.  [CopyConstraintsIntoRtcConfiguration] reads nothing but the
    entries under its own eight keys: removing every other entry from the
    constraints leaves the resulting configuration the same. *)
Theorem CopyConstraintsIntoRtcConfiguration_own_keys
    (constraints : option MediaConstraintsInterface)
    (configuration : RTCConfiguration) :
  CopyConstraintsIntoRtcConfiguration
    (only_keys rtc_configuration_keys <$> constraints) configuration =
  CopyConstraintsIntoRtcConfiguration constraints configuration.
Proof.
  destruct constraints as [c|]; [|done].
  unfold CopyConstraintsIntoRtcConfiguration, FindConstraintBool. simpl.
  rewrite !(FindConstraintT_only _ rtc_configuration_keys) by key_listed.
  rewrite !(ConstraintToOptional_only _ rtc_configuration_keys)
    by key_listed.
  done.
Qed.

(** X3.  [CopyConstraintsIntoAudioOptions] reads nothing but the entries
    under its own eleven keys. *)
Theorem CopyConstraintsIntoAudioOptions_own_keys
    (constraints : option MediaConstraintsInterface)
    (options : AudioOptions) :
  CopyConstraintsIntoAudioOptions
    (only_keys audio_options_keys <$> constraints) options =
  CopyConstraintsIntoAudioOptions constraints options.
Proof.
  destruct constraints as [c|]; [|done].
  unfold CopyConstraintsIntoAudioOptions. simpl.
  rewrite !(ConstraintToOptional_only _ audio_options_keys) by key_listed.
  rewrite !(ConstraintToOptionalString_only audio_options_keys)
    by key_listed.
  done.
Qed.

Ltac next_lookup :=
  match goal with
  | |- context [FindConstraintT ?F (Some ?c) ?k ?out ?n] =>
      let H := fresh "Hcount" in
      pose proof (FindConstraintT_counter F c k out n) as H;
      destruct (FindConstraintT F (Some c) k out n) as [[? ?] ?];
      simpl in H; subst
  end.

(** X4.  The options that [CopyConstraintsIntoOfferAnswerOptions] produces
    depend on nothing but the entries under its own six keys.  (Its return
    value does look at the other mandatory entries: it counts them.) *)
Theorem CopyConstraintsIntoOfferAnswerOptions_own_keys
    (constraints : option MediaConstraintsInterface)
    (o : RTCOfferAnswerOptions) :
  (CopyConstraintsIntoOfferAnswerOptions
     (only_keys offer_answer_keys <$> constraints) o).2 =
  (CopyConstraintsIntoOfferAnswerOptions constraints o).2.
Proof.
  destruct constraints as [c|]; [|done].
  unfold CopyConstraintsIntoOfferAnswerOptions, FindConstraintBool,
    FindConstraintInt.
  simpl fmap.
  repeat (rewrite (FindConstraintT_only _ offer_answer_keys) by key_listed;
          match goal with
          | |- context [FindConstraintT ?F (Some c) ?k ?out ?n] =>
              destruct (FindConstraintT F (Some c) k out n) as [[? ?] ?]
          end).
  done.
Qed.

Lemma size_t_incr_small (n : nat) :
  3 ≤ size_t_bits → (n < 7)%nat →
  size_t_incr size_t_bits (Z.of_nat n) = Z.of_nat (S n).
Proof.
  intros Hbits Hn. unfold size_t_incr. rewrite Z.mod_small; [lia|].
  assert (2 ^ 3 ≤ 2 ^ size_t_bits) by (apply Z.pow_le_mono_r; lia).
  lia.
Qed.

(** How many of the six recognised keys occur among the mandatory
    constraints. *)
Definition recognised_mandatory (c : MediaConstraintsInterface) : nat :=
  length (filter (λ k, k ∈ key <$> GetMandatory c) offer_answer_keys).

Lemma offer_answer_counter (c : MediaConstraintsInterface)
    (o : RTCOfferAnswerOptions) :
  3 ≤ size_t_bits →
  (CopyConstraintsIntoOfferAnswerOptions (Some c) o).1 =
    bool_decide (recognised_mandatory c = length (GetMandatory c)).
Proof.
  intros Hbits.
  unfold CopyConstraintsIntoOfferAnswerOptions, FindConstraintBool,
    FindConstraintInt.
  do 6 next_lookup. cbn [fst].
  unfold recognised_mandatory, offer_answer_keys.
  rewrite !filter_cons, filter_nil. change 0 with (Z.of_nat 0).
  repeat match goal with
         | |- context [decide (?k ∈ ?l)] => destruct (decide (k ∈ l))
         end;
    cbn [fmap option_fmap option_map length];
    rewrite ?size_t_incr_small by (done || lia);
    apply bool_decide_ext; (split; [intros [=]|intros ->; f_equal]); lia.
Qed.

Lemma count_listed (K R : list string) :
  NoDup R →
  length (filter (λ k, k ∈ K) R) = length K ↔
  NoDup K ∧ ∀ k, k ∈ K → k ∈ R.
Proof.
  intros HR. split.
  - intros Hlen.
    assert (filter (λ k, k ∈ K) R ≡ₚ K) as Hperm.
    { apply submseteq_length_Permutation; [|lia].
      apply NoDup_submseteq; [by apply NoDup_filter|].
      by intros x [? ?]%list_elem_of_filter. }
    split.
    + rewrite <- Hperm. by apply NoDup_filter.
    + intros k Hk. rewrite <- Hperm in Hk.
      by apply list_elem_of_filter in Hk as [? ?].
  - intros [HK Hsub]. apply Permutation_length.
    apply NoDup_Permutation; [by apply NoDup_filter|done|].
    intros x. rewrite list_elem_of_filter.
    split; [by intros [? ?]|intros Hx; split; [done|by apply Hsub]].
Qed.

Lemma offer_answer_keys_NoDup : NoDup offer_answer_keys.
Proof. apply (bool_decide_unpack _). by vm_compute. Qed.

(** X5.  [CopyConstraintsIntoOfferAnswerOptions] returns true for a
    constraints object exactly when its mandatory constraints have pairwise
    different keys, each of them one of the six keys the function looks
    up.  What the values are, and whether they can be converted, plays no
    part.  ([size_t] must have at least three bits for the counter to
    reach six.) *)
Theorem CopyConstraintsIntoOfferAnswerOptions_returns
    (c : MediaConstraintsInterface) (o : RTCOfferAnswerOptions) :
  3 ≤ size_t_bits →
  (CopyConstraintsIntoOfferAnswerOptions (Some c) o).1 = true ↔
  NoDup (key <$> GetMandatory c) ∧
  ∀ k, k ∈ key <$> GetMandatory c → k ∈ offer_answer_keys.
Proof.
  intros Hbits. rewrite offer_answer_counter by done.
  rewrite <- (count_listed _ _ offer_answer_keys_NoDup).
  unfold recognised_mandatory. rewrite length_fmap.
  split; [apply bool_decide_eq_true_1|apply bool_decide_eq_true_2].
Qed.

(** X6.  Copying the same constraints into audio options a second time
    changes nothing. *)
Theorem CopyConstraintsIntoAudioOptions_idempotent
    (constraints : option MediaConstraintsInterface)
    (options : AudioOptions) :
  CopyConstraintsIntoAudioOptions constraints
    (CopyConstraintsIntoAudioOptions constraints options) =
  CopyConstraintsIntoAudioOptions constraints options.
Proof.
  destruct constraints as [c|]; [|done].
  unfold CopyConstraintsIntoAudioOptions. cbn [echo_cancellation
    extended_filter_aec delay_agnostic_aec auto_gain_control
    experimental_agc noise_suppression experimental_ns highpass_filter
    typing_detection stereo_swapping audio_network_adaptor_config
    audio_network_adaptor].
  rewrite !ConstraintToOptional_twice, ConstraintToOptionalString_twice.
  by destruct (ConstraintToOptionalString _ _ _).
Qed.

(** X7.  Copying the same constraints into offer/answer options a second
    time gives the same return value and changes nothing more. *)
Theorem CopyConstraintsIntoOfferAnswerOptions_idempotent
    (constraints : option MediaConstraintsInterface)
    (o : RTCOfferAnswerOptions) :
  CopyConstraintsIntoOfferAnswerOptions constraints
    (CopyConstraintsIntoOfferAnswerOptions constraints o).2 =
  CopyConstraintsIntoOfferAnswerOptions constraints o.
Proof.
  destruct constraints as [c|]; [|done].
  unfold CopyConstraintsIntoOfferAnswerOptions, FindConstraintBool,
    FindConstraintInt.
  repeat match goal with
         | |- context [FindConstraintT ?F (Some c) ?k ?out ?n] =>
             destruct (FindConstraintT F (Some c) k out n) as [[[] ?] ?]
         end; reflexivity.
Qed.

Section Reparse.

(** Converting a string into an object that already holds the outcome of
    converting that string leaves the object as it is. *)
Hypothesis FromString_bool_settles : ∀ s b,
  (FromString_bool s (FromString_bool s b).2).2 = (FromString_bool s b).2.

Lemma FindConstraintBool_settles (c : option MediaConstraintsInterface)
    (k : string) (b : bool) :
  (FindConstraintBool c k (FindConstraintBool c k b None).1.2 None).1.2 =
  (FindConstraintBool c k b None).1.2.
Proof.
  unfold FindConstraintBool, FindConstraintT.
  destruct (FindConstraint size_t_bits c k "" None) as [[[] s] n]; [|done].
  specialize (FromString_bool_settles s b).
  destruct (FromString_bool s b) as [ok b']. simpl in *.
  by destruct (FromString_bool s b') as [ok' b''].
Qed.

(** X8.  Copying the same constraints into a configuration a second time
    changes nothing, provided that converting a string twice into the same
    object gives what converting it once gives. *)
Theorem CopyConstraintsIntoRtcConfiguration_idempotent
    (constraints : option MediaConstraintsInterface)
    (configuration : RTCConfiguration) :
  CopyConstraintsIntoRtcConfiguration constraints
    (CopyConstraintsIntoRtcConfiguration constraints configuration) =
  CopyConstraintsIntoRtcConfiguration constraints configuration.
Proof.
  destruct constraints as [c|]; [|done].
  unfold CopyConstraintsIntoRtcConfiguration.
  destruct (FindConstraintBool (Some c) kEnableIPv6 indeterminate_bool None)
    as [[found6 v6] ?].
  pose proof (FindConstraintBool_settles (Some c) kEnableDscp
    (enable_dscp (media_config configuration))) as H1.
  pose proof (FindConstraintBool_settles (Some c) kCpuOveruseDetection
    (enable_cpu_adaptation (video (media_config configuration)))) as H2.
  pose proof (FindConstraintBool_settles (Some c) kEnableRtpDataChannels
    (enable_rtp_data_channel configuration)) as H3.
  pose proof (FindConstraintBool_settles (Some c)
    kEnableVideoSuspendBelowMinBitrate
    (suspend_below_min_bitrate (video (media_config configuration)))) as H4.
  destruct (FindConstraintBool (Some c) kEnableDscp
    (enable_dscp (media_config configuration)) None) as [[? dscp] ?].
  destruct (FindConstraintBool (Some c) kCpuOveruseDetection
    (enable_cpu_adaptation (video (media_config configuration))) None)
    as [[? cpu] ?].
  destruct (FindConstraintBool (Some c) kEnableRtpDataChannels
    (enable_rtp_data_channel configuration) None) as [[? rtp] ?].
  destruct (FindConstraintBool (Some c) kEnableVideoSuspendBelowMinBitrate
    (suspend_below_min_bitrate (video (media_config configuration))) None)
    as [[? suspend] ?].
  cbn [disable_ipv6 media_config enable_dscp video enable_cpu_adaptation
    suspend_below_min_bitrate enable_rtp_data_channel screencast_min_bitrate
    combined_audio_video_bwe enable_dtls_srtp fst snd] in *.
  rewrite !ConstraintToOptional_twice.
  destruct (FindConstraintBool (Some c) kEnableDscp dscp None)
    as [[? dscp'] ?].
  destruct (FindConstraintBool (Some c) kCpuOveruseDetection cpu None)
    as [[? cpu'] ?].
  destruct (FindConstraintBool (Some c) kEnableRtpDataChannels rtp None)
    as [[? rtp'] ?].
  destruct (FindConstraintBool (Some c) kEnableVideoSuspendBelowMinBitrate
    suspend None) as [[? suspend'] ?].
  simpl in *. subst. by destruct found6.
Qed.

End Reparse.

(** X9.  Constraints that mention none of the eight keys leave a
    configuration as it is. *)
Theorem CopyConstraintsIntoRtcConfiguration_untouched
    (c : MediaConstraintsInterface) (configuration : RTCConfiguration) :
  (∀ k, k ∈ rtc_configuration_keys → k ∉ keys_of c) →
  CopyConstraintsIntoRtcConfiguration (Some c) configuration = configuration.
Proof.
  intros Hnone.
  unfold CopyConstraintsIntoRtcConfiguration, FindConstraintBool.
  rewrite !FindConstraintT_absent by (apply Hnone; key_listed).
  rewrite !ConstraintToOptional_absent by (apply Hnone; key_listed).
  by destruct configuration as [? [? []] ? ? ? ?].
Qed.

(** X10.  Constraints that mention none of the eleven keys leave audio
    options as they are, with one exception: when the options already
    carry an adaptor config string, the adaptor is switched on. *)
Theorem CopyConstraintsIntoAudioOptions_untouched
    (c : MediaConstraintsInterface) (options : AudioOptions) :
  (∀ k, k ∈ audio_options_keys → k ∉ keys_of c) →
  CopyConstraintsIntoAudioOptions (Some c) options =
    match audio_network_adaptor_config options with
    | Some _ =>
        {| echo_cancellation := echo_cancellation options;
           extended_filter_aec := extended_filter_aec options;
           delay_agnostic_aec := delay_agnostic_aec options;
           auto_gain_control := auto_gain_control options;
           experimental_agc := experimental_agc options;
           noise_suppression := noise_suppression options;
           experimental_ns := experimental_ns options;
           highpass_filter := highpass_filter options;
           typing_detection := typing_detection options;
           stereo_swapping := stereo_swapping options;
           audio_network_adaptor_config :=
             audio_network_adaptor_config options;
           audio_network_adaptor := Some true |}
    | None => options
    end.
Proof.
  intros Hnone. unfold CopyConstraintsIntoAudioOptions.
  rewrite !ConstraintToOptional_absent by (apply Hnone; key_listed).
  rewrite !ConstraintToOptionalString_absent by (apply Hnone; key_listed).
  by destruct options as [? ? ? ? ? ? ? ? ? ? [config|] ?].
Qed.

(** X11.  Constraints that mention none of the six keys leave offer/answer
    options as they are; the return value is then true exactly when there
    is no mandatory constraint at all. *)
Theorem CopyConstraintsIntoOfferAnswerOptions_untouched
    (c : MediaConstraintsInterface) (o : RTCOfferAnswerOptions) :
  (∀ k, k ∈ offer_answer_keys → k ∉ keys_of c) →
  CopyConstraintsIntoOfferAnswerOptions (Some c) o =
    (bool_decide (GetMandatory c = []), o).
Proof.
  intros Hnone.
  unfold CopyConstraintsIntoOfferAnswerOptions, FindConstraintBool,
    FindConstraintInt.
  rewrite !FindConstraintT_absent by (apply Hnone; key_listed).
  destruct o. f_equal. apply bool_decide_ext.
  destruct (GetMandatory c); simpl; split; intros [=]; done || lia.
Qed.

End Conversion.

(** A conversion overwrites its target: neither its verdict nor, when it
    succeeds, its result depends on what the target held before. *)
Definition overwrites {T : Type} (FromString : string → T → bool * T)
  : Prop :=
  ∀ s t t',
    (FromString s t).1 = (FromString s t').1 ∧
    ((FromString s t).1 = true → (FromString s t).2 = (FromString s t').2).

Section Locals.

Variable size_t_bits : Z.
Variable FromString_bool : string → bool → bool * bool.
Variable FromString_int : string → Z → bool * Z.
Variable kOfferToReceiveMediaTrue : Z.

Hypothesis bool_overwrites : overwrites FromString_bool.
Hypothesis int_overwrites : overwrites FromString_int.

Lemma FindConstraintT_overwrites {T : Type}
    (FromString : string → T → bool * T) :
  overwrites FromString →
  ∀ (c : option MediaConstraintsInterface) (k : string) (out out' : T)
    (n n' : option Z),
    (FindConstraintT size_t_bits FromString c k out n).1.1 =
      (FindConstraintT size_t_bits FromString c k out' n').1.1 ∧
    ((FindConstraintT size_t_bits FromString c k out n).1.1 = true →
     (FindConstraintT size_t_bits FromString c k out n).1.2 =
       (FindConstraintT size_t_bits FromString c k out' n').1.2).
Proof.
  intros Hover c k out out' n n'. unfold FindConstraintT.
  destruct c as [c|]; [|done].
  rewrite !FindConstraint_spec.
  destruct (list_find _ (GetMandatory c)) as [[? m]|].
  - destruct (Hover (value m) out out') as [Hok Hval].
    destruct (FromString (value m) out), (FromString (value m) out'). done.
  - destruct (list_find _ (GetOptional c)) as [[? x]|]; [|done].
    destruct (Hover (value x) out out') as [Hok Hval].
    destruct (FromString (value x) out), (FromString (value x) out'). done.
Qed.

Lemma ConstraintToOptional_overwrites {T : Type}
    (FromString : string → T → bool * T) :
  overwrites FromString →
  ∀ (i i' : T) (c : option MediaConstraintsInterface) (k : string)
    (v : option T),
    ConstraintToOptional size_t_bits FromString i c k v =
    ConstraintToOptional size_t_bits FromString i' c k v.
Proof.
  intros Hover i i' c k v. unfold ConstraintToOptional.
  destruct (FindConstraintT_overwrites FromString Hover c k i i' None None)
    as [Hfound Hval].
  destruct (FindConstraintT _ _ c k i None) as [[[] ?] ?],
    (FindConstraintT _ _ c k i' None) as [[[] ?] ?]; simpl in *;
    try done.
  by rewrite Hval.
Qed.

(** X12.  What an uninitialised local happens to hold never shows in a
    result: the three conversions give the same result whatever the
    locals [enable_ipv6], [layers] and the [value] of
    [ConstraintToOptional] start with, as long as a conversion from a
    string overwrites its target. *)
Theorem uninitialised_locals_do_not_show
    (b b' : bool) (z z' : Z)
    (constraints : option MediaConstraintsInterface)
    (configuration : RTCConfiguration) (options : AudioOptions)
    (o : RTCOfferAnswerOptions) :
  CopyConstraintsIntoRtcConfiguration size_t_bits FromString_bool
    FromString_int b z constraints configuration =
  CopyConstraintsIntoRtcConfiguration size_t_bits FromString_bool
    FromString_int b' z' constraints configuration ∧
  CopyConstraintsIntoAudioOptions size_t_bits FromString_bool b
    constraints options =
  CopyConstraintsIntoAudioOptions size_t_bits FromString_bool b'
    constraints options ∧
  CopyConstraintsIntoOfferAnswerOptions size_t_bits FromString_bool
    FromString_int kOfferToReceiveMediaTrue z constraints o =
  CopyConstraintsIntoOfferAnswerOptions size_t_bits FromString_bool
    FromString_int kOfferToReceiveMediaTrue z' constraints o.
Proof.
  destruct constraints as [c|]; [|done].
  split; [|split].
  - unfold CopyConstraintsIntoRtcConfiguration.
    rewrite !(ConstraintToOptional_overwrites _ bool_overwrites b b').
    rewrite !(ConstraintToOptional_overwrites _ int_overwrites z z').
    destruct (FindConstraintT_overwrites _ bool_overwrites (Some c)
      kEnableIPv6 b b' None None) as [Hfound Hval].
    unfold FindConstraintBool.
    destruct (FindConstraintT _ _ (Some c) kEnableIPv6 b None)
      as [[[] ?] ?],
      (FindConstraintT _ _ (Some c) kEnableIPv6 b' None) as [[[] ?] ?];
      simpl in *; try done.
    by rewrite Hval.
  - unfold CopyConstraintsIntoAudioOptions.
    by rewrite !(ConstraintToOptional_overwrites _ bool_overwrites b b').
  - unfold CopyConstraintsIntoOfferAnswerOptions, FindConstraintBool,
      FindConstraintInt.
    do 5 match goal with
         | |- context [FindConstraintT ?bits ?F (Some c) ?k ?out ?n] =>
             destruct (FindConstraintT bits F (Some c) k out n)
               as [[? ?] ?]
         end.
    match goal with
    | |- context [FindConstraintT _ _ (Some c) _ z ?n] =>
        destruct (FindConstraintT_overwrites _ int_overwrites (Some c)
          kNumSimulcastLayers z z' n n) as [Hfound Hval];
        pose proof (FindConstraintT_counter size_t_bits FromString_int c
          kNumSimulcastLayers z n) as Hn;
        pose proof (FindConstraintT_counter size_t_bits FromString_int c
          kNumSimulcastLayers z' n) as Hn'
    end.
    unfold FindConstraintInt.
    destruct (FindConstraintT _ _ (Some c) kNumSimulcastLayers z _)
      as [[[] ?] ?],
      (FindConstraintT _ _ (Some c) kNumSimulcastLayers z' _)
      as [[[] ?] ?]; simpl in *; try done; subst; try done.
    by rewrite Hval.
Qed.

(** X13.  The local [value], which
    [CopyConstraintsIntoOfferAnswerOptions] hands from one look-up to the
    next, carries nothing over: each member of the options is settled by
    the look-up of its own key alone, as if that look-up were the only
    one. *)
Theorem offer_answer_members_independent
    (z : Z) (c : MediaConstraintsInterface) (o : RTCOfferAnswerOptions) :
  let own_bool k :=
    FindConstraintBool size_t_bits FromString_bool (Some c) k false None in
  let own_int k :=
    FindConstraintInt size_t_bits FromString_int (Some c) k z None in
  (CopyConstraintsIntoOfferAnswerOptions size_t_bits FromString_bool
     FromString_int kOfferToReceiveMediaTrue z (Some c) o).2 =
  {| offer_to_receive_audio :=
       if (own_bool kOfferToReceiveAudio).1.1
       then (if (own_bool kOfferToReceiveAudio).1.2
             then kOfferToReceiveMediaTrue else 0)
       else offer_to_receive_audio o;
     offer_to_receive_video :=
       if (own_bool kOfferToReceiveVideo).1.1
       then (if (own_bool kOfferToReceiveVideo).1.2
             then kOfferToReceiveMediaTrue else 0)
       else offer_to_receive_video o;
     voice_activity_detection :=
       if (own_bool kVoiceActivityDetection).1.1
       then (own_bool kVoiceActivityDetection).1.2
       else voice_activity_detection o;
     use_rtp_mux :=
       if (own_bool kUseRtpMux).1.1
       then (own_bool kUseRtpMux).1.2
       else use_rtp_mux o;
     ice_restart :=
       if (own_bool kIceRestart).1.1
       then (own_bool kIceRestart).1.2
       else ice_restart o;
     num_simulcast_layers :=
       if (own_int kNumSimulcastLayers).1.1
       then (own_int kNumSimulcastLayers).1.2
       else num_simulcast_layers o |}.
Proof.
  intros own_bool own_int. subst own_bool own_int.
  unfold CopyConstraintsIntoOfferAnswerOptions, FindConstraintBool,
    FindConstraintInt.
  do 6 match goal with
       | |- context [FindConstraintT ?bits ?F (Some c) ?k ?out (Some ?n)] =>
           let Hi := fresh "Hi" in
           first
             [ pose proof (FindConstraintT_overwrites F bool_overwrites
                 (Some c) k out false (Some n) None) as Hi
             | pose proof (FindConstraintT_overwrites F int_overwrites
                 (Some c) k out z (Some n) None) as Hi ];
           pose proof (FindConstraintT_counter bits F c k out (Some n));
           destruct (FindConstraintT bits F (Some c) k out (Some n))
             as [[? ?] [?|]]; [|by case_decide];
           destruct Hi as [<- Hi]
       end.
  cbn [fst snd] in *.
  repeat match goal with
         | H : ?b = true → _ |- _ =>
             destruct b; [specialize (H eq_refl) as <-|clear H]
         end; done.
Qed.

End Locals.

(** Conversions for the examples: the two spellings of a truth value, and
    the first few numbers. *)
Definition sample_FromString_bool (s : string) (b : bool) : bool * bool :=
  if decide (s = "true") then (true, true)
  else if decide (s = "false") then (true, false)
  else (false, b).

Definition sample_FromString_int (s : string) (z : Z) : bool * Z :=
  if decide (s = "0") then (true, 0)
  else if decide (s = "1") then (true, 1)
  else if decide (s = "2") then (true, 2)
  else if decide (s = "3") then (true, 3)
  else (false, 0).

Lemma sample_FromString_bool_overwrites : overwrites sample_FromString_bool.
Proof.
  intros s t t'. unfold sample_FromString_bool.
  by repeat case_decide.
Qed.

Lemma sample_FromString_int_overwrites : overwrites sample_FromString_int.
Proof.
  intros s t t'. unfold sample_FromString_int.
  by repeat case_decide.
Qed.

Lemma sample_FromString_bool_settles (s : string) (b : bool) :
  (sample_FromString_bool s (sample_FromString_bool s b).2).2 =
  (sample_FromString_bool s b).2.
Proof. unfold sample_FromString_bool. by repeat case_decide. Qed.

(** An offer with a mandatory constraint whose value is no truth value. *)
Definition sample_offer : MediaConstraintsInterface :=
  {| GetMandatory := [mkConstraint "OfferToReceiveAudio" "true";
                      mkConstraint "IceRestart" "maybe"];
     GetOptional := [mkConstraint "IceRestart" "true";
                     mkConstraint "googNumSimulcastLayers" "2";
                     mkConstraint "googDscp" "true"] |}.

Definition sample_audio : MediaConstraintsInterface :=
  {| GetMandatory := [mkConstraint "googEchoCancellation" "false"];
     GetOptional := [mkConstraint "googAudioNetworkAdaptorConfig" "cfg";
                     mkConstraint "unknown" "true"] |}.

Definition sample_options : RTCOfferAnswerOptions :=
  {| offer_to_receive_audio := -1;
     offer_to_receive_video := -1;
     voice_activity_detection := true;
     use_rtp_mux := true;
     ice_restart := false;
     num_simulcast_layers := 1 |}.

Definition sample_configuration : RTCConfiguration :=
  {| disable_ipv6 := false;
     media_config :=
       {| enable_dscp := false;
          video := {| enable_cpu_adaptation := true;
                      suspend_below_min_bitrate := false |} |};
     enable_rtp_data_channel := false;
     screencast_min_bitrate := None;
     combined_audio_video_bwe := None;
     enable_dtls_srtp := None |}.

Definition sample_audio_options : AudioOptions :=
  {| echo_cancellation := None;
     extended_filter_aec := None;
     delay_agnostic_aec := None;
     auto_gain_control := Some true;
     experimental_agc := None;
     noise_suppression := None;
     experimental_ns := None;
     highpass_filter := None;
     typing_detection := None;
     stereo_swapping := None;
     audio_network_adaptor_config := Some "old";
     audio_network_adaptor := None |}.

Example CopyConstraintsIntoOfferAnswerOptions_sample :
  CopyConstraintsIntoOfferAnswerOptions 64 sample_FromString_bool
    sample_FromString_int 1 7 (Some sample_offer) sample_options =
  (true,
   {| offer_to_receive_audio := 1;
      offer_to_receive_video := -1;
      voice_activity_detection := true;
      use_rtp_mux := true;
      ice_restart := false;
      num_simulcast_layers := 2 |}).
Proof. reflexivity. Qed.

Example CopyConstraintsIntoRtcConfiguration_sample :
  enable_dscp (media_config
    (CopyConstraintsIntoRtcConfiguration 64 sample_FromString_bool
       sample_FromString_int true 7 (Some sample_offer)
       sample_configuration)) = true.
Proof. reflexivity. Qed.

Example CopyConstraintsIntoAudioOptions_sample :
  let options :=
    CopyConstraintsIntoAudioOptions 64 sample_FromString_bool true
      (Some sample_audio) sample_audio_options in
  echo_cancellation options = Some false ∧
  auto_gain_control options = Some true ∧
  audio_network_adaptor_config options = Some "cfg" ∧
  audio_network_adaptor options = Some true.
Proof. repeat split; reflexivity. Qed.

Lemma mandatory_entry_decides_witness :
  FindConstraintT 64 sample_FromString_bool (Some sample_offer) "IceRestart"
    true (Some 0) = (false, true, Some 1).
Proof.
  apply (mandatory_entry_decides 64 sample_FromString_bool sample_offer
           "IceRestart" true (Some 0) 1%nat
           (mkConstraint "IceRestart" "maybe")).
  reflexivity.
Defined.

Lemma CopyConstraintsIntoOfferAnswerOptions_returns_witness :
  (CopyConstraintsIntoOfferAnswerOptions 64 sample_FromString_bool
     sample_FromString_int 1 7 (Some sample_offer) sample_options).1 = true ↔
  NoDup (key <$> GetMandatory sample_offer) ∧
  ∀ k, k ∈ key <$> GetMandatory sample_offer → k ∈ offer_answer_keys.
Proof.
  apply (CopyConstraintsIntoOfferAnswerOptions_returns 64
           sample_FromString_bool sample_FromString_int 1 7 sample_offer
           sample_options).
  lia.
Defined.

Lemma CopyConstraintsIntoRtcConfiguration_idempotent_witness :
  CopyConstraintsIntoRtcConfiguration 64 sample_FromString_bool
    sample_FromString_int true 7 (Some sample_offer)
    (CopyConstraintsIntoRtcConfiguration 64 sample_FromString_bool
       sample_FromString_int true 7 (Some sample_offer)
       sample_configuration) =
  CopyConstraintsIntoRtcConfiguration 64 sample_FromString_bool
    sample_FromString_int true 7 (Some sample_offer) sample_configuration.
Proof.
  apply (CopyConstraintsIntoRtcConfiguration_idempotent 64
           sample_FromString_bool sample_FromString_int true 7
           sample_FromString_bool_settles).
Defined.

Lemma CopyConstraintsIntoRtcConfiguration_untouched_witness :
  CopyConstraintsIntoRtcConfiguration 64 sample_FromString_bool
    sample_FromString_int true 7 (Some sample_audio) sample_configuration =
  sample_configuration.
Proof.
  apply (CopyConstraintsIntoRtcConfiguration_untouched 64
           sample_FromString_bool sample_FromString_int true 7 sample_audio
           sample_configuration).
  apply Forall_forall, (bool_decide_unpack _). vm_compute. exact I.
Defined.

Lemma CopyConstraintsIntoAudioOptions_untouched_witness :
  audio_network_adaptor
    (CopyConstraintsIntoAudioOptions 64 sample_FromString_bool true
       (Some sample_offer) sample_audio_options) = Some true.
Proof.
  rewrite (CopyConstraintsIntoAudioOptions_untouched 64
             sample_FromString_bool true sample_offer sample_audio_options).
  - reflexivity.
  - apply Forall_forall, (bool_decide_unpack _). vm_compute. exact I.
Defined.

Lemma CopyConstraintsIntoOfferAnswerOptions_untouched_witness :
  CopyConstraintsIntoOfferAnswerOptions 64 sample_FromString_bool
    sample_FromString_int 1 7 (Some sample_audio) sample_options =
  (false, sample_options).
Proof.
  apply (CopyConstraintsIntoOfferAnswerOptions_untouched 64
           sample_FromString_bool sample_FromString_int 1 7 sample_audio
           sample_options).
  apply Forall_forall, (bool_decide_unpack _). vm_compute. exact I.
Defined.

Lemma uninitialised_locals_do_not_show_witness :
  CopyConstraintsIntoRtcConfiguration 64 sample_FromString_bool
    sample_FromString_int true 7 (Some sample_offer) sample_configuration =
  CopyConstraintsIntoRtcConfiguration 64 sample_FromString_bool
    sample_FromString_int false 0 (Some sample_offer) sample_configuration ∧
  CopyConstraintsIntoAudioOptions 64 sample_FromString_bool true
    (Some sample_offer) sample_audio_options =
  CopyConstraintsIntoAudioOptions 64 sample_FromString_bool false
    (Some sample_offer) sample_audio_options ∧
  CopyConstraintsIntoOfferAnswerOptions 64 sample_FromString_bool
    sample_FromString_int 1 7 (Some sample_offer) sample_options =
  CopyConstraintsIntoOfferAnswerOptions 64 sample_FromString_bool
    sample_FromString_int 1 0 (Some sample_offer) sample_options.
Proof.
  apply (uninitialised_locals_do_not_show 64 sample_FromString_bool
           sample_FromString_int 1 sample_FromString_bool_overwrites
           sample_FromString_int_overwrites).
Defined.

Lemma offer_answer_members_independent_witness :
  ice_restart
    (CopyConstraintsIntoOfferAnswerOptions 64 sample_FromString_bool
       sample_FromString_int 1 7 (Some sample_offer) sample_options).2 =
  false.
Proof.
  rewrite (offer_answer_members_independent 64 sample_FromString_bool
             sample_FromString_int 1 sample_FromString_bool_overwrites
             sample_FromString_int_overwrites 7 sample_offer sample_options).
  reflexivity.
Defined.

End ConstraintsConversion.

(* ===================================================================== *)
(** ** api/video/encoded_image.cc: how the operations combine *)
(* ===================================================================== *)

Module EncodedImageLaws.

Import EncodedImage.

Section Laws.

Variable OtherMembers : Type.

Local Abbreviation Image := (EncodedImage.t OtherMembers).
Local Abbreviation Retain := (EncodedImage.Retain OtherMembers).
Local Abbreviation SetEncodeTime := (EncodedImage.SetEncodeTime OtherMembers).

(** X14.  Setting the encode times and retaining the data do not get in
    each other's way: [Retain] after [SetEncodeTime] gives what
    [SetEncodeTime] after [Retain] gives, and fails to be defined in the
    same cases. *)
Theorem Retain_SetEncodeTime (encode_start encode_finish : Z) (img : Image) :
  Retain (SetEncodeTime encode_start encode_finish img) =
  SetEncodeTime encode_start encode_finish <$> Retain img.
Proof.
  unfold EncodedImage.Retain. simpl.
  destruct (buffer_ _ img) as [buffer|]; [|done].
  by destruct (memcpy _ buffer (size_ _ img)).
Qed.

(** X15.  [Retain] reads the first [size_] bytes behind [buffer_] and
    nothing else: two images that differ only in what lies behind
    [buffer_], and agree on its first [size_] bytes, are retained to the
    same image, whose [encoded_data_] has exactly [size_] bytes.  The
    capacity plays no part. *)
Theorem Retain_reads_size_bytes (size capacity : nat)
    (buffer buffer' data : list Byte.byte) (timing : Timing)
    (other : OtherMembers) :
  (size ≤ length buffer)%nat → (size ≤ length buffer')%nat →
  take size buffer = take size buffer' →
  ∃ img,
    Retain (mk _ size (Some buffer) capacity data timing other) = Some img ∧
    Retain (mk _ size (Some buffer') capacity data timing other) = Some img ∧
    length (encoded_data_ _ img) = size ∧
    buffer_ _ img = None.
Proof.
  intros Hlen Hlen' Hsame. eexists. split; [|split; [|split]].
  - by apply Retain_defined.
  - rewrite (Retain_defined _ _ buffer') by done. simpl. by rewrite Hsame.
  - simpl. rewrite length_take. lia.
  - done.
Qed.

End Laws.

Lemma Retain_reads_size_bytes_witness :
  ∃ img,
    EncodedImage.Retain unit
      (mk _ 2%nat (Some [Byte.x0a; Byte.x0b; Byte.x0c]) 0%nat []
         (mkTiming 0 0) ()) = Some img ∧
    EncodedImage.Retain unit
      (mk _ 2%nat (Some [Byte.x0a; Byte.x0b]) 0%nat [] (mkTiming 0 0) ())
      = Some img ∧
    length (encoded_data_ _ img) = 2%nat ∧
    buffer_ _ img = None.
Proof.
  apply (Retain_reads_size_bytes unit 2 0 [Byte.x0a; Byte.x0b; Byte.x0c]
           [Byte.x0a; Byte.x0b] [] (mkTiming 0 0) ()).
  - simpl. lia.
  - simpl. lia.
  - reflexivity.
Defined.

End EncodedImageLaws.

(* ===================================================================== *)
(** ** test/scenario/video_stream.cc *)
(* ===================================================================== *)

Module VideoStream.

(** [InterLayerPredMode], of which the file names one enumerator. *)
Inductive InterLayerPredMode := kOnKeyPic.

(** The members of [VideoCodecH264], [VideoCodecVP8] and [VideoCodecVP9]
    that the file assigns. *)
Module H264.
Record Settings := mk {
  frameDroppingOn : bool;
  keyFrameInterval : Z
}.
End H264.

Module VP8.
Record Settings := mk {
  frameDroppingOn : bool;
  keyFrameInterval : Z;
  automaticResizeOn : bool;
  denoisingOn : bool
}.
End VP8.

Module VP9.
Record Settings := mk {
  frameDroppingOn : bool;
  keyFrameInterval : Z;
  automaticResizeOn : bool;
  denoisingOn : bool;
  interLayerPred : InterLayerPredMode
}.
End VP9.

(** [VideoEncoderConfig::EncoderSpecificSettings] and the three classes
    derived from it that the file instantiates. *)
Inductive EncoderSpecificSettings :=
  | H264EncoderSpecificSettings (settings : H264.Settings)
  | Vp8EncoderSpecificSettings (settings : VP8.Settings)
  | Vp9EncoderSpecificSettings (settings : VP9.Settings).

(** The two stream factories, with the arguments of their constructors. *)
Inductive VideoStreamFactory :=
  | EncoderStreamFactory (codec_name : string) (max_qp : Z)
      (is_screenshare screenshare_config_explicitly_enabled : bool)
  | DefaultVideoStreamFactory.

(** [VideoEncoderConfig::ContentType] *)
Inductive EncoderContentType := kRealtimeVideo | kEncoderScreen.

(** The member of [VideoStream] that the file assigns. *)
Record VideoStream := mkVideoStream {
  layer_max_framerate : Z
}.

(** [SdpVideoFormat(name, parameters)] *)
Record SdpVideoFormat := mkSdpVideoFormat {
  name : string;
  parameters : list (string * string)
}.

(** Conversion of an [int64_t] to [int], where [int] has 32 bits. *)
Definition to_int (x : Z) : Z := (x + 2 ^ 31) `mod` 2 ^ 32 - 2 ^ 31.

Section Config.

(** [VideoCodecType], alias [VideoStreamConfig::Encoder::Codec], with the
    four enumerators the file names.  The enumeration, like everything
    declared in test/scenario/scenario_config.h, is not among the sources. *)
Context {VideoCodecType : Type} `{EqDecision VideoCodecType}.
Variable kVideoCodecGeneric : VideoCodecType.
Variable kVideoCodecVP8 : VideoCodecType.
Variable kVideoCodecVP9 : VideoCodecType.
Variable kVideoCodecH264 : VideoCodecType.

(** [VideoStreamConfig::Source::ContentType] with its two enumerators. *)
Inductive SourceContentType := kVideo | kScreen.

(** [DataRate] and its accessor [bps]. *)
Variable DataRate : Type.
Variable bps : DataRate → Z.

(** The members of [VideoStreamConfig] that the functions below read. *)
Record Encoder := mkEncoder {
  codec : VideoCodecType;
  key_frame_interval : option Z;
  denoising : bool;
  num_simulcast_streams : nat;
  max_data_rate : option DataRate;
  max_framerate : option Z
}.

Record Source := mkSource {
  content_type : SourceContentType
}.

Record Stream := mkStream {
  pad_to_rate : DataRate
}.

Record VideoStreamConfig := mkVideoStreamConfig {
  encoder : Encoder;
  source : Source;
  stream : Stream
}.

(** The members of [VideoEncoderConfig] that [CreateVideoEncoderConfig]
    assigns. *)
Record VideoEncoderConfig := mkVideoEncoderConfig {
  codec_type : VideoCodecType;
  encoder_content_type : EncoderContentType;
  video_format : SdpVideoFormat;
  number_of_streams : nat;
  simulcast_layers : list VideoStream;
  min_transmit_bitrate_bps : Z;
  video_stream_factory : VideoStreamFactory;
  max_bitrate_bps : Z;
  encoder_specific_settings : option EncoderSpecificSettings
}.

(** Constants and functions of other files: the codec names of
    media/base/media_constants.h, [kDefaultQpMax] of
    [cricket::WebRtcVideoChannel], [CodecTypeToPayloadString], and the
    [VideoStream] a default constructor makes. *)
Variable kVp8CodecName : string.
Variable kVp9CodecName : string.
Variable kH264CodecName : string.
Variable kDefaultMaxQp : Z.
Variable CodecTypeToPayloadString : VideoCodecType → string.
Variable default_VideoStream : VideoStream.

(** Whether [RTC_DCHECK]s are compiled in: [RTC_NOTREACHED] ends the
    program when they are and does nothing when they are not. *)
Variable RTC_DCHECK_IS_ON : bool.

(** [std::string CodecTypeToCodecName(VideoCodecType)]; [None] stands for
    the program ended by [RTC_NOTREACHED]. *)
Definition CodecTypeToCodecName (codec_type : VideoCodecType)
  : option string :=
  if decide (codec_type = kVideoCodecGeneric) then Some ""
  else if decide (codec_type = kVideoCodecVP8) then Some kVp8CodecName
  else if decide (codec_type = kVideoCodecVP9) then Some kVp9CodecName
  else if decide (codec_type = kVideoCodecH264) then Some kH264CodecName
  else if RTC_DCHECK_IS_ON then None else Some "".

(** [CreateEncoderSpecificSettings(VideoStreamConfig)]; a null pointer is
    [None]. *)
Definition CreateEncoderSpecificSettings (config : VideoStreamConfig)
  : option EncoderSpecificSettings :=
  let interval := default 0 (key_frame_interval (encoder config)) in
  if decide (codec (encoder config) = kVideoCodecH264) then
    Some (H264EncoderSpecificSettings
            {| H264.frameDroppingOn := true;
               H264.keyFrameInterval := interval |})
  else if decide (codec (encoder config) = kVideoCodecVP8) then
    Some (Vp8EncoderSpecificSettings
            {| VP8.frameDroppingOn := true;
               VP8.keyFrameInterval := interval;
               VP8.automaticResizeOn := true;
               VP8.denoisingOn := denoising (encoder config) |})
  else if decide (codec (encoder config) = kVideoCodecVP9) then
    Some (Vp9EncoderSpecificSettings
            {| VP9.frameDroppingOn := true;
               VP9.keyFrameInterval := interval;
               VP9.automaticResizeOn := true;
               VP9.denoisingOn := denoising (encoder config);
               VP9.interLayerPred := kOnKeyPic |})
  else None.

(** [layer.max_framerate = value] *)
Definition set_max_framerate (value : Z) (layer : VideoStream)
  : VideoStream :=
  {| layer_max_framerate := value |}.

(** [VideoEncoderConfig CreateVideoEncoderConfig(VideoStreamConfig)];
    [None] stands for the program ended inside [CodecTypeToCodecName]. *)
Definition CreateVideoEncoderConfig (config : VideoStreamConfig)
  : option VideoEncoderConfig :=
  let num_streams := num_simulcast_streams (encoder config) in
  let layers := replicate num_streams default_VideoStream in
  cricket_codec ← CodecTypeToCodecName (codec (encoder config));
  Some
    {| codec_type := codec (encoder config);
       encoder_content_type :=
         match content_type (source config) with
         | kVideo => kRealtimeVideo
         | kScreen => kEncoderScreen
         end;
       video_format :=
         mkSdpVideoFormat
           (CodecTypeToPayloadString (codec (encoder config))) [];
       number_of_streams := num_streams;
       simulcast_layers :=
         match max_framerate (encoder config) with
         | Some framerate => set_max_framerate framerate <$> layers
         | None => layers
         end;
       min_transmit_bitrate_bps := to_int (bps (pad_to_rate (stream config)));
       video_stream_factory :=
         if decide (cricket_codec = "")
         then DefaultVideoStreamFactory
         else EncoderStreamFactory cricket_codec kDefaultMaxQp false false;
       max_bitrate_bps :=
         match max_data_rate (encoder config) with
         | Some rate => to_int (bps rate)
         | None => 10000000
         end;
       encoder_specific_settings := CreateEncoderSpecificSettings config |}.

(** The members of [VideoSendStream::StreamStats] and
    [VideoSendStream::Stats] that [StatsPrinter] reads; [substreams], a
    [std::map] from ssrc to stream statistics, is given by its entries in
    the order of iteration. *)
Record StreamStats := mkStreamStats {
  width : Z;
  height : Z
}.

Record Stats := mkStats {
  substreams : list (Z * StreamStats);
  target_media_bitrate_bps : Z;
  media_bitrate_bps : Z
}.

(** The lambda of [ColumnPrinter SendVideoStream::StatsPrinter()], up to
    the formatting: the four values it hands to [AppendFormat], given the
    statistics [send_stream_->GetStats()] returned.  A bitrate divided by
    [8.0] is an exact quotient. *)
Definition StatsPrinter (video_stats : Stats)
  : QArith_base.Q * QArith_base.Q * Z * Z :=
  let '(width', height') :=
    foldl (λ '(width', height') stream_stat,
             (Z.max width' (width stream_stat.2),
              Z.max height' (height stream_stat.2)))
          (0, 0) (substreams video_stats) in
  (QArith_base.Qmake (target_media_bitrate_bps video_stats) 8,
   QArith_base.Qmake (media_bitrate_bps video_stats) 8,
   width', height').

(** X17.  The configuration [CreateVideoEncoderConfig] returns has as many
    simulcast layers as the stream configuration asks for, says so in
    [number_of_streams], and gives every layer the configured maximal
    frame rate; without a configured frame rate every layer is as its
    default constructor made it. *)
Theorem CreateVideoEncoderConfig_layers (config : VideoStreamConfig)
    (encoder_config : VideoEncoderConfig) :
  CreateVideoEncoderConfig config = Some encoder_config →
  number_of_streams encoder_config = num_simulcast_streams (encoder config) ∧
  length (simulcast_layers encoder_config) =
    num_simulcast_streams (encoder config) ∧
  ∀ layer, layer ∈ simulcast_layers encoder_config →
    match max_framerate (encoder config) with
    | Some framerate => layer_max_framerate layer = framerate
    | None => layer = default_VideoStream
    end.
Proof.
  unfold CreateVideoEncoderConfig.
  destruct (CodecTypeToCodecName _) as [cricket_codec|]; [|done].
  intros [= <-]. cbn [number_of_streams simulcast_layers].
  split; [done|].
  destruct (max_framerate (encoder config)) as [framerate|].
  - rewrite length_fmap, length_replicate. split; [done|].
    by intros layer (l & -> & _)%list_elem_of_fmap.
  - rewrite length_replicate. split; [done|].
    by intros layer [-> _]%elem_of_replicate.
Qed.

(** X18.  The maximal frame rate reaches the simulcast layers and nothing
    else: two stream configurations that differ only in [max_framerate]
    lead to encoder configurations that differ only in
    [simulcast_layers]. *)
Theorem max_framerate_reaches_layers_only
    (codec' : VideoCodecType) (interval : option Z) (denoising' : bool)
    (streams : nat) (rate : option DataRate) (framerate framerate' : option Z)
    (source' : Source) (stream' : Stream) :
  let config f :=
    mkVideoStreamConfig
      (mkEncoder codec' interval denoising' streams rate f) source' stream' in
  let rest cfg :=
    (codec_type cfg, encoder_content_type cfg, video_format cfg,
     number_of_streams cfg, min_transmit_bitrate_bps cfg,
     video_stream_factory cfg, max_bitrate_bps cfg,
     encoder_specific_settings cfg) in
  rest <$> CreateVideoEncoderConfig (config framerate) =
  rest <$> CreateVideoEncoderConfig (config framerate').
Proof.
  intros config rest. unfold CreateVideoEncoderConfig. simpl.
  by destruct (CodecTypeToCodecName codec').
Qed.

Lemma StatsPrinter_fold (streams : list (Z * StreamStats)) (w h : Z) :
  let r :=
    foldl (λ '(width', height') stream_stat,
             (Z.max width' (width stream_stat.2),
              Z.max height' (height stream_stat.2)))
          (w, h) streams in
  (w ≤ r.1 ∧ h ≤ r.2) ∧
  (∀ s, s ∈ streams → width s.2 ≤ r.1 ∧ height s.2 ≤ r.2) ∧
  (r.1 = w ∨ ∃ s, s ∈ streams ∧ width s.2 = r.1) ∧
  (r.2 = h ∨ ∃ s, s ∈ streams ∧ height s.2 = r.2).
Proof.
  revert w h. induction streams as [|s rest IH]; intros w h; simpl.
  - split; [lia|]. split; [by intros ? ?%elem_of_nil|].
    split; by left.
  - destruct (IH (Z.max w (width s.2)) (Z.max h (height s.2)))
      as ((Hw & Hh) & Hall & Hwid & Hhei).
    split; [lia|]. split; [|split].
    + intros s' [->|Hin]%elem_of_cons; [lia|by apply Hall].
    + destruct Hwid as [Heq|(s' & Hin & Heq)].
      * destruct (Z.max_spec w (width s.2)) as [[_ Hm]|[_ Hm]].
        -- right. exists s. split; [left|lia].
        -- left. lia.
      * right. exists s'. split; [by right|done].
    + destruct Hhei as [Heq|(s' & Hin & Heq)].
      * destruct (Z.max_spec h (height s.2)) as [[_ Hm]|[_ Hm]].
        -- right. exists s. split; [left|lia].
        -- left. lia.
      * right. exists s'. split; [by right|done].
Qed.

(** X19.  The width and the height that [StatsPrinter] prints are each the
    largest among the substreams, separately (so possibly of different
    substreams), and 0 when there is no substream or none has a positive
    one. *)
Theorem StatsPrinter_largest (video_stats : Stats) :
  let printed_width := (StatsPrinter video_stats).1.2 in
  let printed_height := (StatsPrinter video_stats).2 in
  (∀ s, s ∈ substreams video_stats →
     width s.2 ≤ printed_width ∧ height s.2 ≤ printed_height) ∧
  (0 ≤ printed_width ∧ 0 ≤ printed_height) ∧
  (printed_width = 0 ∨
   ∃ s, s ∈ substreams video_stats ∧ width s.2 = printed_width) ∧
  (printed_height = 0 ∨
   ∃ s, s ∈ substreams video_stats ∧ height s.2 = printed_height).
Proof.
  unfold StatsPrinter.
  pose proof (StatsPrinter_fold (substreams video_stats) 0 0) as H.
  cbv zeta in H.
  destruct (foldl _ (0, 0) (substreams video_stats)) as [w h].
  simpl in *. tauto.
Qed.

End Config.

(** The functions at the four codec types of [EncodedImage.KnownCodec],
    with a [DataRate] that is its number of bits per second. *)
Definition sample_CreateVideoEncoderConfig (dcheck : bool)
  : VideoStreamConfig Z → option VideoEncoderConfig :=
  CreateVideoEncoderConfig EncodedImage.kVideoCodecGeneric
    EncodedImage.kVideoCodecVP8 EncodedImage.kVideoCodecVP9
    EncodedImage.kVideoCodecH264 Z id "VP8" "VP9" "H264" 56
    (λ _, "payload") (mkVideoStream (-1)) dcheck.

Definition sample_config : VideoStreamConfig Z :=
  mkVideoStreamConfig Z
    (mkEncoder Z EncodedImage.kVideoCodecVP8 None true 3 None (Some 30))
    (mkSource kScreen) (mkStream Z 0).

Example CreateVideoEncoderConfig_sample :
  sample_CreateVideoEncoderConfig true sample_config =
  Some {| codec_type := EncodedImage.kVideoCodecVP8;
          encoder_content_type := kEncoderScreen;
          video_format := mkSdpVideoFormat "payload" [];
          number_of_streams := 3;
          simulcast_layers :=
            [mkVideoStream 30; mkVideoStream 30; mkVideoStream 30];
          min_transmit_bitrate_bps := 0;
          video_stream_factory := EncoderStreamFactory "VP8" 56 false false;
          max_bitrate_bps := 10000000;
          encoder_specific_settings :=
            Some (Vp8EncoderSpecificSettings (VP8.mk true 0 true true)) |}.
Proof. reflexivity. Qed.

Example StatsPrinter_sample :
  StatsPrinter
    (mkStats [(1, mkStreamStats 640 360); (2, mkStreamStats 320 480)]
       800000 640000) =
  (QArith_base.Qmake 800000 8, QArith_base.Qmake 640000 8, 640, 480).
Proof. reflexivity. Qed.

Lemma CreateVideoEncoderConfig_layers_witness :
  ∃ encoder_config,
    sample_CreateVideoEncoderConfig true sample_config = Some encoder_config ∧
    number_of_streams encoder_config = 3%nat ∧
    length (simulcast_layers encoder_config) = 3%nat ∧
    ∀ layer, layer ∈ simulcast_layers encoder_config →
             layer_max_framerate layer = 30.
Proof.
  eexists. split; [reflexivity|].
  apply (CreateVideoEncoderConfig_layers EncodedImage.kVideoCodecGeneric
           EncodedImage.kVideoCodecVP8 EncodedImage.kVideoCodecVP9
           EncodedImage.kVideoCodecH264 Z id "VP8" "VP9" "H264" 56
           (λ _, "payload") (mkVideoStream (-1)) true sample_config).
  reflexivity.
Defined.

End VideoStream.
